(** * NAS-Desktop-SSH-Operator: plan, quoting, undo and index core

    A shallow embedding of the pure core of the [jfo] package
    (quoting, plan model, history / undo, sandbox validation, media
    grouping, NFO identifier extraction, the index and its updater, and
    the remote path helpers) together with the properties its
    specification states about it and further facts read off the code.

    Conventions of the embedding.

    - A Python [str] is a sequence of Unicode code points.  The embedding
      covers the strings whose code points are below 256 and represents
      them by [string], one [ascii] per code point; the texts of an NFO
      document, where the digits and the white space of all of Unicode
      matter, are lists of code points without that bound.
    - A function that can raise returns a [result]: [Ok v] for a normal
      return, [Raise e] for an exception.
    - Mutable [Operation] objects live in a store ([list Operation]); a
      [Plan] holds references (indices) into it, so aliasing is visible. *)

From Stdlib Require Import Ascii NArith ZArith Lia DecimalString.
From stdpp Require Import base list strings gmap.

Set Default Proof Using "Type".

(** ** Results of functions that may raise *)

Inductive result (E A : Type) : Type :=
| Ok (a : A)
| Raise (e : E).
Arguments Ok {E A} a.
Arguments Raise {E A} e.

Definition raises {E A : Type} (r : result E A) : Prop :=
  match r with Raise _ => True | Ok _ => False end.

(** ** Python string primitives *)

Module PyStr.

Definition dquote : ascii := "034"%char.
Definition squote : ascii := "'"%char.

Definition code (c : ascii) : N := N_of_ascii c.

(** [len(s) == 0] is Python's falsity test for strings. *)
Definition truthy (s : string) : bool :=
  match s with EmptyString => false | String _ _ => true end.

(** [x or ""] for an optional string. *)
Definition or_empty (o : option string) : string := default "" o.

(** [not x] for [x : Optional[str]]: [None] and the empty string are falsy. *)
Definition opt_truthy (o : option string) : bool :=
  match o with Some s => truthy s | None => false end.

Fixpoint chars (s : string) : list ascii :=
  match s with
  | EmptyString => []
  | String c s' => c :: chars s'
  end.

Fixpoint of_chars (l : list ascii) : string :=
  match l with
  | [] => EmptyString
  | c :: l' => String c (of_chars l')
  end.

(** [c in s] for a one-character [c]. *)
Fixpoint contains_char (c : ascii) (s : string) : bool :=
  match s with
  | EmptyString => false
  | String d s' => Ascii.eqb c d || contains_char c s'
  end.

(** [s.startswith(p)]. *)
Definition startswith (s p : string) : bool := String.prefix p s.

Fixpoint drop (n : nat) (s : string) : string :=
  match n, s with
  | O, _ => s
  | S n', EmptyString => EmptyString
  | S n', String _ s' => drop n' s'
  end.

(** [s.endswith(p)]. *)
Definition endswith (s p : string) : bool :=
  (String.length p <=? String.length s) &&
  String.eqb (drop (String.length s - String.length p) s) p.

(** [sub in s]. *)
Fixpoint contains (sub s : string) : bool :=
  String.prefix sub s ||
  match s with
  | EmptyString => false
  | String _ s' => contains sub s'
  end.

Fixpoint lstrip_with (f : ascii -> bool) (s : string) : string :=
  match s with
  | EmptyString => EmptyString
  | String c s' => if f c then lstrip_with f s' else s
  end.

Fixpoint rstrip_with (f : ascii -> bool) (s : string) : string :=
  match s with
  | EmptyString => EmptyString
  | String c s' =>
      match rstrip_with f s' with
      | EmptyString => if f c then EmptyString else String c EmptyString
      | r => String c r
      end
  end.

(** Code points below 256 for which [str.isspace()] holds; these are the
    characters removed by [str.strip()] without arguments. *)
Definition is_space (c : ascii) : bool :=
  let n := code c in
  ((9 <=? n) && (n <=? 13) || (28 <=? n) && (n <=? 32) || (n =? 133) || (n =? 160))%N.

Definition strip (s : string) : string :=
  rstrip_with is_space (lstrip_with is_space s).

(** [s.lstrip(chars)] and [s.rstrip(chars)]. *)
Definition lstrip (cs : string) (s : string) : string :=
  lstrip_with (fun c => contains_char c cs) s.
Definition rstrip (cs : string) (s : string) : string :=
  rstrip_with (fun c => contains_char c cs) s.

(** [str.lower()] on code points below 256: A-Z and the Latin-1 capitals
    U+00C0..U+00DE (U+00D7 excepted) move up by 32. *)
Definition lower_char (c : ascii) : ascii :=
  let n := code c in
  if ((65 <=? n) && (n <=? 90) || (192 <=? n) && (n <=? 222) && negb (n =? 215))%N
  then ascii_of_N (n + 32) else c.

Fixpoint lower (s : string) : string :=
  match s with
  | EmptyString => EmptyString
  | String c s' => String (lower_char c) (lower s')
  end.

(** [s.replace(old, new)]: every non-overlapping occurrence, leftmost
    first.  [skip] counts the characters of a matched occurrence that are
    still to be consumed.  For an empty [old] Python inserts [new] before
    every character and at the end. *)
Fixpoint replace_go (old new : string) (skip : nat) (s : string) : string :=
  match s with
  | EmptyString => EmptyString
  | String c s' =>
      match skip with
      | S k => replace_go old new k s'
      | O =>
          if String.prefix old s
          then new +:+ replace_go old new (String.length old - 1) s'
          else String c (replace_go old new 0 s')
      end
  end.

Fixpoint intersperse_go (new : string) (s : string) : string :=
  match s with
  | EmptyString => new
  | String c s' => new +:+ String c (intersperse_go new s')
  end.

Definition replace (old new s : string) : string :=
  match old with
  | EmptyString => intersperse_go new s
  | _ => replace_go old new 0 s
  end.

(** [s.split(sep)] for a one-character separator: never empty. *)
Fixpoint split (sep : ascii) (s : string) : list string :=
  match s with
  | EmptyString => [EmptyString]
  | String c s' =>
      if Ascii.eqb c sep then EmptyString :: split sep s'
      else match split sep s' with
           | [] => [String c EmptyString]
           | w :: ws => String c w :: ws
           end
  end.

(** [sep.join(l)]. *)
Fixpoint join (sep : string) (l : list string) : string :=
  match l with
  | [] => EmptyString
  | [x] => x
  | x :: l' => x +:+ sep +:+ join sep l'
  end.

(** [s.rsplit(sep, 1)] for a one-character separator: [None] when [sep]
    does not occur (Python returns the one-element list [[s]]), otherwise
    the parts before and after the last occurrence. *)
Fixpoint rsplit1 (sep : ascii) (s : string) : option (string * string) :=
  match s with
  | EmptyString => None
  | String c s' =>
      match rsplit1 sep s' with
      | Some (a, b) => Some (String c a, b)
      | None => if Ascii.eqb c sep then Some (EmptyString, s') else None
      end
  end.

(** Line boundaries of [str.splitlines()] among code points below 256. *)
Definition is_linebreak (c : ascii) : bool :=
  let n := code c in
  ((10 <=? n) && (n <=? 13) || (28 <=? n) && (n <=? 30) || (n =? 133))%N.

(** [s.splitlines()]: a CR LF pair is one boundary and a final boundary
    opens no further line.  [cur] is the line being read; [after_cr]
    tells that the previous character was a CR that closed a line. *)
Fixpoint splitlines_go (after_cr : bool) (cur : string) (s : string) : list string :=
  match s with
  | EmptyString => match cur with EmptyString => [] | _ => [cur] end
  | String c s' =>
      if after_cr && (code c =? 10)%N then splitlines_go false cur s'
      else if is_linebreak c then cur :: splitlines_go (code c =? 13)%N EmptyString s'
      else splitlines_go false (cur +:+ String c EmptyString) s'
  end.

Definition splitlines (s : string) : list string :=
  splitlines_go false EmptyString s.

(** Stable sort by a string key, as [sorted(..., key=...)]. *)
Fixpoint insert_by {A : Type} (key : A -> string) (x : A) (l : list A) : list A :=
  match l with
  | [] => [x]
  | y :: l' =>
      if String.leb (key x) (key y) then x :: y :: l'
      else y :: insert_by key x l'
  end.

Definition sorted_by {A : Type} (key : A -> string) (l : list A) : list A :=
  foldr (insert_by key) [] l.

(** *** Basic facts *)

Lemma sapp_nil_l (s : string) : EmptyString +:+ s = s.
Proof. reflexivity. Qed.

Lemma sapp_cons (c : ascii) (s t : string) : String c s +:+ t = String c (s +:+ t).
Proof. reflexivity. Qed.

Lemma sapp_nil_r (s : string) : s +:+ EmptyString = s.
Proof. induction s as [|c s IH]; [done|]. by rewrite sapp_cons, IH. Qed.

Lemma sapp_assoc (s t u : string) : (s +:+ t) +:+ u = s +:+ (t +:+ u).
Proof. induction s as [|c s IH]; [done|]. by rewrite !sapp_cons, IH. Qed.

Lemma prefix_nil (s : string) : String.prefix EmptyString s = true.
Proof. by destruct s. Qed.

Lemma contains_char_spec (c : ascii) (s : string) :
  contains_char c s = true <-> c ∈ chars s.
Proof.
  induction s as [|d s IH]; cbn.
  - split; [done|]. by intros ?%elem_of_nil.
  - rewrite orb_true_iff, IH, elem_of_cons, Ascii.eqb_eq. done.
Qed.

Lemma existsb_chars (f : ascii -> bool) (s : string) :
  existsb f (chars s) = true <-> exists c, c ∈ chars s /\ f c = true.
Proof.
  rewrite existsb_exists. split; intros (c & Hc & Hf); exists c; split; try done.
  - by apply list_elem_of_In.
  - by apply list_elem_of_In.
Qed.

(** With a one-character [old], [replace] works character by character. *)
Lemma replace_go_char (old : ascii) (new : string) (c : ascii) (s : string) :
  replace_go (String old EmptyString) new 0 (String c s) =
  if Ascii.eqb c old
  then new +:+ replace_go (String old EmptyString) new 0 s
  else String c (replace_go (String old EmptyString) new 0 s).
Proof.
  cbn [replace_go String.prefix]. rewrite prefix_nil.
  destruct (ascii_dec old c) as [<-|Hc].
  - by rewrite Ascii.eqb_refl.
  - destruct (Ascii.eqb c old) eqn:E; [|done].
    apply Ascii.eqb_eq in E. congruence.
Qed.

Lemma insert_by_elem {A : Type} (key : A -> string) (x y : A) (l : list A) :
  y ∈ insert_by key x l <-> y = x \/ y ∈ l.
Proof.
  induction l as [|z l IH]; cbn.
  - rewrite list_elem_of_singleton, elem_of_nil. tauto.
  - destruct (String.leb (key x) (key z)).
    + by rewrite elem_of_cons.
    + rewrite !elem_of_cons, IH. tauto.
Qed.

Lemma sorted_by_elem {A : Type} (key : A -> string) (y : A) (l : list A) :
  y ∈ sorted_by key l <-> y ∈ l.
Proof.
  unfold sorted_by. induction l as [|x l IH]; cbn; [done|].
  by rewrite insert_by_elem, IH, elem_of_cons.
Qed.

End PyStr.

(** ** [jfo/core/quoting.py] *)

Module Quoting.
Import PyStr.

Inductive QuoteError : Type :=
| QuoteError_of (msg : string).

(** The character class of [_CONTROL_RE]:
    [\x00-\x08], [\x0b], [\x0c], [\x0e-\x1f] and [\x7f]. *)
Definition _CONTROL_RE_class (c : ascii) : bool :=
  let n := code c in
  ((n <=? 8) || (n =? 11) || (n =? 12) || (14 <=? n) && (n <=? 31) || (n =? 127))%N.

(** [_CONTROL_RE.search(value)] as a truth value. *)
Definition _CONTROL_RE_search (value : string) : bool :=
  existsb _CONTROL_RE_class (chars value).

Definition assert_safe_text (value : string) (what : string) : result QuoteError unit :=
  if contains_char "000"%char value
  then Raise (QuoteError_of (what +:+ " contains NUL byte, refusing."))
  else if _CONTROL_RE_search value
  then Raise (QuoteError_of (what +:+ " contains control character, refusing."))
  else Ok tt.

(** The replacement text of an embedded single quote: close the quote,
    a double-quoted single quote, reopen the quote. *)
Definition squote_escape : string :=
  String squote (String dquote (String squote (String dquote (String squote EmptyString)))).

Definition bash_quote (arg : string) : result QuoteError string :=
  match assert_safe_text arg "path" with
  | Raise e => Raise e
  | Ok _ =>
      if String.eqb arg EmptyString
      then Ok (String squote (String squote EmptyString))
      else Ok (String squote EmptyString +:+ replace (String squote EmptyString) squote_escape arg
               +:+ String squote EmptyString)
  end.

Fixpoint bash_array_items (items : list string) : result QuoteError (list string) :=
  match items with
  | [] => Ok []
  | x :: items' =>
      match bash_quote x with
      | Raise e => Raise e
      | Ok q =>
          match bash_array_items items' with
          | Raise e => Raise e
          | Ok qs => Ok (q :: qs)
          end
      end
  end.

Definition bash_array_literal (items : list string) : result QuoteError string :=
  match bash_array_items items with
  | Raise e => Raise e
  | Ok qs => Ok ("(" +:+ join " " qs +:+ ")")
  end.

(** *** Properties of [bash_quote] *)

(** Every ASCII control character: 0x00-0x1F and 0x7F. *)
Definition ascii_control (c : ascii) : bool :=
  let n := code c in ((n <=? 31) || (n =? 127))%N.

Definition has_ascii_control (s : string) : bool :=
  existsb ascii_control (chars s).

(** The code points [assert_safe_text] refuses: the control characters
    other than TAB (0x09), LF (0x0A) and CR (0x0D). *)
Definition refused_code (n : N) : Prop :=
  (n <= 8 \/ n = 11 \/ n = 12 \/ (14 <= n /\ n <= 31) \/ n = 127)%N.

(** The literal the specification describes: the value between single
    quotes, each embedded single quote replaced by [squote_escape]. *)
Fixpoint escape_each (s : string) : string :=
  match s with
  | EmptyString => EmptyString
  | String c s' =>
      if Ascii.eqb c squote then squote_escape +:+ escape_each s'
      else String c (escape_each s')
  end.

Definition single_quoted (s : string) : string :=
  String squote (escape_each s +:+ String squote EmptyString).

Lemma _CONTROL_RE_class_spec (c : ascii) :
  _CONTROL_RE_class c = true <-> refused_code (code c).
Proof.
  unfold _CONTROL_RE_class, refused_code. generalize (code c). intros n.
  rewrite !orb_true_iff, !andb_true_iff, !N.leb_le, !N.eqb_eq. lia.
Qed.

Lemma class_is_control (c : ascii) :
  _CONTROL_RE_class c = true -> ascii_control c = true.
Proof.
  unfold _CONTROL_RE_class, ascii_control. generalize (code c). intros n.
  rewrite !orb_true_iff, !andb_true_iff, !N.leb_le, !N.eqb_eq. lia.
Qed.

Lemma replace_squote_escape_each (s : string) :
  replace (String squote EmptyString) squote_escape s = escape_each s.
Proof.
  unfold replace. induction s as [|c s IH]; [done|].
  rewrite replace_go_char. cbn [escape_each]. by rewrite IH.
Qed.

Lemma assert_safe_text_spec (value what : string) :
  match assert_safe_text value what with
  | Raise _ => exists c, c ∈ chars value /\ refused_code (code c)
  | Ok _ => forall c, c ∈ chars value -> ~ refused_code (code c)
  end.
Proof.
  unfold assert_safe_text.
  destruct (contains_char "000" value) eqn:Hnul.
  { apply contains_char_spec in Hnul. exists "000"%char. split; [done|].
    left. by vm_compute. }
  destruct (_CONTROL_RE_search value) eqn:Hre.
  { apply existsb_chars in Hre as (c & Hc & Hf). exists c. split; [done|].
    by apply _CONTROL_RE_class_spec. }
  intros c Hc Hr. apply _CONTROL_RE_class_spec in Hr.
  assert (_CONTROL_RE_search value = true) as Habs; [|congruence].
  apply existsb_chars. eauto.
Qed.

Lemma bash_quote_ok (s : string) :
  assert_safe_text s "path" = Ok tt -> bash_quote s = Ok (single_quoted s).
Proof.
  intros H. unfold bash_quote. rewrite H. unfold single_quoted.
  destruct s as [|c s]; [done|].
  cbn [String.eqb]. by rewrite replace_squote_escape_each.
Qed.

(** C1 (as amended): [bash_quote] raises exactly on the strings holding
    a code point in 0x00-0x08, 0x0B, 0x0C, 0x0E-0x1F or 0x7F (TAB, LF and
    CR are let through); every other string comes back between single
    quotes, each embedded single quote replaced by the close-quote,
    double-quoted quote, reopen-quote pattern, and the empty string
    encodes as two single quotes. *)
Theorem bash_quote_spec (s : string) :
  match bash_quote s with
  | Raise _ => exists c, c ∈ chars s /\ refused_code (code c)
  | Ok q => (forall c, c ∈ chars s -> ~ refused_code (code c)) /\ q = single_quoted s
  end /\
  bash_quote EmptyString = Ok (String squote (String squote EmptyString)).
Proof.
  split; [|reflexivity].
  pose proof (assert_safe_text_spec s "path") as H.
  destruct (assert_safe_text s "path") as [[]|e] eqn:E.
  - rewrite (bash_quote_ok s E). done.
  - unfold bash_quote. rewrite E. done.
Qed.

(** C1 (as stated) fails on a TAB: it is a control character of the
    range 0x00-0x1F, yet [bash_quote] quotes the string that holds it. *)
Lemma bash_quote_accepts_tab :
  ~ (raises (bash_quote (String "009" EmptyString)) <->
     has_ascii_control (String "009" EmptyString) = true).
Proof. intros [_ H]. exact (H eq_refl). Qed.

End Quoting.

(** ** The shell-token reader used to decode generated scripts

    [history.parse_ops_from_script] decodes helper calls with
    [shlex.split(line, posix=True)] of the Python standard library.  The
    reader below is that state machine ([shlex.read_token]) in POSIX mode
    with [whitespace_split] on, no comment characters and no punctuation
    characters, which is how [shlex.split] configures it. *)

Module Shlex.
Import PyStr.

(** [self.state]: [' '] between tokens, ['a'] inside a word, a quote
    character inside quotes, the escape character after a backslash (with
    [escapedstate], the state to return to: ['a'] or a quote). *)
Inductive lexstate : Type :=
| St_space
| St_word
| St_quote (q : ascii)
| St_escape (escapedstate : option ascii).

Definition backslash : ascii := "092"%char.

(** [self.whitespace = ' \t\r\n']. *)
Definition in_whitespace (c : ascii) : bool :=
  let n := code c in ((n =? 32) || (n =? 9) || (n =? 13) || (n =? 10))%N.
(** [self.quotes]: the single and the double quote. *)
Definition in_quotes (c : ascii) : bool := Ascii.eqb c squote || Ascii.eqb c dquote.
(** [self.escape = '\\']. *)
Definition in_escape (c : ascii) : bool := Ascii.eqb c backslash.
(** [self.escapedquotes]: the double quote only. *)
Definition in_escapedquotes (c : ascii) : bool := Ascii.eqb c dquote.

Definition snoc (token : string) (c : ascii) : string := token +:+ String c EmptyString.

(** What [read_token] hands out when it breaks with [token] and [quoted]:
    in POSIX mode an unquoted empty token is [None]. *)
Definition emit (token : string) (quoted : bool) (rest : list string) : list string :=
  if negb quoted && negb (truthy token) then rest else token :: rest.

(** All tokens of the input, or [None] for [ValueError] (no closing
    quotation, no escaped character).  [token] and [quoted] are the
    fields of the token being read. *)
Fixpoint lex (st : lexstate) (token : string) (quoted : bool) (input : string)
  : option (list string) :=
  match input with
  | EmptyString =>
      match st with
      | St_space | St_word => Some (emit token quoted [])
      | St_quote _ | St_escape _ => None
      end
  | String c rest =>
      match st with
      | St_space =>
          if in_whitespace c then
            if truthy token || quoted
            then cons token <$> lex St_space EmptyString false rest
            else lex St_space token quoted rest
          else if in_escape c then lex (St_escape None) token quoted rest
          else if in_quotes c then lex (St_quote c) token quoted rest
          else lex St_word (String c EmptyString) quoted rest
      | St_quote q =>
          if Ascii.eqb c q then lex St_word token true rest
          else if in_escape c && in_escapedquotes q then lex (St_escape (Some q)) token true rest
          else lex (St_quote q) (snoc token c) true rest
      | St_escape back =>
          match back with
          | Some q =>
              let token' :=
                if negb (Ascii.eqb c backslash) && negb (Ascii.eqb c q)
                then snoc token backslash else token in
              lex (St_quote q) (snoc token' c) quoted rest
          | None => lex St_word (snoc token c) quoted rest
          end
      | St_word =>
          if in_whitespace c then
            if truthy token || quoted
            then cons token <$> lex St_space EmptyString false rest
            else lex St_space token quoted rest
          else if in_quotes c then lex (St_quote c) token quoted rest
          else if in_escape c then lex (St_escape None) token quoted rest
          else lex St_word (snoc token c) quoted rest
      end
  end.

(** [shlex.split(s, posix=True)]. *)
Definition split (s : string) : option (list string) :=
  lex St_space EmptyString false s.

(** *** Decoding a quoted literal *)

Section roundtrip.
Import Quoting.

Lemma lex_squote_escape (tok rest : string) (b : bool) :
  lex (St_quote squote) tok b (squote_escape +:+ rest) =
  lex (St_quote squote) (snoc tok squote) true rest.
Proof. reflexivity. Qed.

(** Inside single quotes the reader copies the escaped value and the
    closing quote ends the token. *)
Lemma lex_escape_each (s tok : string) (b : bool) :
  lex (St_quote squote) tok b (escape_each s +:+ String squote EmptyString)
  = Some [tok +:+ s].
Proof.
  revert tok b. induction s as [|c s IH]; intros tok b.
  - cbn. by rewrite sapp_nil_r.
  - cbn [escape_each]. destruct (Ascii.eqb c squote) eqn:E.
    + apply Ascii.eqb_eq in E as ->.
      rewrite sapp_assoc, lex_squote_escape, IH.
      unfold snoc. by rewrite sapp_assoc.
    + rewrite sapp_cons. cbn [lex]. rewrite E.
      change (in_escapedquotes squote) with false.
      rewrite andb_false_r, IH. unfold snoc. by rewrite sapp_assoc.
Qed.

Lemma split_single_quoted (s : string) : split (single_quoted s) = Some [s].
Proof.
  unfold split, single_quoted. cbn [lex].
  change (in_whitespace squote) with false.
  change (in_escape squote) with false.
  change (in_quotes squote) with true. cbv iota.
  by rewrite lex_escape_each.
Qed.

Lemma no_control_safe (s what : string) :
  has_ascii_control s = false -> assert_safe_text s what = Ok tt.
Proof.
  intros H. pose proof (assert_safe_text_spec s what) as Hs.
  destruct (assert_safe_text s what) as [[]|e]; [done|].
  destruct Hs as (c & Hc & Hr). apply _CONTROL_RE_class_spec, class_is_control in Hr.
  assert (has_ascii_control s = true) as Habs; [|congruence].
  apply existsb_chars. eauto.
Qed.

(** C2: for every string without control characters, [bash_quote]
    returns a literal that the shell-token reader decodes to exactly one
    token, the string itself. *)
Theorem bash_quote_roundtrip (s : string) :
  has_ascii_control s = false ->
  exists q, bash_quote s = Ok q /\ split q = Some [s].
Proof.
  intros H. exists (single_quoted s). split.
  - apply bash_quote_ok. by apply no_control_safe.
  - apply split_single_quoted.
Qed.

Lemma bash_quote_roundtrip_witness :
  exists q, bash_quote "it's a file" = Ok q /\ split q = Some ["it's a file"].
Proof. apply (bash_quote_roundtrip "it's a file"). reflexivity. Defined.

End roundtrip.

End Shlex.


(** ** [pathlib.PurePosixPath]

    The parsed form of a POSIX path as [pathlib] keeps it: a root (empty,
    one slash, or two slashes when the text starts with exactly two) and
    the components that are neither empty nor a single dot. *)

Module PurePosixPath.
Import PyStr.

Record t : Type := mk { root : string; tail : list string }.

(** [posixpath.splitroot] without the (always empty) drive. *)
Definition splitroot (p : string) : string * string :=
  match p with
  | String "/" (String "/" (String "/" r)) => ("/", String "/" (String "/" r))
  | String "/" (String "/" r) => ("//", r)
  | String "/" r => ("/", r)
  | _ => (EmptyString, p)
  end.

Definition keep_component (x : string) : bool :=
  truthy x && negb (String.eqb x ".").

(** [PurePosixPath(path)]. *)
Definition parse (path : string) : t :=
  let '(r, rel) := splitroot path in
  mk r (List.filter keep_component (split "/" rel)).

(** [str(p)]. *)
Definition to_str (p : t) : string :=
  let s := root p +:+ join "/" (tail p) in
  if truthy s then s else ".".

(** [p.parts]. *)
Definition parts (p : t) : list string :=
  if truthy (root p) then root p :: tail p else tail p.

(** [p.parent]. *)
Definition parent (p : t) : t :=
  match tail p with
  | [] => p
  | _ => mk (root p) (removelast (tail p))
  end.

(** [p.name]. *)
Definition name (p : t) : string := List.last (tail p) EmptyString.

(** [p.suffix]: the text from the last dot of the name, when that dot is
    neither its first nor its last character. *)
Definition suffix (p : t) : string :=
  match rsplit1 "." (name p) with
  | Some (a, b) => if truthy a && truthy b then String "." b else EmptyString
  | None => EmptyString
  end.

(** [p.stem]. *)
Definition stem (p : t) : string :=
  match rsplit1 "." (name p) with
  | Some (a, b) => if truthy a && truthy b then a else name p
  | None => name p
  end.

(** [str(PurePosixPath(path))]. *)
Definition normalize (path : string) : string := to_str (parse path).

(** *** Facts about parsing and printing *)

Lemma split_not_nil (sep : ascii) (s : string) : split sep s <> [].
Proof.
  induction s as [|c s IH]; cbn; [done|].
  destruct (Ascii.eqb c sep); [done|]. by destruct (split sep s).
Qed.

Lemma split_no_sep (sep : ascii) (s : string) :
  Forall (fun x => contains_char sep x = false) (split sep s).
Proof.
  induction s as [|c s IH]; cbn.
  - by constructor.
  - destruct (Ascii.eqb c sep) eqn:E; [by constructor|].
    destruct (split sep s) as [|w ws] eqn:Es; [by apply split_not_nil in Es|].
    inversion IH as [|? ? Hw Hws]; subst. constructor; [|done].
    cbn. rewrite Hw, orb_false_r. rewrite Ascii.eqb_sym. done.
Qed.

Lemma split_whole (sep : ascii) (x : string) :
  contains_char sep x = false -> split sep x = [x].
Proof.
  induction x as [|c x IH]; cbn; [done|].
  intros [Hc Hx]%orb_false_iff. rewrite Ascii.eqb_sym, Hc. by rewrite IH.
Qed.

Lemma split_app_sep (sep : ascii) (x r : string) :
  contains_char sep x = false ->
  split sep (x +:+ String sep r) = x :: split sep r.
Proof.
  induction x as [|c x IH]; cbn.
  - intros _. rewrite sapp_nil_l. cbn. by rewrite Ascii.eqb_refl.
  - intros [Hc Hx]%orb_false_iff. rewrite sapp_cons. cbn.
    rewrite Ascii.eqb_sym, Hc. by rewrite IH.
Qed.

Lemma split_join (sep : ascii) (l : list string) :
  l <> [] -> Forall (fun x => contains_char sep x = false) l ->
  split sep (join (String sep EmptyString) l) = l.
Proof.
  induction l as [|x l IH]; [done|]. intros _ Hl.
  inversion Hl as [|? ? Hx Hl']; subst.
  destruct l as [|y l]; cbn [join].
  - by apply split_whole.
  - rewrite sapp_cons, sapp_nil_l, split_app_sep by done.
    f_equal. by apply IH.
Qed.

(** A component as [parse] keeps them. *)
Definition component (x : string) : Prop :=
  keep_component x = true /\ contains_char "/" x = false.

(** Parsed paths: one of the three roots, proper components. *)
Definition normal (p : t) : Prop :=
  (root p = EmptyString \/ root p = "/" \/ root p = "//") /\ Forall component (tail p).

Lemma splitroot_root (path : string) :
  let r := fst (splitroot path) in r = EmptyString \/ r = "/" \/ r = "//".
Proof.
  destruct path as [|c1 [|c2 [|c3 s]]]; cbn; auto;
    repeat match goal with
    | |- context [match ?c with Ascii _ _ _ _ _ _ _ _ => _ end] => destruct c
    | |- context [if ?b then _ else _] => destruct b
    end; cbn; auto.
Qed.

Lemma parse_normal (path : string) : normal (parse path).
Proof.
  unfold parse. pose proof (splitroot_root path) as Hr.
  destruct (splitroot path) as [r rel]. split; [exact Hr|]. cbn.
  apply Forall_forall. intros x [Hx Hk]%list_elem_of_In%filter_In.
  split; [done|].
  pose proof (split_no_sep "/" rel) as Hs.
  rewrite Forall_forall in Hs. by apply Hs, list_elem_of_In.
Qed.

Lemma splitroot_app (path : string) :
  path = fst (splitroot path) +:+ snd (splitroot path).
Proof.
  destruct path as [|c1 [|c2 [|c3 s]]]; cbn; auto;
    repeat match goal with
    | |- context [match ?c with Ascii _ _ _ _ _ _ _ _ => _ end] => destruct c
    | |- context [if ?b then _ else _] => destruct b
    end; reflexivity.
Qed.

Lemma splitroot_rel (c : ascii) (s : string) :
  c <> "/"%char -> splitroot (String c s) = (EmptyString, String c s).
Proof.
  intros Hc. destruct c as [[] [] [] [] [] [] [] []]; try reflexivity. done.
Qed.

Lemma splitroot_one (c : ascii) (s : string) :
  c <> "/"%char -> splitroot (String "/" (String c s)) = ("/", String c s).
Proof.
  intros Hc. destruct c as [[] [] [] [] [] [] [] []]; try reflexivity. done.
Qed.

Lemma splitroot_two (c : ascii) (s : string) :
  c <> "/"%char ->
  splitroot (String "/" (String "/" (String c s))) = ("//", String c s).
Proof.
  intros Hc. destruct c as [[] [] [] [] [] [] [] []]; try reflexivity. done.
Qed.

Lemma component_head (x : string) :
  component x -> exists c x', x = String c x' /\ c <> "/"%char.
Proof.
  intros [Hk Hs]. destruct x as [|c x']; [done|]. exists c, x'. split; [done|].
  cbn in Hs. apply orb_false_iff in Hs as [Hc _]. intros ->. done.
Qed.

Lemma join_head (x : string) (l : list string) :
  component x ->
  exists c r, join "/" (x :: l) = String c r /\ c <> "/"%char.
Proof.
  intros (c & x' & -> & Hc)%component_head.
  destruct l as [|y l]; cbn [join]; [by eauto|].
  rewrite sapp_cons. eauto.
Qed.

Lemma filter_keep_all (l : list string) :
  Forall component l -> List.filter keep_component l = l.
Proof.
  induction 1 as [|x l [Hx _] _ IH]; [done|]. cbn. by rewrite Hx, IH.
Qed.

Lemma components_no_sep (l : list string) :
  Forall component l -> Forall (fun x => contains_char "/" x = false) l.
Proof. intros H. eapply Forall_impl; [exact H|]. by intros x [_ ?]. Qed.

(** Printing a parsed path and parsing it again gives the same path. *)
Lemma parse_to_str (p : t) : normal p -> parse (to_str p) = p.
Proof.
  destruct p as [r tl]. intros [Hr Hc]. cbn in Hr, Hc.
  destruct tl as [|x tl].
  { destruct Hr as [->|[->| ->]]; reflexivity. }
  pose proof Hc as Hc0. inversion Hc as [|? ? Hx Htl]; subst.
  destruct (join_head x tl Hx) as (c & rest & Hj & Hne).
  assert (split "/" (String c rest) = x :: tl) as Hsplit.
  { rewrite <- Hj. apply (split_join "/"); [done|]. by apply components_no_sep. }
  unfold to_str, parse. cbn [root tail]. rewrite Hj.
  destruct Hr as [->|[->| ->]].
  - rewrite sapp_nil_l. cbn [truthy]. rewrite splitroot_rel by done.
    by rewrite Hsplit, filter_keep_all.
  - rewrite sapp_cons, sapp_nil_l. cbn [truthy]. rewrite splitroot_one by done.
    by rewrite Hsplit, filter_keep_all.
  - rewrite !sapp_cons, sapp_nil_l. cbn [truthy]. rewrite splitroot_two by done.
    by rewrite Hsplit, filter_keep_all.
Qed.

Lemma startswith_slash (s : string) :
  startswith s "/" = match s with
                     | String c _ => Ascii.eqb c "/"
                     | EmptyString => false
                     end.
Proof.
  destruct s as [|c s]; [done|]. unfold startswith. cbn [String.prefix].
  rewrite prefix_nil. destruct (ascii_dec "/" c) as [<-|Hc]; [done|].
  symmetry. apply Ascii.eqb_neq. congruence.
Qed.

(** A printed path starts with a slash exactly when it has a root. *)
Lemma to_str_startswith (p : t) :
  normal p -> startswith (to_str p) "/" = truthy (root p).
Proof.
  destruct p as [r tl]. intros [Hr Hc]. cbn in Hr, Hc. unfold to_str. cbn [root tail].
  destruct Hr as [->|[->| ->]].
  - rewrite sapp_nil_l. destruct tl as [|x tl]; [done|].
    inversion Hc as [|? ? Hx Htl]; subst.
    destruct (join_head x tl Hx) as (c & rest & -> & Hne).
    cbn [truthy]. rewrite startswith_slash. by apply Ascii.eqb_neq.
  - rewrite sapp_cons. cbn [truthy]. by rewrite startswith_slash.
  - rewrite sapp_cons. cbn [truthy]. by rewrite startswith_slash.
Qed.

Lemma root_parse (path : string) :
  truthy (root (parse path)) = startswith path "/".
Proof.
  rewrite startswith_slash. unfold parse.
  destruct path as [|c s]; [done|].
  destruct (Ascii.eqb c "/") eqn:E.
  - apply Ascii.eqb_eq in E as ->.
    destruct s as [|c2 [|c3 s]]; cbn; auto;
    repeat match goal with
    | |- context [match ?c with Ascii _ _ _ _ _ _ _ _ => _ end] => destruct c
    | |- context [if ?b then _ else _] => destruct b
    end; reflexivity.
  - apply Ascii.eqb_neq in E. by rewrite splitroot_rel.
Qed.

Lemma dotdot_split_slash (s : string) :
  ".." ∈ split "/" (String "/" s) <-> ".." ∈ split "/" s.
Proof.
  cbn. rewrite elem_of_cons. split; [|by right].
  by intros [?|?].
Qed.

(** A [..] component survives parsing: it is a component of the parsed
    path exactly when it stands between slashes in the text. *)
Lemma dotdot_tail (path : string) :
  ".." ∈ tail (parse path) <-> ".." ∈ split "/" path.
Proof.
  unfold parse. pose proof (splitroot_app path) as Happ.
  pose proof (splitroot_root path) as Hr.
  destruct (splitroot path) as [r rel]. cbn in *.
  rewrite list_elem_of_In, filter_In, <- list_elem_of_In.
  assert (".." ∈ split "/" rel <-> ".." ∈ split "/" path) as <-.
  { rewrite Happ. destruct Hr as [->|[->| ->]]; [done|..].
    - rewrite sapp_cons, sapp_nil_l. by rewrite dotdot_split_slash.
    - rewrite !sapp_cons, sapp_nil_l. by rewrite !dotdot_split_slash. }
  split; [by intros [? _]|]. intros H. split; [done|reflexivity].
Qed.

Lemma dotdot_parts (p : t) :
  normal p -> (".." ∈ parts p <-> ".." ∈ tail p).
Proof.
  intros [Hr _]. unfold parts. destruct (truthy (root p)); [|done].
  rewrite elem_of_cons. split; [|by right].
  intros [Heq|?]; [|done]. rewrite <- Heq in Hr. by destruct Hr as [?|[?|?]].
Qed.

End PurePosixPath.

(** ** [jfo/core/validators.py] *)

Module Validators.
Import PyStr.

Inductive SandboxViolation : Type :=
| SandboxViolation_of (msg : string).

Record Sandbox : Type := { allowed_roots : list string }.

(** [Sandbox.normalized_roots]. *)
Fixpoint normalized_roots_of (rs : list string) : list string :=
  match rs with
  | [] => []
  | r :: rs' =>
      if negb (truthy r) then normalized_roots_of rs'
      else
        let rp := PurePosixPath.normalize r in
        if negb (startswith rp "/") then normalized_roots_of rs'
        else
          let rp := if negb (endswith rp "/") then rp +:+ "/" else rp in
          rp :: normalized_roots_of rs'
  end.

Definition normalized_roots (self : Sandbox) : list string :=
  normalized_roots_of (allowed_roots self).

(** [Sandbox.assert_path_allowed]. *)
Definition assert_path_allowed (self : Sandbox) (path : string)
  : result SandboxViolation unit :=
  let p := PurePosixPath.normalize path in
  if negb (startswith p "/")
  then Raise (SandboxViolation_of ("Remote path must be absolute: " +:+ path))
  else
    let parts := PurePosixPath.parts (PurePosixPath.parse p) in
    if existsb (String.eqb "..") parts
    then Raise (SandboxViolation_of ("Remote path contains '..' traversal: " +:+ path))
    else
      let roots := normalized_roots self in
      match roots with
      | [] => Raise (SandboxViolation_of
                "No allowed roots configured. Set at least one root in Main tab (Root-Sandbox).")
      | _ =>
          if existsb (fun root => startswith p root) roots
          then Ok tt
          else Raise (SandboxViolation_of ("Path is outside allowed roots: " +:+ path))
      end.

(** [Sandbox.assert_all]: the first refusal is raised. *)
Fixpoint assert_all (self : Sandbox) (paths : list string) : result SandboxViolation unit :=
  match paths with
  | [] => Ok tt
  | p :: paths' =>
      match assert_path_allowed self p with
      | Raise e => Raise e
      | Ok _ => assert_all self paths'
      end
  end.

(** *** Properties of the sandbox *)

(** [root] is the absolute, trailing-slash-terminated form of the
    allowed root [r]: [r] is absolute, and [root] ends with a slash and
    is the normal form of [r], with a slash put behind it when that
    normal form has none at its end. *)
Definition root_form (r root : string) : Prop :=
  startswith r "/" = true /\ endswith root "/" = true /\
  (root = PurePosixPath.normalize r \/
   (root = PurePosixPath.normalize r +:+ "/" /\
    endswith (PurePosixPath.normalize r) "/" = false)).

Lemma length_sapp (s t : string) :
  String.length (s +:+ t) = String.length s + String.length t.
Proof. induction s as [|c s IH]; [done|]. rewrite sapp_cons. cbn. by rewrite IH. Qed.

Lemma drop_sapp (s t : string) : drop (String.length s) (s +:+ t) = t.
Proof. induction s as [|c s IH]; [done|]. rewrite sapp_cons. exact IH. Qed.

Lemma endswith_app_slash (s : string) : endswith (s +:+ "/") "/" = true.
Proof.
  unfold endswith. rewrite length_sapp. cbn [String.length].
  replace (String.length s + 1 - 1) with (String.length s) by lia.
  rewrite drop_sapp. apply andb_true_iff. split; [|done].
  apply Nat.leb_le. lia.
Qed.

Lemma startswith_app (s t p : string) :
  startswith s p = true -> startswith (s +:+ t) p = true.
Proof.
  unfold startswith. revert s. induction p as [|a p IH]; intros s.
  - intros _. apply prefix_nil.
  - destruct s as [|c s]; [done|]. rewrite sapp_cons. cbn [String.prefix].
    destruct (ascii_dec a c); [apply IH|done].
Qed.

(** Every normalized root is absolute and ends with a slash. *)
Lemma normalized_roots_form (self : Sandbox) (root : string) :
  root ∈ normalized_roots self ->
  startswith root "/" = true /\ endswith root "/" = true.
Proof.
  unfold normalized_roots. induction (allowed_roots self) as [|r rs IH]; cbn.
  { by intros ?%elem_of_nil. }
  destruct (truthy r); cbn; [|done].
  destruct (startswith (PurePosixPath.normalize r) "/") eqn:Hs; cbn; [|done].
  intros [->|Hin]%elem_of_cons; [|by apply IH].
  destruct (endswith (PurePosixPath.normalize r) "/") eqn:He; cbn.
  - done.
  - split; [by apply startswith_app|apply endswith_app_slash].
Qed.

Lemma normalize_absolute (r : string) :
  startswith (PurePosixPath.normalize r) "/" = startswith r "/".
Proof.
  unfold PurePosixPath.normalize.
  rewrite PurePosixPath.to_str_startswith by apply PurePosixPath.parse_normal.
  apply PurePosixPath.root_parse.
Qed.

Lemma root_form_code (r root : string) :
  root_form r root <->
  startswith r "/" = true /\
  root = (if negb (endswith (PurePosixPath.normalize r) "/")
          then PurePosixPath.normalize r +:+ "/" else PurePosixPath.normalize r).
Proof.
  unfold root_form. destruct (endswith (PurePosixPath.normalize r) "/") eqn:He; cbn [negb].
  - split.
    + intros (Hr & _ & [->|[_ ?]]); done.
    + intros [Hr ->]. split; [done|]. split; [done|by left].
  - split.
    + intros (Hr & Hroot & [->|[-> _]]); [congruence|done].
    + intros [Hr ->]. split; [done|]. split; [apply endswith_app_slash|by right].
Qed.

(** The normalized roots are the forms of the absolute allowed roots. *)
Lemma normalized_roots_elem (self : Sandbox) (root : string) :
  root ∈ normalized_roots self <->
  exists r, r ∈ allowed_roots self /\ root_form r root.
Proof.
  unfold normalized_roots. induction (allowed_roots self) as [|r0 rs IH];
    cbn [normalized_roots_of].
  { split; [by intros ?%elem_of_nil|]. by intros (r & ?%elem_of_nil & _). }
  assert ((exists r, r ∈ r0 :: rs /\ root_form r root) <->
          root_form r0 root \/ root ∈ normalized_roots_of rs) as ->.
  { rewrite IH. split.
    - intros (r & [->|Hr]%elem_of_cons & Hf); [by left|]. right. by exists r.
    - intros [Hf|(r & Hr & Hf)]; [exists r0|exists r];
        (split; [|done]); apply elem_of_cons; [by left|by right]. }
  rewrite root_form_code. rewrite normalize_absolute.
  destruct (truthy r0) eqn:Ht; cbn [negb].
  - destruct (startswith r0 "/") eqn:Hs; cbn [negb].
    + rewrite elem_of_cons. split; [intros [->|?]; [by left|by right]|].
      intros [[_ ->]|?]; [by left|by right].
    + split; [by right|]. by intros [[? _]|?].
  - destruct r0; [|done]. split; [by right|]. by intros [[? _]|?].
Qed.

Lemma existsb_eqb_elem (x : string) (l : list string) :
  existsb (String.eqb x) l = true <-> x ∈ l.
Proof.
  rewrite existsb_exists. split.
  - intros (y & Hy & ->%String.eqb_eq). by apply list_elem_of_In.
  - intros Hx. exists x. split; [by apply list_elem_of_In|apply String.eqb_refl].
Qed.

Lemma existsb_elem {A : Type} (f : A -> bool) (l : list A) :
  existsb f l = true <-> exists x, x ∈ l /\ f x = true.
Proof.
  rewrite existsb_exists. split; intros (x & Hx & Hf); exists x;
    (split; [by apply list_elem_of_In|done]).
Qed.

(** C5: a path is accepted exactly when it is absolute, has no [..]
    component and its normalized form starts with one of the normalized
    roots; the normalized roots are exactly the forms of the absolute
    allowed roots of the sandbox, each the normal form of its root with
    a slash at the end, and empty or relative roots give none; each
    normalized root is absolute and ends with a slash; and
    [/volume1/media/../etc/passwd] is refused under every configuration
    of roots. *)
Theorem assert_path_allowed_spec (self : Sandbox) (path : string) :
  (assert_path_allowed self path = Ok tt <->
     startswith path "/" = true /\
     (".." ∉ split "/" path) /\
     exists root, root ∈ normalized_roots self /\
                  startswith (PurePosixPath.normalize path) root = true) /\
  (forall root, root ∈ normalized_roots self <->
     exists r, r ∈ allowed_roots self /\ root_form r root) /\
  (assert_path_allowed self path = Ok tt <->
     startswith path "/" = true /\
     (".." ∉ split "/" path) /\
     exists r root, r ∈ allowed_roots self /\ root_form r root /\
                    startswith (PurePosixPath.normalize path) root = true) /\
  (forall root, root ∈ normalized_roots self ->
     startswith root "/" = true /\ endswith root "/" = true) /\
  raises (assert_path_allowed self "/volume1/media/../etc/passwd").
Proof.
  assert (assert_path_allowed self path = Ok tt <->
     startswith path "/" = true /\
     (".." ∉ split "/" path) /\
     exists root, root ∈ normalized_roots self /\
                  startswith (PurePosixPath.normalize path) root = true) as Hmain;
    [|split; [exact Hmain|]; split; [apply normalized_roots_elem|];
      split; [|split; [apply normalized_roots_form|]]].
  2: { rewrite Hmain. split.
       - intros (Ha & Hd & root & (r & Hr & Hf)%normalized_roots_elem & Hs).
         split; [done|]. split; [done|]. by exists r, root.
       - intros (Ha & Hd & r & root & Hr & Hf & Hs).
         split; [done|]. split; [done|]. exists root. split; [|done].
         apply normalized_roots_elem. by exists r. }
  - unfold assert_path_allowed, PurePosixPath.normalize.
    pose proof (PurePosixPath.parse_normal path) as Hn.
    rewrite PurePosixPath.parse_to_str by done.
    rewrite PurePosixPath.to_str_startswith, PurePosixPath.root_parse by done.
    destruct (startswith path "/") eqn:Habs; cbn [negb];
      [|split; [done|by intros [? _]]].
    destruct (existsb (String.eqb "..") (PurePosixPath.parts (PurePosixPath.parse path)))
      eqn:Hdd.
    { apply existsb_eqb_elem, PurePosixPath.dotdot_parts, PurePosixPath.dotdot_tail in Hdd;
        [|done]. split; [done|]. by intros (_ & Hno & _). }
    assert (".." ∉ split "/" path) as Hnodd.
    { intros Hin. apply PurePosixPath.dotdot_tail in Hin.
      apply (PurePosixPath.dotdot_parts _ Hn), existsb_eqb_elem in Hin. congruence. }
    destruct (normalized_roots self) as [|r0 rs] eqn:Hroots.
    { split; [done|]. intros (_ & _ & root & Hin & _). by apply elem_of_nil in Hin. }
    destruct (existsb _ (r0 :: rs)) eqn:Hex.
    + apply existsb_elem in Hex. split; [by intros _|done].
    + split; [done|]. intros (_ & _ & Hroot).
      apply existsb_elem in Hroot.
      pose proof (eq_trans (eq_sym Hroot) Hex). done.
  - unfold assert_path_allowed. cbn. done.
Qed.


Lemma assert_path_allowed_spec_witness :
  assert_path_allowed (Build_Sandbox ["/volume1/media/"]) "/volume1/media/Movies/X.mkv"
  = Ok tt.
Proof.
  apply (proj1 (assert_path_allowed_spec (Build_Sandbox ["/volume1/media/"])
                  "/volume1/media/Movies/X.mkv")).
  split; [reflexivity|]. split.
  - intros H. apply existsb_eqb_elem in H. vm_compute in H. discriminate H.
  - exists "/volume1/media/". split; [left|reflexivity].
Defined.

End Validators.

(** ** Insertion-ordered dictionaries of lists

    Both [detect_destination_collisions] and [group_media_files] fill a
    [dict] of lists with [setdefault(k, []).append(v)] and then walk its
    items; the order of the keys is the order of their first insertion. *)

Module OrderedDict.

(** [d.setdefault(k, []).append(v)] on an insertion-ordered dictionary. *)
Fixpoint setdefault_append {V : Type} (k : string) (v : V)
    (d : list (string * list V)) : list (string * list V) :=
  match d with
  | [] => [(k, [v])]
  | (k', vs) :: d' =>
      if String.eqb k' k then (k', vs ++ [v]) :: d'
      else (k', vs) :: setdefault_append k v d'
  end.

(** The entry of key [k] in an insertion-ordered dictionary, empty when
    the key is absent. *)
Fixpoint group {V : Type} (k : string) (d : list (string * list V)) : list V :=
  match d with
  | [] => []
  | (k', vs) :: d' => if String.eqb k' k then vs else group k d'
  end.

Lemma group_setdefault_same {V : Type} (k : string) (v : V) (d : list (string * list V)) :
  group k (setdefault_append k v d) = group k d ++ [v].
Proof.
  induction d as [|[k' vs] d IH]; cbn.
  - by rewrite String.eqb_refl.
  - destruct (String.eqb k' k) eqn:E; cbn; by rewrite E.
Qed.

Lemma group_setdefault_other {V : Type} (k k' : string) (v : V)
    (d : list (string * list V)) :
  k <> k' -> group k (setdefault_append k' v d) = group k d.
Proof.
  intros Hne. induction d as [|[k0 vs] d IH]; cbn.
  - destruct (String.eqb k' k) eqn:E; [|done].
    apply String.eqb_eq in E. congruence.
  - destruct (String.eqb k0 k') eqn:E; cbn; [|by rewrite IH].
    apply String.eqb_eq in E as ->.
    destruct (String.eqb k' k) eqn:E'; [|done].
    apply String.eqb_eq in E'. congruence.
Qed.

Lemma group_elem {V : Type} (k : string) (d : list (string * list V)) :
  group k d <> [] -> (k, group k d) ∈ d.
Proof.
  induction d as [|[k' vs] d IH]; cbn; [done|].
  destruct (String.eqb k' k) eqn:E.
  - apply String.eqb_eq in E as ->. intros _. apply elem_of_cons. by left.
  - intros H. apply elem_of_cons. right. by apply IH.
Qed.

Lemma keys_setdefault_append {V : Type} (k : string) (v : V)
    (d : list (string * list V)) :
  List.map fst (setdefault_append k v d) =
  if existsb (String.eqb k) (List.map fst d) then List.map fst d
  else List.map fst d ++ [k].
Proof.
  induction d as [|[k' vs] d IH]; cbn; [done|].
  rewrite (String.eqb_sym k k').
  destruct (String.eqb k' k) eqn:E; cbn; [done|].
  rewrite IH. by destruct (existsb _ _).
Qed.

Lemma keys_setdefault_NoDup {V : Type} (k : string) (v : V)
    (d : list (string * list V)) :
  NoDup (List.map fst d) -> NoDup (List.map fst (setdefault_append k v d)).
Proof.
  intros Hd. rewrite keys_setdefault_append.
  destruct (existsb _ _) eqn:E; [done|].
  apply NoDup_app. split; [done|]. split; [|apply NoDup_singleton].
  intros x Hx ->%list_elem_of_singleton.
  assert (existsb (String.eqb k) (List.map fst d) = true) as Habs; [|congruence].
  apply existsb_exists. exists k. split; [by apply list_elem_of_In|].
  apply String.eqb_refl.
Qed.

(** With distinct keys an item of the dictionary is the entry of its key. *)
Lemma group_item {V : Type} (k : string) (vs : list V) (d : list (string * list V)) :
  NoDup (List.map fst d) -> (k, vs) ∈ d -> group k d = vs.
Proof.
  induction d as [|[k' vs'] d IH]; cbn.
  { intros _ H. by apply elem_of_nil in H. }
  intros [Hk Hd]%NoDup_cons [[= <- <-]|Hin]%elem_of_cons.
  - by rewrite String.eqb_refl.
  - destruct (String.eqb k' k) eqn:E; [|by apply IH].
    apply String.eqb_eq in E as ->. exfalso. apply Hk.
    apply list_elem_of_fmap. by exists (k, vs).
Qed.

End OrderedDict.

(** ** [jfo/core/operations.py] *)

Module Operations.
Import PyStr.

Inductive OperationKind : Type := MKDIR | MOVE | RENAME | LINK | COPY.

(** [kind.value]. *)
Definition kind_value (k : OperationKind) : string :=
  match k with
  | MKDIR => "mkdir"
  | MOVE => "mv"
  | RENAME => "rename"
  | LINK => "ln"
  | COPY => "cp"
  end.

(** [OperationKind(s)]: [None] stands for the [ValueError] of an unknown
    value. *)
Definition kind_of_value (s : string) : option OperationKind :=
  if String.eqb s "mkdir" then Some MKDIR
  else if String.eqb s "mv" then Some MOVE
  else if String.eqb s "rename" then Some RENAME
  else if String.eqb s "ln" then Some LINK
  else if String.eqb s "cp" then Some COPY
  else None.

Definition is_move_or_rename (k : OperationKind) : bool :=
  match k with MOVE | RENAME => true | _ => false end.

Record Operation : Type := mkOperation {
  kind : OperationKind;
  src : option string;
  dst : option string;
  detail : string;
  selected : bool;
  warning : string;
  op_id : string
}.

(** [Operation(kind=..., src=..., dst=..., ...)] with the defaults of the
    dataclass for the fields left out. *)
Definition new_operation (k : OperationKind) (s d : option string)
    (det : string) (sel : bool) (w : string) : Operation :=
  mkOperation k s d det sel w EmptyString.

Definition set_warning (w : string) (op : Operation) : Operation :=
  mkOperation (kind op) (src op) (dst op) (detail op) (selected op) w (op_id op).

Definition display_src (op : Operation) : string := or_empty (src op).
Definition display_dst (op : Operation) : string := or_empty (dst op).

End Operations.

(** ** [jfo/core/plan.py]

    [Operation] objects are mutable and shared, so a plan holds
    references into a store of operations; [apply_collision_warnings]
    writes to the store. *)

Module PlanModel.
Import PyStr Operations OrderedDict.

Abbreviation ref := nat (only parsing).
Abbreviation store := (list Operation) (only parsing).

Record Plan : Type := mkPlan {
  title : string;
  operations : list ref;
  warnings : list string
}.

(** [Plan(title=title)]. *)
Definition new_plan (t : string) : Plan := mkPlan t [] [].

Definition is_selected (h : store) (r : ref) : bool :=
  match h !! r with Some op => selected op | None => false end.

(** [Plan.selected_operations]. *)
Definition selected_operations (h : store) (self : Plan) : list ref :=
  List.filter (is_selected h) (operations self).

(** [Plan.count_selected]. *)
Definition count_selected (h : store) (self : Plan) : nat :=
  length (List.filter (is_selected h) (operations self)).

(** One turn of the loop of [detect_destination_collisions]. *)
Definition by_dst_step (h : store) (by_dst : list (string * list ref)) (r : ref)
  : list (string * list ref) :=
  match h !! r with
  | Some op =>
      match dst op with
      | Some d => if truthy d then setdefault_append d r by_dst else by_dst
      | None => by_dst
      end
  | None => by_dst
  end.

(** [Plan.detect_destination_collisions]. *)
Definition detect_destination_collisions (h : store) (self : Plan)
  : list (string * list ref) :=
  let by_dst := fold_left (by_dst_step h) (selected_operations h self) [] in
  List.filter (fun '(_, ops) => 1 <? length ops) by_dst.

Definition collision_message (d : string) : string :=
  "Collision: multiple ops target " +:+ d.

Definition collision_warning (d : string) (op : Operation) : string :=
  (if truthy (warning op) then warning op +:+ "; " else EmptyString)
  +:+ collision_message d.

(** [op.warning = ...] for the object behind [r]. *)
Definition annotate (d : string) (h : store) (r : ref) : store :=
  match h !! r with
  | Some op => <[r := set_warning (collision_warning d op) op]> h
  | None => h
  end.

Definition string_of_nat (n : nat) : string :=
  NilEmpty.string_of_uint (Nat.to_uint n).

Definition collision_summary (n : nat) : string :=
  string_of_nat n +:+ " destination collision(s) detected inside the plan.".

(** [Plan.apply_collision_warnings]: the store and the plan afterwards. *)
Definition apply_collision_warnings (h : store) (self : Plan) : store * Plan :=
  let collisions := detect_destination_collisions h self in
  let h' := fold_left (fun h0 '(d, ops) => fold_left (annotate d) ops h0) collisions h in
  let self' :=
    match collisions with
    | [] => self
    | _ => mkPlan (title self) (operations self)
             (warnings self ++ [collision_summary (length collisions)])
    end in
  (h', self').

(** [Plan.add_warning]. *)
Definition add_warning (self : Plan) (msg : string) : Plan :=
  if existsb (String.eqb msg) (warnings self) then self
  else mkPlan (title self) (operations self) (warnings self ++ [msg]).

(** [Plan.extend]. *)
Definition extend (self : Plan) (ops : list ref) : Plan :=
  mkPlan (title self) (operations self ++ ops) (warnings self).

(** The operations of a plan, read from the store. *)
Definition plan_operations (h : store) (self : Plan) : list Operation :=
  omap (fun r => h !! r) (operations self).


(** *** Properties of collision detection *)

(** The operation behind [r] has the non-empty destination [k]. *)
Definition targets (h : store) (k : string) (r : ref) : bool :=
  match h !! r with
  | Some op =>
      match dst op with
      | Some d => truthy d && String.eqb d k
      | None => false
      end
  | None => false
  end.

Lemma group_by_dst_step (h : store) (k : string) (r : ref) (d : list (string * list ref)) :
  group k (by_dst_step h d r) = group k d ++ (if targets h k r then [r] else []).
Proof.
  unfold by_dst_step, targets. destruct (h !! r) as [op|]; [|by rewrite app_nil_r].
  destruct (dst op) as [d'|]; [|by rewrite app_nil_r].
  destruct (truthy d'); cbn [andb]; [|by rewrite app_nil_r].
  destruct (String.eqb d' k) eqn:E.
  - apply String.eqb_eq in E as ->. apply group_setdefault_same.
  - rewrite app_nil_r. apply group_setdefault_other.
    intros ->. by rewrite String.eqb_refl in E.
Qed.

Lemma group_by_dst (h : store) (k : string) (rs : list ref) (d : list (string * list ref)) :
  group k (fold_left (by_dst_step h) rs d) = group k d ++ List.filter (targets h k) rs.
Proof.
  revert d. induction rs as [|r rs IH]; intros d; cbn.
  - by rewrite app_nil_r.
  - rewrite IH, group_by_dst_step, <- app_assoc. by destruct (targets h k r).
Qed.

(** Two hits at different positions leave at least two elements. *)
Lemma filter_two {A : Type} (f : A -> bool) (l : list A) (i j : nat) (x y : A) :
  i <> j -> l !! i = Some x -> l !! j = Some y -> f x = true -> f y = true ->
  2 <= length (List.filter f l).
Proof.
  assert (forall (l : list A) n z, l !! n = Some z -> f z = true ->
            1 <= length (List.filter f l)) as Hone.
  { clear. intros l. induction l as [|a l IH]; intros [|n] z Hz Hf; cbn in *; try done.
    - injection Hz as ->. rewrite Hf. cbn. lia.
    - specialize (IH _ _ Hz Hf). destruct (f a); cbn; lia. }
  revert i j. induction l as [|a l IH]; intros i j Hij Hi Hj Hx Hy; [done|].
  destruct i as [|i], j as [|j]; cbn in *; try done.
  - injection Hi as ->. rewrite Hx. cbn. specialize (Hone _ _ _ Hj Hy). lia.
  - injection Hj as ->. rewrite Hy. cbn. specialize (Hone _ _ _ Hi Hx). lia.
  - assert (i <> j) as Hij' by lia. specialize (IH _ _ Hij' Hi Hj Hx Hy).
    destruct (f a); cbn; lia.
Qed.

Lemma filter_lookup {A : Type} (f : A -> bool) (l : list A) (i : nat) (x : A) :
  l !! i = Some x -> f x = true -> x ∈ List.filter f l.
Proof.
  intros Hi Hf. apply list_elem_of_In, filter_In. split; [|done].
  apply list_elem_of_In. by apply list_elem_of_lookup_2 in Hi.
Qed.

Lemma filter_filter_two {A : Type} (f g : A -> bool) (l : list A) (i j : nat) (x y : A) :
  i <> j -> l !! i = Some x -> l !! j = Some y ->
  f x = true -> f y = true -> g x = true -> g y = true ->
  2 <= length (List.filter g (List.filter f l)).
Proof.
  intros Hij Hi Hj Hfx Hfy Hgx Hgy.
  assert (List.filter g (List.filter f l) = List.filter (fun a => f a && g a) l) as ->.
  { clear. induction l as [|a l IH]; [done|]. cbn. destruct (f a); cbn; [|done].
    destruct (g a); by rewrite IH. }
  apply (filter_two _ l i j x y); try done.
  - by rewrite Hfx, Hgx.
  - by rewrite Hfy, Hgy.
Qed.

(** The operation behind [r] exists and carries a warning. *)
Definition warned (h : store) (r : ref) : Prop :=
  exists op, h !! r = Some op /\ warning op <> EmptyString.

Lemma sapp_not_nil_r (s t : string) : t <> EmptyString -> s +:+ t <> EmptyString.
Proof. intros Ht. destruct s; [done|]. by rewrite sapp_cons. Qed.

Lemma collision_warning_not_nil (d : string) (op : Operation) :
  collision_warning d op <> EmptyString.
Proof. unfold collision_warning. by apply sapp_not_nil_r. Qed.

Lemma annotate_is_Some (d : string) (h : store) (r r0 : ref) :
  is_Some (h !! r) -> is_Some (annotate d h r0 !! r).
Proof.
  intros Hr. unfold annotate. destruct (h !! r0) as [op|] eqn:E; [|done].
  destruct (decide (r0 = r)) as [->|Hne].
  - rewrite list_lookup_insert_eq; [by eexists|]. by apply lookup_lt_Some in E.
  - by rewrite list_lookup_insert_ne.
Qed.

Lemma annotate_warned (d : string) (h : store) (r r0 : ref) :
  warned h r -> warned (annotate d h r0) r.
Proof.
  intros (op & Hr & Hw). unfold annotate. destruct (h !! r0) as [op0|] eqn:E.
  - destruct (decide (r0 = r)) as [->|Hne].
    + eexists. rewrite list_lookup_insert_eq; [|by apply lookup_lt_Some in E].
      split; [done|]. cbn. apply collision_warning_not_nil.
    + exists op. by rewrite list_lookup_insert_ne.
  - by exists op.
Qed.

Lemma annotate_warns (d : string) (h : store) (r : ref) :
  is_Some (h !! r) -> warned (annotate d h r) r.
Proof.
  intros [op Hr]. unfold annotate. rewrite Hr. eexists.
  rewrite list_lookup_insert_eq; [|by apply lookup_lt_Some in Hr].
  split; [done|]. cbn. apply collision_warning_not_nil.
Qed.

Lemma annotate_fold_is_Some (d : string) (ops : list ref) (h : store) (r : ref) :
  is_Some (h !! r) -> is_Some (fold_left (annotate d) ops h !! r).
Proof.
  revert h. induction ops as [|r0 ops IH]; intros h Hr; [done|].
  cbn. by apply IH, annotate_is_Some.
Qed.

Lemma annotate_fold_warned (d : string) (ops : list ref) (h : store) (r : ref) :
  warned h r -> warned (fold_left (annotate d) ops h) r.
Proof.
  revert h. induction ops as [|r0 ops IH]; intros h Hr; [done|].
  cbn. by apply IH, annotate_warned.
Qed.

Lemma annotate_fold_warns (d : string) (ops : list ref) (h : store) (r : ref) :
  r ∈ ops -> is_Some (h !! r) -> warned (fold_left (annotate d) ops h) r.
Proof.
  revert h. induction ops as [|r0 ops IH]; intros h Hin Hr.
  { by apply elem_of_nil in Hin. }
  cbn. apply elem_of_cons in Hin as [->|Hin].
  - by apply annotate_fold_warned, annotate_warns.
  - by apply IH, annotate_is_Some.
Qed.

Definition annotate_all (h : store) (collisions : list (string * list ref)) : store :=
  fold_left (fun h0 '(d, ops) => fold_left (annotate d) ops h0) collisions h.

Lemma annotate_all_is_Some (cs : list (string * list ref)) (h : store) (r : ref) :
  is_Some (h !! r) -> is_Some (annotate_all h cs !! r).
Proof.
  revert h. induction cs as [|[d ops] cs IH]; intros h Hr; [done|].
  cbn. by apply IH, annotate_fold_is_Some.
Qed.

Lemma annotate_all_warned (cs : list (string * list ref)) (h : store) (r : ref) :
  warned h r -> warned (annotate_all h cs) r.
Proof.
  revert h. induction cs as [|[d ops] cs IH]; intros h Hr; [done|].
  cbn. by apply IH, annotate_fold_warned.
Qed.

Lemma annotate_all_warns (cs : list (string * list ref)) (h : store)
    (d : string) (ops : list ref) (r : ref) :
  (d, ops) ∈ cs -> r ∈ ops -> is_Some (h !! r) -> warned (annotate_all h cs) r.
Proof.
  revert h. induction cs as [|[d0 ops0] cs IH]; intros h Hin Hr Hs.
  { by apply elem_of_nil in Hin. }
  cbn. apply elem_of_cons in Hin as [[= <- <-]|Hin].
  - by apply annotate_all_warned, annotate_fold_warns.
  - by apply IH, annotate_fold_is_Some.
Qed.

(** Two selected operations at different positions of the plan with the
    same non-empty destination make a collision group that holds both. *)
Lemma collision_detected (h : store) (self : Plan) (i j : nat) (r r' : ref)
    (op op' : Operation) (d : string) :
  i <> j ->
  operations self !! i = Some r -> operations self !! j = Some r' ->
  h !! r = Some op -> h !! r' = Some op' ->
  selected op = true -> selected op' = true ->
  dst op = Some d -> dst op' = Some d -> d <> EmptyString ->
  exists ops, (d, ops) ∈ detect_destination_collisions h self /\ r ∈ ops.
Proof.
  intros Hij Hi Hj Hr Hr' Hs Hs' Hd Hd' Hne.
  assert (truthy d = true) as Ht by (by destruct d).
  assert (is_selected h r = true) as Hsel by (unfold is_selected; by rewrite Hr).
  assert (is_selected h r' = true) as Hsel' by (unfold is_selected; by rewrite Hr').
  assert (targets h d r = true) as Ht1.
  { unfold targets. by rewrite Hr, Hd, Ht, String.eqb_refl. }
  assert (targets h d r' = true) as Ht2.
  { unfold targets. by rewrite Hr', Hd', Ht, String.eqb_refl. }
  unfold detect_destination_collisions, selected_operations.
  set (by_dst := fold_left _ _ _).
  assert (group d by_dst =
          List.filter (targets h d) (List.filter (is_selected h) (operations self))) as Hg.
  { unfold by_dst. by rewrite group_by_dst. }
  assert (2 <= length (group d by_dst)) as Hlen.
  { rewrite Hg. by apply (filter_filter_two _ _ _ i j r r'). }
  exists (group d by_dst). split.
  - apply list_elem_of_In, filter_In. split.
    + apply list_elem_of_In, group_elem. intros E. rewrite E in Hlen. cbn in Hlen. lia.
    + apply Nat.ltb_lt. lia.
  - rewrite Hg. apply list_elem_of_In, filter_In. split; [|done].
    apply filter_In. split; [|done].
    apply list_elem_of_In. by apply list_elem_of_lookup_2 in Hi.
Qed.

(** What collision detection reads of the store. *)
Definition same_targets (h h' : store) : Prop :=
  forall r, (fun op => (selected op, dst op)) <$> h !! r =
            (fun op => (selected op, dst op)) <$> h' !! r.

Lemma same_targets_trans (h1 h2 h3 : store) :
  same_targets h1 h2 -> same_targets h2 h3 -> same_targets h1 h3.
Proof. intros H12 H23 r. by rewrite H12. Qed.

Lemma annotate_same_targets (d : string) (h : store) (r0 : ref) :
  same_targets h (annotate d h r0).
Proof.
  intros r. unfold annotate. destruct (h !! r0) as [op0|] eqn:E; [|done].
  destruct (decide (r0 = r)) as [->|Hne].
  - rewrite list_lookup_insert_eq; [|by apply lookup_lt_Some in E]. by rewrite E.
  - by rewrite list_lookup_insert_ne.
Qed.

Lemma annotate_fold_same_targets (d : string) (ops : list ref) (h : store) :
  same_targets h (fold_left (annotate d) ops h).
Proof.
  revert h. induction ops as [|r0 ops IH]; intros h; [done|].
  cbn. eapply same_targets_trans; [apply annotate_same_targets|apply IH].
Qed.

Lemma annotate_all_same_targets (cs : list (string * list ref)) (h : store) :
  same_targets h (annotate_all h cs).
Proof.
  revert h. induction cs as [|[d ops] cs IH]; intros h; [done|].
  cbn. eapply same_targets_trans; [apply annotate_fold_same_targets|apply IH].
Qed.

Lemma detect_same_targets (h h' : store) (self self' : Plan) :
  same_targets h h' -> operations self = operations self' ->
  detect_destination_collisions h self = detect_destination_collisions h' self'.
Proof.
  intros Hst Hops. unfold detect_destination_collisions, selected_operations.
  rewrite <- Hops.
  assert (forall r, is_selected h r = is_selected h' r) as Hsel.
  { intros r. unfold is_selected. specialize (Hst r).
    destruct (h !! r), (h' !! r); cbn in Hst; congruence. }
  assert (forall d r, by_dst_step h d r = by_dst_step h' d r) as Hstep.
  { intros d r. unfold by_dst_step. specialize (Hst r).
    destruct (h !! r) as [o|], (h' !! r) as [o'|]; cbn in Hst; try congruence.
    assert (dst o = dst o') as -> by congruence. done. }
  f_equal. rewrite (filter_ext _ _ Hsel).
  generalize (List.filter (is_selected h') (operations self)).
  generalize (@nil (string * list ref)).
  intros d l. revert d. induction l as [|r l IH]; intros d; [done|].
  cbn. by rewrite Hstep, IH.
Qed.

(** After [apply_collision_warnings] every selected operation that
    shares its non-empty destination with a selected operation at another
    position of the plan carries a non-empty warning. *)
Lemma collision_warned (h : store) (self : Plan) (i j : nat) (r r' : ref)
    (op op' : Operation) (d : string) :
  i <> j ->
  operations self !! i = Some r -> operations self !! j = Some r' ->
  h !! r = Some op -> h !! r' = Some op' ->
  selected op = true -> selected op' = true ->
  dst op = Some d -> dst op' = Some d -> d <> EmptyString ->
  warned (apply_collision_warnings h self).1 r.
Proof.
  intros Hij Hi Hj Hr Hr' Hs Hs' Hd Hd' Hne.
  destruct (collision_detected h self i j r r' op op' d) as (ops & Hin & Hrin); try done.
  unfold apply_collision_warnings. cbn [fst].
  by apply (annotate_all_warns _ _ d ops).
Qed.

(** A second call in succession finds the same collisions again, so the
    summary is appended to the plan a second time. *)
Lemma apply_collision_warnings_twice (h : store) (self : Plan) :
  detect_destination_collisions h self <> [] ->
  let '(h1, p1) := apply_collision_warnings h self in
  let '(h2, p2) := apply_collision_warnings h1 p1 in
  let m := collision_summary (length (detect_destination_collisions h self)) in
  warnings p2 = warnings self ++ [m; m].
Proof.
  intros Hne. unfold apply_collision_warnings.
  set (cs := detect_destination_collisions h self) in *.
  fold (annotate_all h cs).
  assert (detect_destination_collisions (annotate_all h cs)
            match cs with
            | [] => self
            | _ :: _ => mkPlan (title self) (operations self)
                          (warnings self ++ [collision_summary (length cs)])
            end = cs) as ->.
  { symmetry. apply detect_same_targets; [apply annotate_all_same_targets|].
    by destruct cs. }
  destruct cs as [|c cs]; [done|]. cbn [warnings].
  by rewrite <- app_assoc.
Qed.


(** C3 (as amended): after [apply_collision_warnings] every operation
    that shares a selected, non-empty destination with a selected
    operation at another position of the plan has a non-empty warning; the
    method does not deduplicate: whenever there is a collision, a second
    call in succession appends the summary to the plan a second time. *)
Theorem apply_collision_warnings_spec (h : store) (self : Plan) :
  (forall (i j : nat) (r r' : ref) (op op' : Operation) (d : string),
     i <> j ->
     operations self !! i = Some r -> operations self !! j = Some r' ->
     h !! r = Some op -> h !! r' = Some op' ->
     selected op = true -> selected op' = true ->
     dst op = Some d -> dst op' = Some d -> d <> EmptyString ->
     exists op1, (apply_collision_warnings h self).1 !! r = Some op1 /\
                 warning op1 <> EmptyString) /\
  (detect_destination_collisions h self <> [] ->
   let '(h1, p1) := apply_collision_warnings h self in
   let '(h2, p2) := apply_collision_warnings h1 p1 in
   let m := collision_summary (length (detect_destination_collisions h self)) in
   warnings p2 = warnings self ++ [m; m]).
Proof.
  split.
  - intros i j r r' op op' d. apply collision_warned.
  - apply apply_collision_warnings_twice.
Qed.

(** The plan of [tests/test_collisions.py]: two moves to [/x]. *)
Definition collision_store : store :=
  [ new_operation MOVE (Some "/a") (Some "/x") EmptyString true EmptyString;
    new_operation MOVE (Some "/b") (Some "/x") EmptyString true EmptyString ].

Definition collision_plan : Plan := mkPlan "t" [0; 1] [].

(** C3 (as stated) fails: called twice in succession on the plan of two
    moves to [/x], the method leaves the summary twice in the warnings of
    the plan and the collision text twice in the warning of the first
    operation. *)
Lemma apply_collision_warnings_twice_duplicates :
  let '(h1, p1) := apply_collision_warnings collision_store collision_plan in
  let '(h2, p2) := apply_collision_warnings h1 p1 in
  ~ NoDup (warnings p2) /\
  warning <$> h2 !! 0 =
    Some (collision_message "/x" +:+ "; " +:+ collision_message "/x").
Proof.
  vm_compute. split; [|reflexivity].
  intros [Hn _]%NoDup_cons. apply Hn. apply elem_of_cons. by left.
Qed.


Lemma apply_collision_warnings_spec_witness :
  exists op1,
    (apply_collision_warnings collision_store collision_plan).1 !! 0 = Some op1 /\
    warning op1 <> EmptyString.
Proof.
  apply (proj1 (apply_collision_warnings_spec collision_store collision_plan)
           0 1 0 1
           (new_operation MOVE (Some "/a") (Some "/x") EmptyString true EmptyString)
           (new_operation MOVE (Some "/b") (Some "/x") EmptyString true EmptyString)
           "/x");
    first [reflexivity | discriminate].
Defined.

End PlanModel.

(** ** [jfo/core/history.py] *)

Module History.
Import PyStr Operations PlanModel.

(** An item of the [ops] list of a journal record: a dictionary whose
    values are strings or [null], or any other JSON value. *)
Inductive journal_item : Type :=
| JDict (fields : gmap string (option string))
| JOther.

(** [item.get(key)]: a missing key and a [null] both give [None]. *)
Definition item_get (fields : gmap string (option string)) (key : string)
  : option string :=
  mjoin (fields !! key).

(** What [ops_from_journal] reads of a record: [record.get("ops")] when
    it is a list ([None] otherwise) and [record.get("script")]. *)
Record journal_record : Type := mkRecord {
  record_ops : option (list journal_item);
  record_script : option string
}.

Definition op_to_journal_dict (op : Operation) : journal_item :=
  JDict (<["kind" := Some (kind_value (kind op))]>
         (<["src" := src op]>
          (<["dst" := dst op]>
           (<["detail" := Some (detail op)]>
            (<["warning" := Some (warning op)]> ∅))))).

(** [ops_to_journal_dicts]. *)
Definition ops_to_journal_dicts (ops : list Operation) : list journal_item :=
  List.map op_to_journal_dict ops.

(** The kind of a stored item: [OperationKind(kind_s)], and on
    [ValueError] the mapping from the names of the script helpers. *)
Definition kind_of_item (kind_s : string) : option OperationKind :=
  match kind_of_value kind_s with
  | Some k => Some k
  | None =>
      if String.eqb kind_s "mv" then Some MOVE
      else if String.eqb kind_s "mkdir" then Some MKDIR
      else if String.eqb kind_s "ln" then Some LINK
      else if String.eqb kind_s "cp" then Some COPY
      else None
  end.

(** One turn of the loop over [raw]: the operation appended, if any. *)
Definition op_of_item (item : journal_item) : option Operation :=
  match item with
  | JOther => None
  | JDict fields =>
      let kind_s := or_empty (item_get fields "kind") in
      match kind_of_item kind_s with
      | None => None
      | Some k =>
          Some (new_operation k (item_get fields "src") (item_get fields "dst")
                  (or_empty (item_get fields "detail")) true
                  (or_empty (item_get fields "warning")))
      end
  end.

(** The operation a helper call stands for, from its tokens. *)
Definition op_of_parts (parts : list string) : option Operation :=
  match parts with
  | [] => None
  | cmd :: args =>
      if String.eqb cmd "safe_mv" then
        match args with
        | a :: b :: _ =>
            Some (new_operation MOVE (Some a) (Some b) EmptyString true EmptyString)
        | _ => None
        end
      else if String.eqb cmd "safe_ln" then
        match args with
        | a :: b :: _ =>
            Some (new_operation LINK (Some a) (Some b) EmptyString true EmptyString)
        | _ => None
        end
      else if String.eqb cmd "safe_cp" then
        match args with
        | a :: b :: _ =>
            Some (new_operation COPY (Some a) (Some b) EmptyString true EmptyString)
        | _ => None
        end
      else if String.eqb cmd "safe_mkdir" then
        match args with
        | a :: _ =>
            Some (new_operation MKDIR None (Some a) EmptyString true EmptyString)
        | _ => None
        end
      else None
  end.

(** One turn of the loop over the lines of a script. *)
Definition op_of_line (raw_line : string) : option Operation :=
  let line := strip raw_line in
  if negb (truthy line) || startswith line "#" then None
  else if negb (startswith line "safe_" || startswith line "run ") then None
  else
    match Shlex.split line with
    | None => None
    | Some parts => op_of_parts parts
    end.

(** [parse_ops_from_script]. *)
Definition parse_ops_from_script (script : string) : list Operation :=
  omap op_of_line (splitlines script).

(** [ops_from_journal]. *)
Definition ops_from_journal (record : journal_record) : list Operation :=
  match record_ops record with
  | Some (item :: raw) => omap op_of_item (item :: raw)
  | _ => parse_ops_from_script (or_empty (record_script record))
  end.

(** [x or ""] for a string. *)
Definition str_or_empty (s : string) : string :=
  if truthy s then s else EmptyString.

(** The inverse move emitted for a move or rename. *)
Definition undo_operation (op : Operation) : Operation :=
  new_operation MOVE (dst op) (src op)
    (strip ("UNDO " +:+ str_or_empty (detail op))) true EmptyString.

Definition skip_message (only_mv_rename : bool) (op : Operation) : string :=
  if only_mv_rename
  then "Skip undo for " +:+ kind_value (kind op) +:+ ": " +:+ or_empty (src op)
         +:+ " -> " +:+ or_empty (dst op)
  else "Unsupported undo op: " +:+ kind_value (kind op).

(** One turn of the loop of [build_undo_plan] over [undo_ops] and
    [skipped]. *)
Definition undo_step (only_mv_rename : bool)
    (acc : list Operation * list string) (op : Operation)
  : list Operation * list string :=
  let '(undo_ops, skipped) := acc in
  if is_move_or_rename (kind op) then
    if negb (opt_truthy (src op)) || negb (opt_truthy (dst op)) then acc
    else (undo_ops ++ [undo_operation op], skipped)
  else
    match kind op with
    | MKDIR => acc
    | _ => (undo_ops, skipped ++ [skip_message only_mv_rename op])
    end.

(** [build_undo_plan]: the store of the new operations, the plan that
    refers to them in order, and the skip messages. *)
Definition build_undo_plan (executed_ops : list Operation) (title : string)
    (only_mv_rename : bool) : list Operation * Plan * list string :=
  let '(undo_ops, skipped) :=
    fold_left (undo_step only_mv_rename) (rev executed_ops) ([], []) in
  let plan := extend (new_plan title) (seq 0 (length undo_ops)) in
  let '(h, plan) := apply_collision_warnings undo_ops plan in
  let plan := fold_left add_warning skipped plan in
  (h, plan, skipped).


(** *** Properties of [build_undo_plan] *)

(** A move or rename with both a source and a destination. *)
Definition invertible (op : Operation) : bool :=
  is_move_or_rename (kind op) && opt_truthy (src op) && opt_truthy (dst op).

(** A hardlink or a copy. *)
Definition link_or_copy (op : Operation) : bool :=
  match kind op with LINK | COPY => true | _ => false end.

(** [undo] is the inverse move of [op]. *)
Definition inverse_of (undo op : Operation) : Prop :=
  kind undo = MOVE /\ src undo = dst op /\ dst undo = src op /\
  selected undo = true /\
  detail undo = strip ("UNDO " +:+ detail op) /\
  startswith (detail undo) "UNDO" = true.

(** The fields [apply_collision_warnings] leaves alone. *)
Definition core (op : Operation)
  : OperationKind * option string * option string * string * bool * string :=
  (kind op, src op, dst op, detail op, selected op, op_id op).

Lemma str_or_empty_id (s : string) : str_or_empty s = s.
Proof. by destruct s. Qed.

Lemma rstrip_with_keep (f : ascii -> bool) (c : ascii) (s : string) :
  f c = false -> rstrip_with f (String c s) = String c (rstrip_with f s).
Proof. intros Hc. cbn. rewrite Hc. by destruct (rstrip_with f s). Qed.

Lemma undo_detail_marker (d : string) :
  startswith (strip ("UNDO " +:+ d)) "UNDO" = true.
Proof.
  unfold strip. rewrite !sapp_cons. cbn [lstrip_with].
  change (is_space "U") with false. cbv iota.
  rewrite !rstrip_with_keep by reflexivity.
  unfold startswith. cbn [String.prefix].
  repeat (match goal with |- context [ascii_dec ?a ?a] =>
            destruct (ascii_dec a a); [|done] end).
  apply prefix_nil.
Qed.

Lemma undo_operation_inverse (op : Operation) : inverse_of (undo_operation op) op.
Proof.
  unfold inverse_of, undo_operation. cbn. rewrite str_or_empty_id.
  repeat split. apply undo_detail_marker.
Qed.

Lemma undo_fold (only : bool) (l : list Operation) (u : list Operation) (s : list string) :
  fold_left (undo_step only) l (u, s) =
  (u ++ List.map undo_operation (List.filter invertible l),
   s ++ List.map (skip_message only) (List.filter link_or_copy l)).
Proof.
  revert u s. induction l as [|op l IH]; intros u s; cbn [fold_left List.filter List.map].
  - by rewrite !app_nil_r.
  - unfold undo_step at 2, invertible at 1, link_or_copy at 1.
    destruct (kind op) eqn:Hk; cbn [is_move_or_rename andb].
    + by rewrite IH.
    + destruct (opt_truthy (src op)), (opt_truthy (dst op)); cbn [negb orb andb];
        rewrite IH; cbn [List.map]; by rewrite <- ?app_assoc.
    + destruct (opt_truthy (src op)), (opt_truthy (dst op)); cbn [negb orb andb];
        rewrite IH; cbn [List.map]; by rewrite <- ?app_assoc.
    + rewrite IH. cbn [List.map]. by rewrite <- app_assoc.
    + rewrite IH. cbn [List.map]. by rewrite <- app_assoc.
Qed.

Lemma annotate_core (d : string) (h : store) (r0 : ref) :
  List.map core (annotate d h r0) = List.map core h.
Proof.
  unfold annotate. destruct (h !! r0) as [op0|] eqn:E; [|done].
  apply list_eq. intros r. rewrite !list_lookup_fmap.
  destruct (decide (r0 = r)) as [->|Hne].
  - rewrite list_lookup_insert_eq; [|by apply lookup_lt_Some in E]. by rewrite E.
  - by rewrite list_lookup_insert_ne.
Qed.

Lemma annotate_fold_core (d : string) (ops : list ref) (h : store) :
  List.map core (fold_left (annotate d) ops h) = List.map core h.
Proof.
  revert h. induction ops as [|r0 ops IH]; intros h; [done|].
  cbn. by rewrite IH, annotate_core.
Qed.

Lemma annotate_all_core (cs : list (string * list ref)) (h : store) :
  List.map core (annotate_all h cs) = List.map core h.
Proof.
  unfold annotate_all. revert h.
  induction cs as [|[d ops] cs IH]; intros h; [done|].
  cbn [fold_left]. rewrite IH. apply annotate_fold_core.
Qed.

Lemma apply_collision_warnings_core (h : store) (self : Plan) :
  List.map core (apply_collision_warnings h self).1 = List.map core h.
Proof. apply annotate_all_core. Qed.

Lemma apply_collision_warnings_operations (h : store) (self : Plan) :
  operations (apply_collision_warnings h self).2 = operations self.
Proof.
  unfold apply_collision_warnings. cbn [snd].
  by destruct (detect_destination_collisions h self).
Qed.

Lemma add_warning_operations (self : Plan) (msg : string) :
  operations (add_warning self msg) = operations self.
Proof. unfold add_warning. by destruct (existsb _ _). Qed.

Lemma add_warnings_operations (msgs : list string) (self : Plan) :
  operations (fold_left add_warning msgs self) = operations self.
Proof.
  revert self. induction msgs as [|m msgs IH]; intros self; [done|].
  cbn. by rewrite IH, add_warning_operations.
Qed.

Lemma add_warning_keeps (self : Plan) (msg m : string) :
  m ∈ warnings self -> m ∈ warnings (add_warning self msg).
Proof.
  unfold add_warning. destruct (existsb _ _); [done|]. cbn.
  intros H. apply elem_of_app. by left.
Qed.

Lemma add_warning_adds (self : Plan) (msg : string) :
  msg ∈ warnings (add_warning self msg).
Proof.
  unfold add_warning. destruct (existsb _ _) eqn:E.
  - apply existsb_exists in E as (x & Hx & ->%String.eqb_eq). by apply list_elem_of_In.
  - cbn. apply elem_of_app. right. apply elem_of_cons. by left.
Qed.

Lemma add_warnings_keep (msgs : list string) (self : Plan) (m : string) :
  m ∈ warnings self -> m ∈ warnings (fold_left add_warning msgs self).
Proof.
  revert self. induction msgs as [|m0 msgs IH]; intros self Hm; [done|].
  cbn. by apply IH, add_warning_keeps.
Qed.

Lemma add_warnings_add (msgs : list string) (self : Plan) (m : string) :
  m ∈ msgs -> m ∈ warnings (fold_left add_warning msgs self).
Proof.
  revert self. induction msgs as [|m0 msgs IH]; intros self Hm.
  { by apply elem_of_nil in Hm. }
  cbn. apply elem_of_cons in Hm as [->|Hm].
  - apply add_warnings_keep, add_warning_adds.
  - by apply IH.
Qed.

(** Reading the references [0 .. length h - 1] gives the store back. *)
Lemma omap_lookup_seq (pre h : list Operation) :
  omap (fun r => (pre ++ h) !! r) (seq (length pre) (length h)) = h.
Proof.
  revert pre. induction h as [|op h IH]; intros pre; [done|].
  cbn [length seq omap list_omap].
  rewrite list_lookup_middle by done.
  f_equal. specialize (IH (pre ++ [op])).
  rewrite <- app_assoc in IH. cbn in IH.
  rewrite length_app in IH. cbn in IH.
  by replace (length pre + 1) with (S (length pre)) in IH by lia.
Qed.

(** The operations of the plan [build_undo_plan] returns, read from the
    store it returns, are the inverse moves up to their warnings. *)
Lemma build_undo_plan_operations (executed : list Operation) (title : string)
    (only : bool) :
  let '(h, plan, skipped) := build_undo_plan executed title only in
  plan_operations h plan = h /\
  List.map core h =
    List.map core (List.map undo_operation (List.filter invertible (rev executed))) /\
  skipped = List.map (skip_message only) (List.filter link_or_copy (rev executed)) /\
  forall m, m ∈ skipped -> m ∈ warnings plan.
Proof.
  unfold build_undo_plan. rewrite undo_fold. cbn [app].
  set (undo_ops := List.map undo_operation _).
  set (skipped := List.map (skip_message only) _).
  set (plan := extend (new_plan title) (seq 0 (length undo_ops))).
  pose proof (apply_collision_warnings_core undo_ops plan) as Hcore.
  pose proof (apply_collision_warnings_operations undo_ops plan) as Hops.
  destruct (apply_collision_warnings undo_ops plan) as [h plan'].
  cbn [fst snd] in Hcore, Hops.
  split; [|split; [done|split; [done|]]].
  - unfold plan_operations. rewrite add_warnings_operations, Hops. cbn.
    assert (length undo_ops = length h) as ->.
    { by rewrite <- (length_map core h), Hcore, length_map. }
    apply (omap_lookup_seq [] h).
  - intros m Hm. by apply add_warnings_add.
Qed.

Lemma Forall2_core_inverse (h ops : list Operation) :
  List.map core h = List.map core (List.map undo_operation ops) ->
  Forall2 inverse_of h ops.
Proof.
  revert h. induction ops as [|op ops IH]; intros [|u h] Heq; cbn in Heq;
    [constructor|discriminate|discriminate|].
  injection Heq as Hk Hs Hd Hdet Hsel _ Hrest.
  constructor; [|by apply IH].
  destruct (undo_operation_inverse op) as (? & ? & ? & ? & Hdet' & Hm).
  unfold inverse_of. rewrite Hk, Hs, Hd, Hsel, Hdet. done.
Qed.


(** The three-step swap of the specification. *)
Definition move (a b : string) : Operation :=
  new_operation MOVE (Some a) (Some b) EmptyString true EmptyString.

Definition swap_ops : list Operation :=
  [move "/a" "/tmp"; move "/b" "/a"; move "/tmp" "/b"].

Definition endpoints (op : Operation) : OperationKind * option string * option string :=
  (kind op, src op, dst op).

(** C4: the operations of the undo plan are, in order, one inverse move
    (source and destination swapped, detail starting with the UNDO
    marker) for each move or rename of the reversed list that has both a
    source and a destination; for the three-step swap they are
    [/b -> /tmp], [/a -> /b], [/tmp -> /a]. *)
Theorem build_undo_plan_spec (executed : list Operation) (title : string)
    (only : bool) :
  (let '(h, plan, _) := build_undo_plan executed title only in
   Forall2 inverse_of (plan_operations h plan)
     (List.filter invertible (rev executed))) /\
  (let '(h, plan, _) := build_undo_plan swap_ops title only in
   List.map endpoints (plan_operations h plan) =
     [(MOVE, Some "/b", Some "/tmp"); (MOVE, Some "/a", Some "/b");
      (MOVE, Some "/tmp", Some "/a")]).
Proof.
  split.
  - pose proof (build_undo_plan_operations executed title only) as H.
    destruct (build_undo_plan executed title only) as [[h plan] skipped].
    destruct H as (-> & Hcore & _). by apply Forall2_core_inverse.
  - unfold build_undo_plan. by vm_compute.
Qed.

Lemma filter_elem {A : Type} (f : A -> bool) (l : list A) (x : A) :
  x ∈ List.filter f l <-> x ∈ l /\ f x = true.
Proof. by rewrite !list_elem_of_In, filter_In. Qed.

Lemma elem_rev {A : Type} (l : list A) (x : A) : x ∈ rev l <-> x ∈ l.
Proof. by rewrite !list_elem_of_In, <- in_rev. Qed.

Lemma add_warning_elem (self : Plan) (msg m : string) :
  m ∈ warnings (add_warning self msg) -> m ∈ warnings self \/ m = msg.
Proof.
  unfold add_warning. destruct (existsb _ _); [by left|]. cbn [warnings].
  intros [?|?%list_elem_of_singleton]%elem_of_app; [by left|by right].
Qed.

Lemma add_warnings_elem (msgs : list string) (self : Plan) (m : string) :
  m ∈ warnings (fold_left add_warning msgs self) -> m ∈ warnings self \/ m ∈ msgs.
Proof.
  revert self. induction msgs as [|m0 msgs IH]; intros self; [by left|].
  cbn [fold_left]. intros [[?| ->]%add_warning_elem|?]%IH.
  - by left.
  - right. by left.
  - right. by right.
Qed.

(** The warnings of the plan [build_undo_plan] returns are its skip
    messages and, at most, the summary of the collisions. *)
Lemma build_undo_plan_warnings (executed : list Operation) (title : string)
    (only : bool) :
  let '(h, plan, skipped) := build_undo_plan executed title only in
  forall m, m ∈ warnings plan -> m ∈ skipped \/ exists n, m = collision_summary n.
Proof.
  unfold build_undo_plan. rewrite undo_fold. cbn [app].
  unfold apply_collision_warnings. cbv beta iota zeta.
  intros m [Hm|Hm]%add_warnings_elem; [|by left]. right.
  destruct (detect_destination_collisions _ _) as [|c cs].
  - by apply elem_of_nil in Hm.
  - cbn [warnings extend new_plan app] in Hm.
    apply list_elem_of_singleton in Hm. by eexists.
Qed.

(** The text of a skip message tells the kind of its operation. *)
Lemma skip_message_kind (only : bool) (op op' : Operation) :
  skip_message only op = skip_message only op' -> kind op = kind op'.
Proof.
  unfold skip_message.
  destruct only, (kind op), (kind op'); intros H; try reflexivity;
    vm_compute in H; discriminate H.
Qed.

Lemma summary_not_skip (n : nat) (only : bool) (op : Operation) :
  collision_summary n <> skip_message only op.
Proof.
  unfold collision_summary, string_of_nat, skip_message. intros H.
  apply (f_equal (fun s => match s with String c _ => c | EmptyString => "S"%char end))
    in H.
  destruct (Nat.to_uint n), only; vm_compute in H; discriminate H.
Qed.

(** C7 (as amended): [build_undo_plan] is total; every hardlink and
    copy is recorded as a skip message, in the returned list and in the
    warnings of the plan; every operation of the plan inverts a move or
    rename that has a source and a destination, so no directory creation
    is reversed; the skip messages are those of the hardlinks and copies
    and no others, every warning of the plan is one of them or the
    summary of the collisions, and an operation that is no hardlink or
    copy, so a move or rename without source or destination, has its
    message neither in the list nor among the warnings: it is dropped
    without a message; the empty list gives a plan without
    operations. *)
Theorem build_undo_plan_skips (executed : list Operation) (title : string)
    (only : bool) :
  (let '(h, plan, skipped) := build_undo_plan executed title only in
   (forall op, op ∈ executed -> link_or_copy op = true ->
      skip_message only op ∈ skipped /\ skip_message only op ∈ warnings plan) /\
   (forall undo, undo ∈ plan_operations h plan ->
      exists op, op ∈ executed /\ invertible op = true /\ inverse_of undo op) /\
   skipped = List.map (skip_message only) (List.filter link_or_copy (rev executed)) /\
   (forall m, m ∈ warnings plan ->
      m ∈ skipped \/ exists n, m = collision_summary n) /\
   (forall op, link_or_copy op = false ->
      (skip_message only op ∉ skipped) /\
      (skip_message only op ∉ warnings plan))) /\
  build_undo_plan [] title only = ([], mkPlan title [] [], []).
Proof.
  split; [|reflexivity].
  pose proof (build_undo_plan_operations executed title only) as H.
  pose proof (build_undo_plan_warnings executed title only) as Hwarn.
  destruct (build_undo_plan executed title only) as [[h plan] skipped].
  destruct H as (Hops & Hcore & -> & Hw).
  assert (forall op, link_or_copy op = false ->
            skip_message only op ∉
            List.map (skip_message only) (List.filter link_or_copy (rev executed)))
    as Hnot.
  { intros op Hk (op' & Heq & [_ Hk']%filter_elem)%list_elem_of_fmap.
    apply skip_message_kind in Heq. unfold link_or_copy in Hk, Hk'.
    rewrite Heq in Hk. congruence. }
  split; [|split; [|split; [done|split; [exact Hwarn|]]]].
  3: { intros op Hk. split; [by apply Hnot|].
       intros [Hin|[n Hn]]%Hwarn; [by apply (Hnot op)|].
       by apply (summary_not_skip n only op). }
  - intros op Hin Hk.
    assert (skip_message only op ∈
            List.map (skip_message only) (List.filter link_or_copy (rev executed))) as Hm.
    { apply list_elem_of_fmap. exists op. split; [done|].
      apply filter_elem. split; [|done]. by apply elem_rev. }
    split; [done|by apply Hw].
  - rewrite Hops. intros undo Hin.
    apply Forall2_core_inverse in Hcore.
    destruct (list_elem_of_lookup_1 _ _ Hin) as [i Hi].
    destruct (Forall2_lookup_l _ _ _ _ _ Hcore Hi) as (op & Hop & Hinv).
    exists op. apply list_elem_of_lookup_2, filter_elem in Hop as [Hop Hf].
    split; [by apply elem_rev|done].
Qed.

(** C7 (as stated) fails: a move that lacks its source is neither
    inverted nor recorded; the plan has no operation and no warning and
    the list of skip messages is empty. *)
Lemma build_undo_plan_drops_silently :
  build_undo_plan
    [new_operation MOVE None (Some "/a") EmptyString true EmptyString] "Undo" true
  = ([], mkPlan "Undo" [] [], []).
Proof. reflexivity. Qed.

(** *** The journal round trip *)

(** The operation read back from the journal: the stored fields, selected,
    with an empty identifier. *)
Definition reloaded (op : Operation) : Operation :=
  new_operation (kind op) (src op) (dst op) (detail op) true (warning op).

Lemma kind_of_item_value (k : OperationKind) : kind_of_item (kind_value k) = Some k.
Proof. by destruct k. Qed.

Lemma op_of_item_to_dict (op : Operation) :
  op_of_item (op_to_journal_dict op) = Some (reloaded op).
Proof.
  unfold op_of_item, op_to_journal_dict, item_get.
  repeat (rewrite ?lookup_insert_eq; rewrite ?lookup_insert_ne by done).
  cbn [mjoin option_join or_empty default]. unfold id.
  by rewrite kind_of_item_value.
Qed.

Lemma omap_op_of_item (ops : list Operation) :
  omap op_of_item (ops_to_journal_dicts ops) = List.map reloaded ops.
Proof.
  induction ops as [|op ops IH]; [done|].
  cbn [ops_to_journal_dicts List.map omap list_omap].
  rewrite op_of_item_to_dict. f_equal. exact IH.
Qed.

(** C10 (as amended): for a non-empty list of operations, loading a
    record whose [ops] field is [ops_to_journal_dicts ops] gives the
    operations back in order, each with its kind, source, destination,
    detail and warning, and selected; an empty [ops] list counts as
    absent, and the operations are then parsed from the script of the
    record. *)
Theorem journal_roundtrip (ops : list Operation) (script : option string) :
  (ops <> [] ->
   ops_from_journal (mkRecord (Some (ops_to_journal_dicts ops)) script) =
     List.map reloaded ops) /\
  ops_from_journal (mkRecord (Some (ops_to_journal_dicts [])) script) =
    parse_ops_from_script (or_empty script).
Proof.
  split; [|reflexivity].
  intros Hne. unfold ops_from_journal. cbn [record_ops].
  rewrite <- omap_op_of_item.
  destruct ops as [|op ops]; [done|]. reflexivity.
Qed.

(** C10 (as stated) fails for the empty list when the record carries a
    script: the loaded list holds the move parsed from the script. *)
Lemma journal_roundtrip_empty_ops :
  ops_from_journal
    (mkRecord (Some (ops_to_journal_dicts [])) (Some "safe_mv '/a' '/b'"))
  = [move "/a" "/b"] /\
  length (ops_from_journal
    (mkRecord (Some (ops_to_journal_dicts [])) (Some "safe_mv '/a' '/b'")))
  <> length (@nil Operation).
Proof. split; [reflexivity|by vm_compute]. Qed.


Lemma build_undo_plan_skips_witness :
  "Skip undo for ln: /a -> /b" ∈
    warnings (build_undo_plan
                [new_operation LINK (Some "/a") (Some "/b") EmptyString true EmptyString]
                "Undo" true).1.2.
Proof.
  pose proof (proj1 (build_undo_plan_skips
    [new_operation LINK (Some "/a") (Some "/b") EmptyString true EmptyString]
    "Undo" true)) as H.
  vm_compute in H. destruct H as [H _].
  apply (H (new_operation LINK (Some "/a") (Some "/b") EmptyString true EmptyString)).
  - left.
  - reflexivity.
Defined.

Lemma journal_roundtrip_witness :
  ops_from_journal (mkRecord (Some (ops_to_journal_dicts [move "/a" "/b"])) None)
  = [move "/a" "/b"].
Proof.
  apply (proj1 (journal_roundtrip [move "/a" "/b"] None)). discriminate.
Defined.

End History.

(** ** [jfo/core/media_grouping.py] *)

Module MediaGrouping.
Import PyStr OrderedDict.

Record MediaFile : Type := mkMediaFile { path : string }.

(** [MediaFile.p], [.dir], [.name], [.suffix] and [.stem]. *)
Definition p (f : MediaFile) : PurePosixPath.t := PurePosixPath.parse (path f).
Definition dir (f : MediaFile) : string :=
  PurePosixPath.to_str (PurePosixPath.parent (p f)).
Definition name (f : MediaFile) : string := PurePosixPath.name (p f).
Definition suffix (f : MediaFile) : string :=
  lstrip "." (lower (PurePosixPath.suffix (p f))).
Definition stem (f : MediaFile) : string := PurePosixPath.stem (p f).

(** Equality of the frozen dataclass: equality of the paths. *)
Definition same_file (f g : MediaFile) : bool := String.eqb (path f) (path g).

Record MediaGroup : Type := mkMediaGroup {
  directory : string;
  base_stem : string;
  video : option MediaFile;
  sidecars : list MediaFile;
  nfo : option MediaFile
}.

Definition DEFAULT_VIDEO_EXTS : gset string :=
  list_to_set ["mkv"; "mp4"; "avi"; "mov"].

Definition DEFAULT_SIDECAR_EXTS : gset string :=
  list_to_set ["nfo"; "jpg"; "jpeg"; "png"; "webp"; "srt"; "ass"; "ssa"; "sub"; "idx"].

Definition FOLDER_LEVEL_SIDECAR_NAMES : gset string :=
  list_to_set
    [ "poster.jpg"; "poster.jpeg"; "poster.png"; "poster.webp";
      "fanart.jpg"; "fanart.jpeg"; "fanart.png";
      "backdrop.jpg"; "backdrop.jpeg"; "backdrop.png";
      "landscape.jpg"; "landscape.jpeg"; "landscape.png";
      "banner.jpg"; "banner.jpeg"; "banner.png";
      "logo.png"; "logo.webp"; "clearlogo.png"; "clearlogo.webp";
      "clearart.png"; "clearart.webp"; "disc.png"; "disc.webp";
      "thumb.jpg"; "thumb.jpeg"; "thumb.png";
      "folder.jpg"; "folder.jpeg"; "folder.png" ].

Definition FOLDER_LEVEL_NFO_NAMES : gset string :=
  list_to_set ["movie.nfo"].

Definition mem (x : string) (s : gset string) : bool := bool_decide (x ∈ s).

(** The test of the first branch of the stem loop: the NFO of the video. *)
Definition is_stem_nfo (v f : MediaFile) : bool :=
  String.eqb (name f) (stem v +:+ ".nfo") ||
  String.eqb (suffix f) "nfo" && String.eqb (stem f) (stem v).

(** The test of its second branch: the name starts with the stem and a
    dot, or with the stem and a hyphen. *)
Definition has_stem_prefix (v f : MediaFile) : bool :=
  startswith (name f) (stem v +:+ ".") || startswith (name f) (stem v +:+ "-").

(** One turn of the stem loop over [g.nfo] and [g.sidecars]. *)
Definition stem_step (sidecar_exts : gset string) (v : MediaFile)
    (acc : option MediaFile * list MediaFile) (f : MediaFile)
  : option MediaFile * list MediaFile :=
  let '(g_nfo, g_sidecars) := acc in
  if String.eqb (path f) (path v) then acc
  else if negb (mem (suffix f) sidecar_exts) then acc
  else if is_stem_nfo v f then (Some f, g_sidecars ++ [f])
  else if has_stem_prefix v f then (g_nfo, g_sidecars ++ [f])
  else acc.

(** One turn of the folder-level loop. *)
Definition folder_step (sidecar_exts : gset string) (v : MediaFile)
    (acc : option MediaFile * list MediaFile) (f : MediaFile)
  : option MediaFile * list MediaFile :=
  let '(g_nfo, g_sidecars) := acc in
  if String.eqb (path f) (path v) then acc
  else if negb (mem (suffix f) sidecar_exts) then acc
  else
    let nlow := lower (name f) in
    if mem nlow FOLDER_LEVEL_NFO_NAMES && String.eqb (suffix f) "nfo" then
      (match g_nfo with None => Some f | Some _ => g_nfo end,
       if existsb (same_file f) g_sidecars then g_sidecars else g_sidecars ++ [f])
    else if mem nlow FOLDER_LEVEL_SIDECAR_NAMES then
      (g_nfo,
       if existsb (same_file f) g_sidecars then g_sidecars else g_sidecars ++ [f])
    else acc.

(** The group built for the video [v] of a directory holding [files],
    [n_videos] of them videos. *)
Definition make_group (sidecar_exts : gset string) (d : string)
    (files : list MediaFile) (n_videos : nat) (v : MediaFile) : MediaGroup :=
  let acc := fold_left (stem_step sidecar_exts v) files (None, []) in
  let acc :=
    if n_videos =? 1 then fold_left (folder_step sidecar_exts v) files acc
    else acc in
  mkMediaGroup d (stem v) (Some v) acc.2 acc.1.

(** The groups of one directory. *)
Definition groups_of_dir (video_exts sidecar_exts : gset string)
    (item : string * list MediaFile) : list MediaGroup :=
  let '(d, files) := item in
  let videos := List.filter (fun f => mem (suffix f) video_exts) files in
  List.map (make_group sidecar_exts d files (length videos))
    (sorted_by (fun x => lower (name x)) videos).

(** The dictionary [by_dir]. *)
Definition by_dir (paths : list string) : list (string * list MediaFile) :=
  fold_left (fun d pth => let mf := mkMediaFile pth in setdefault_append (dir mf) mf d)
    paths [].

(** [group_media_files]. *)
Definition group_media_files (paths : list string)
    (video_exts sidecar_exts : gset string) : list MediaGroup :=
  concat (List.map (groups_of_dir video_exts sidecar_exts) (by_dir paths)).


(** *** The folder-level guard *)

(** [f] is attached to the group of [v] by the stem rule. *)
Definition stem_rule (v f : MediaFile) : bool :=
  is_stem_nfo v f || has_stem_prefix v f.

(** [f] bears a folder-level artwork or metadata name. *)
Definition folder_level (f : MediaFile) : bool :=
  mem (lower (name f)) FOLDER_LEVEL_NFO_NAMES && String.eqb (suffix f) "nfo" ||
  mem (lower (name f)) FOLDER_LEVEL_SIDECAR_NAMES.

(** The video entries of the input that lie in directory [d]. *)
Definition videos_in (paths : list string) (video_exts : gset string) (d : string)
  : list MediaFile :=
  List.filter (fun f => mem (suffix f) video_exts)
    (List.filter (fun f => String.eqb (dir f) d) (List.map mkMediaFile paths)).

Lemma stem_step_rule (se : gset string) (v f : MediaFile)
    (acc : option MediaFile * list MediaFile) :
  Forall (fun x => stem_rule v x = true) acc.2 ->
  Forall (fun x => stem_rule v x = true) (stem_step se v acc f).2.
Proof.
  destruct acc as [n s]. cbn [snd]. intros Hs. unfold stem_step.
  destruct (String.eqb (path f) (path v)); [done|].
  destruct (negb (mem (suffix f) se)); [done|].
  destruct (is_stem_nfo v f) eqn:E1.
  { cbn [snd]. apply Forall_app. split; [done|]. apply Forall_singleton.
    unfold stem_rule. by rewrite E1. }
  destruct (has_stem_prefix v f) eqn:E2; [|done].
  cbn [snd]. apply Forall_app. split; [done|]. apply Forall_singleton.
  unfold stem_rule. by rewrite E1, E2.
Qed.

Lemma stem_loop_rule (se : gset string) (v : MediaFile) (files : list MediaFile)
    (acc : option MediaFile * list MediaFile) :
  Forall (fun x => stem_rule v x = true) acc.2 ->
  Forall (fun x => stem_rule v x = true) (fold_left (stem_step se v) files acc).2.
Proof.
  revert acc. induction files as [|f files IH]; intros acc Hacc; [done|].
  cbn [fold_left]. by apply IH, stem_step_rule.
Qed.

Lemma folder_step_rule (se : gset string) (v f : MediaFile)
    (acc : option MediaFile * list MediaFile) :
  Forall (fun x => stem_rule v x = true \/ folder_level x = true) acc.2 ->
  Forall (fun x => stem_rule v x = true \/ folder_level x = true)
    (folder_step se v acc f).2.
Proof.
  destruct acc as [n s]. cbn [snd]. intros Hs. unfold folder_step.
  destruct (String.eqb (path f) (path v)); [done|].
  destruct (negb (mem (suffix f) se)); [done|].
  destruct (mem (lower (name f)) FOLDER_LEVEL_NFO_NAMES && String.eqb (suffix f) "nfo")
    eqn:E1.
  { cbn [snd]. destruct (existsb _ s); [done|].
    apply Forall_app. split; [done|]. apply Forall_singleton. right.
    unfold folder_level. by rewrite E1. }
  destruct (mem (lower (name f)) FOLDER_LEVEL_SIDECAR_NAMES) eqn:E2; [|done].
  cbn [snd]. destruct (existsb _ s); [done|].
  apply Forall_app. split; [done|]. apply Forall_singleton. right.
  unfold folder_level. by rewrite E1, E2.
Qed.

Lemma folder_loop_rule (se : gset string) (v : MediaFile) (files : list MediaFile)
    (acc : option MediaFile * list MediaFile) :
  Forall (fun x => stem_rule v x = true \/ folder_level x = true) acc.2 ->
  Forall (fun x => stem_rule v x = true \/ folder_level x = true)
    (fold_left (folder_step se v) files acc).2.
Proof.
  revert acc. induction files as [|f files IH]; intros acc Hacc; [done|].
  cbn [fold_left]. by apply IH, folder_step_rule.
Qed.

(** The sidecars of a group: by the stem rule when the directory does
    not hold exactly one video, by either rule otherwise. *)
Lemma make_group_sidecars (se : gset string) (d : string) (files : list MediaFile)
    (n : nat) (v f : MediaFile) :
  f ∈ sidecars (make_group se d files n v) ->
  stem_rule v f = true \/ (folder_level f = true /\ n = 1).
Proof.
  unfold make_group. cbn [sidecars].
  pose proof (stem_loop_rule se v files (None, []) (Forall_nil_2 _)) as H1.
  destruct (n =? 1) eqn:En.
  - apply Nat.eqb_eq in En as ->. intros Hin.
    assert (Forall (fun x => stem_rule v x = true \/ folder_level x = true)
              (fold_left (folder_step se v) files
                 (fold_left (stem_step se v) files (None, []))).2) as H2.
    { apply folder_loop_rule. eapply Forall_impl; [exact H1|]. by left. }
    rewrite Forall_forall in H2. destruct (H2 f Hin) as [?|?]; [by left|by right].
  - intros Hin. rewrite Forall_forall in H1. left. by apply H1.
Qed.

Definition by_dir_step (d : list (string * list MediaFile)) (pth : string)
  : list (string * list MediaFile) :=
  setdefault_append (dir (mkMediaFile pth)) (mkMediaFile pth) d.

Lemma group_by_dir (k : string) (paths : list string)
    (d : list (string * list MediaFile)) :
  group k (fold_left by_dir_step paths d) =
  group k d ++ List.filter (fun f => String.eqb (dir f) k) (List.map mkMediaFile paths).
Proof.
  revert d. induction paths as [|pth paths IH]; intros d; cbn [fold_left List.map List.filter].
  - by rewrite app_nil_r.
  - rewrite IH. unfold by_dir_step.
    destruct (String.eqb (dir (mkMediaFile pth)) k) eqn:E.
    + apply String.eqb_eq in E as <-.
      by rewrite group_setdefault_same, <- app_assoc.
    + rewrite group_setdefault_other; [done|].
      intros ->. by rewrite String.eqb_refl in E.
Qed.

Lemma by_dir_keys (paths : list string) (d : list (string * list MediaFile)) :
  NoDup (List.map fst d) -> NoDup (List.map fst (fold_left by_dir_step paths d)).
Proof.
  revert d. induction paths as [|pth paths IH]; intros d Hd; [done|].
  cbn [fold_left]. by apply IH, keys_setdefault_NoDup.
Qed.

(** A bucket of [by_dir] holds exactly the entries of its directory. *)
Lemma by_dir_item (paths : list string) (d : string) (files : list MediaFile) :
  (d, files) ∈ by_dir paths ->
  files = List.filter (fun f => String.eqb (dir f) d) (List.map mkMediaFile paths).
Proof.
  intros Hin. change (by_dir paths) with (fold_left by_dir_step paths []) in Hin.
  rewrite <- (group_item d files _ (by_dir_keys paths [] (NoDup_nil_2)) Hin).
  by rewrite group_by_dir.
Qed.

Lemma group_media_files_elem (paths : list string) (ve se : gset string)
    (g : MediaGroup) :
  g ∈ group_media_files paths ve se ->
  exists v, video g = Some v /\
    g = make_group se (directory g)
          (List.filter (fun f => String.eqb (dir f) (directory g))
             (List.map mkMediaFile paths))
          (length (videos_in paths ve (directory g))) v.
Proof.
  unfold group_media_files. intros Hg.
  apply list_elem_of_In, in_concat in Hg as (gs & Hgs & Hg).
  apply in_map_iff in Hgs as ([d files] & <- & Hitem).
  apply list_elem_of_In, by_dir_item in Hitem. unfold groups_of_dir in Hg.
  apply in_map_iff in Hg as (v & <- & Hv).
  exists v. cbn [video directory make_group]. split; [done|].
  unfold videos_in. by rewrite <- Hitem.
Qed.

(** C8 (as amended): a sidecar of a group is attached by the stem rule
    of the group's video, or it bears a folder-level name and the
    directory of the group holds exactly one video entry; so with two or
    more videos in a directory only the stem rule attaches files, and for
    A.mkv, B.mkv and poster.jpg in one directory neither group has a
    sidecar. *)
Theorem folder_level_guard (paths : list string) (ve se : gset string) :
  (forall g f, g ∈ group_media_files paths ve se -> f ∈ sidecars g ->
     (exists v, video g = Some v /\ stem_rule v f = true) \/
     (folder_level f = true /\ length (videos_in paths ve (directory g)) = 1)) /\
  List.map (fun g => (base_stem g, sidecars g))
    (group_media_files ["/m/A.mkv"; "/m/B.mkv"; "/m/poster.jpg"]
       DEFAULT_VIDEO_EXTS DEFAULT_SIDECAR_EXTS)
  = [("A", []); ("B", [])].
Proof.
  split; [|by vm_compute].
  intros g f Hg Hf.
  destruct (group_media_files_elem paths ve se g Hg) as (v & Hv & Heq).
  rewrite Heq in Hf. apply make_group_sidecars in Hf as [?|[? ?]].
  - left. by exists v.
  - by right.
Qed.

(** C8 (as stated) fails: with poster.mkv and B.mkv in one directory,
    poster.jpg, a folder-level name, is a sidecar of the group of
    poster.mkv, attached by the stem rule. *)
Lemma folder_level_name_attached_by_stem :
  List.map (fun g => (base_stem g, sidecars g))
    (group_media_files ["/m/poster.mkv"; "/m/B.mkv"; "/m/poster.jpg"]
       DEFAULT_VIDEO_EXTS DEFAULT_SIDECAR_EXTS)
  = [("B", []); ("poster", [mkMediaFile "/m/poster.jpg"])] /\
  folder_level (mkMediaFile "/m/poster.jpg") = true /\
  length (videos_in ["/m/poster.mkv"; "/m/B.mkv"; "/m/poster.jpg"]
            DEFAULT_VIDEO_EXTS "/m") = 2.
Proof. by vm_compute. Qed.


Lemma folder_level_guard_witness :
  (exists v, Some (mkMediaFile "/m/Movie.mkv") = Some v /\
             stem_rule v (mkMediaFile "/m/poster.jpg") = true) \/
  (folder_level (mkMediaFile "/m/poster.jpg") = true /\
   length (videos_in ["/m/Movie.mkv"; "/m/poster.jpg"] DEFAULT_VIDEO_EXTS "/m") = 1).
Proof.
  apply (proj1 (folder_level_guard ["/m/Movie.mkv"; "/m/poster.jpg"]
                  DEFAULT_VIDEO_EXTS DEFAULT_SIDECAR_EXTS)
           (mkMediaGroup "/m" "Movie" (Some (mkMediaFile "/m/Movie.mkv"))
              [mkMediaFile "/m/poster.jpg"] None)
           (mkMediaFile "/m/poster.jpg")).
  - apply list_elem_of_In. vm_compute. left. reflexivity.
  - left.
Defined.

End MediaGrouping.

(** ** [jfo/core/nfo.py]

    The XML parser ([xml.etree.ElementTree.fromstring]) is a parameter of
    [parse_nfo]; the embedding starts at the element tree it returns.
    The class [\d] of the pattern is a parameter as well: it is the set
    of decimal digits of the Unicode database the interpreter is built
    with.  Of the four fields of [NfoInfo] the title, the original title
    and the identifier are embedded; the year is not. *)

Module Nfo.
Import PyStr.

(** The texts of a document are kept as lists of Unicode code points,
    without a bound: the identifier pattern uses [\d], and the text is
    stripped of Unicode white space and of a byte-order mark, none of
    which is confined to the code points below 256. *)

(** The code points of a literal of the source. *)
Definition cps (s : string) : list N := List.map code (chars s).

(** [a == b] on texts. *)
Fixpoint ueqb (a b : list N) : bool :=
  match a, b with
  | [], [] => true
  | x :: a', y :: b' => (x =? y)%N && ueqb a' b'
  | _, _ => false
  end.

(** An [ET.Element]: its tag, its text and its children in order. *)
#[warnings="-register-all"]
Inductive Element : Type :=
| Elem (tag : list N) (text : option (list N)) (children : list Element).

Definition tag (e : Element) : list N := let 'Elem t _ _ := e in t.
Definition text (e : Element) : option (list N) := let 'Elem _ x _ := e in x.
Definition children (e : Element) : list Element := let 'Elem _ _ c := e in c.

Record NfoInfo : Type := mkNfoInfo {
  title : option (list N);
  original_title : option (list N);
  imdbid : option (list N)
}.

Inductive ParseError : Type := ParseError_raised.

(** [root.find(tag)] for a plain tag name: the first child with that tag. *)
Definition find (root : Element) (tg : list N) : option Element :=
  List.find (fun el => ueqb (tag el) tg) (children root).

(** [str.isspace] on a code point: the white space that [str.strip()]
    removes. *)
Definition isspace (n : N) : bool :=
  ((9 <=? n) && (n <=? 13) || (28 <=? n) && (n <=? 32) || (n =? 133) || (n =? 160)
   || (n =? 5760) || (8192 <=? n) && (n <=? 8202) || (n =? 8232) || (n =? 8233)
   || (n =? 8239) || (n =? 8287) || (n =? 12288))%N.

Fixpoint lstrip_by (f : N -> bool) (s : list N) : list N :=
  match s with
  | [] => []
  | c :: s' => if f c then lstrip_by f s' else s
  end.

Definition rstrip_by (f : N -> bool) (s : list N) : list N :=
  rev (lstrip_by f (rev s)).

(** [t.strip()]. *)
Definition strip (t : list N) : list N := rstrip_by isspace (lstrip_by isspace t).

(** [_text]. *)
Definition _text (root : Element) (tg : list N) : option (list N) :=
  match find root tg with
  | None => None
  | Some el =>
      match text el with
      | None => None
      | Some t =>
          match strip t with
          | [] => None
          | c :: t' => Some (c :: t')
          end
      end
  end.

(** [a or b] for optional non-empty texts. *)
Definition or_else (a b : option (list N)) : option (list N) :=
  match a with Some _ => a | None => b end.

(** The root the fields are read from: under the synthetic wrapper, the
    first child tagged movie, tvshow or episodedetails, if any. *)
Definition choose_root (root : Element) : Element :=
  if ueqb (tag root) (cps "root") then
    match List.find (fun child =>
             ueqb (tag child) (cps "movie") || ueqb (tag child) (cps "tvshow") ||
             ueqb (tag child) (cps "episodedetails")) (children root) with
    | Some child => child
    | None => root
    end
  else root.

(** The characters stripped from the front of the text: the byte-order
    mark U+FEFF, LF, CR, TAB and the space. *)
Definition leading_blanks : list N := [65279; 10; 13; 9; 32]%N.

Section parse_nfo.

(** [\d] of a [str] pattern: the decimal digits of the Unicode database
    of the interpreter. *)
Variable isdecimal : N -> bool.

(** [ET.fromstring]; [None] stands for [ET.ParseError]. *)
Variable fromstring : list N -> option Element.

(** The longest run of at most [n] digits at the head of [s]. *)
Fixpoint take_digits (n : nat) (s : list N) : list N :=
  match n, s with
  | S n', c :: s' => if isdecimal c then c :: take_digits n' s' else []
  | _, _ => []
  end.

(** [_IMDB_RE.match(s)]: the pattern [tt\d{3,10}] at the head of [s]. *)
Definition _IMDB_RE_match (s : list N) : option (list N) :=
  match s with
  | a :: b :: rest =>
      if ((a =? 116) && (b =? 116))%N then
        let ds := take_digits 10 rest in
        if 3 <=? length ds then Some (a :: b :: ds) else None
      else None
  | _ => None
  end.

(** [_IMDB_RE.search(s)]: the leftmost match, as [m.group(0)]. *)
Fixpoint _IMDB_RE_search (s : list N) : option (list N) :=
  match _IMDB_RE_match s with
  | Some m => Some m
  | None =>
      match s with
      | [] => None
      | _ :: s' => _IMDB_RE_search s'
      end
  end.

(** The body of [parse_nfo] from the chosen root on. *)
Definition nfo_of_root (root : Element) : NfoInfo :=
  let title := _text root (cps "title") in
  let original_title := _text root (cps "originaltitle") in
  let imdb_raw :=
    or_else (_text root (cps "imdbid"))
      (or_else (_text root (cps "imdb_id"))
         (or_else (_text root (cps "imdb"))
            (or_else (_text root (cps "id")) (_text root (cps "uniqueid"))))) in
  let imdbid :=
    match imdb_raw with
    | Some raw => _IMDB_RE_search raw
    | None => None
    end in
  mkNfoInfo title original_title imdbid.

Definition parse_nfo (xml_text : list N) : result ParseError NfoInfo :=
  let xml_text := lstrip_by (fun c => existsb (N.eqb c) leading_blanks) xml_text in
  let parsed :=
    match fromstring xml_text with
    | Some root => Some root
    | None => fromstring (cps "<root>" ++ xml_text ++ cps "</root>")
    end in
  match parsed with
  | None => Raise ParseError_raised
  | Some root => Ok (nfo_of_root (choose_root root))
  end.

End parse_nfo.


(** *** The identifier, in words *)

(** The fields that may hold the identifier, in priority order. *)
Definition id_fields : list (list N) :=
  [cps "imdbid"; cps "imdb_id"; cps "imdb"; cps "id"; cps "uniqueid"].

(** White space only. *)
Definition blank (s : list N) : Prop := Forall (fun c => isspace c = true) s.

(** [raw] is the text [t] without the white space around it. *)
Definition trimmed (t raw : list N) : Prop :=
  exists l r, t = l ++ raw ++ r /\ blank l /\ blank r /\
    (forall c raw', raw = c :: raw' -> isspace c = false) /\
    (forall raw' c, raw = raw' ++ [c] -> isspace c = false).

(** [raw] is the candidate the field [f] of [root] holds: the text of
    the first child tagged [f], without the white space around it, and
    not empty. *)
Definition field_candidate (root : Element) (f raw : list N) : Prop :=
  exists before el after t,
    children root = before ++ el :: after /\
    Forall (fun e => tag e <> f) before /\ tag el = f /\
    text el = Some t /\ trimmed t raw /\ raw <> [].

(** [raw] is the first non-empty candidate among the identifier fields
    of [root], in priority order. *)
Definition first_nonempty (root : Element) (raw : list N) : Prop :=
  exists before f after,
    id_fields = before ++ f :: after /\
    field_candidate root f raw /\
    Forall (fun g => forall r, ~ field_candidate root g r) before.

(** A run of digits. *)
Definition digits (isdecimal : N -> bool) (ds : list N) : Prop :=
  Forall (fun c => isdecimal c = true) ds.

(** [m] is what the pattern [tt\d{3,10}] finds in [raw]: [tt] and three
    to ten digits, at the leftmost place of [raw] where [tt] and three
    digits stand, with as many digits as stand there, up to ten. *)
Definition imdb_match (isdecimal : N -> bool) (raw m : list N) : Prop :=
  exists pre ds post,
    raw = pre ++ cps "tt" ++ ds ++ post /\ m = cps "tt" ++ ds /\
    digits isdecimal ds /\ 3 <= length ds <= 10 /\
    (length ds = 10 \/ forall c post', post = c :: post' -> isdecimal c = false) /\
    forall pre' ds' post',
      raw = pre' ++ cps "tt" ++ ds' ++ post' -> digits isdecimal ds' ->
      3 <= length ds' -> length pre <= length pre'.

(** The pattern finds nothing in [raw]: nowhere is [tt] followed by
    three digits. *)
Definition no_imdb_match (isdecimal : N -> bool) (raw : list N) : Prop :=
  forall pre ds post,
    raw = pre ++ cps "tt" ++ ds ++ post -> digits isdecimal ds -> length ds < 3.

(** A node that may hold the fields. *)
Definition likely (e : Element) : Prop :=
  tag e = cps "movie" \/ tag e = cps "tvshow" \/ tag e = cps "episodedetails".

(** [root] is the node the fields are read from when the document
    parses to [parsed]. *)
Definition chosen (parsed root : Element) : Prop :=
  (tag parsed <> cps "root" /\ root = parsed) \/
  (tag parsed = cps "root" /\
   ((exists before after,
       children parsed = before ++ root :: after /\
       Forall (fun e => ~ likely e) before /\ likely root) \/
    (Forall (fun e => ~ likely e) (children parsed) /\ root = parsed))).

(** The document of [tests/test_nfo.py] with the identifier in [id]. *)
Definition alien : Element :=
  Elem (cps "movie") (Some (cps "
  "))
    [ Elem (cps "title") (Some (cps "Alien")) [];
      Elem (cps "year") (Some (cps "1979")) [];
      Elem (cps "id") (Some (cps "tt0078748")) [] ].

(** The digits among the code points below 128. *)
Definition ascii_digit (n : N) : bool := ((48 <=? n) && (n <=? 57))%N.

(** *** Texts *)

Lemma ueqb_eq (a b : list N) : ueqb a b = true <-> a = b.
Proof.
  revert b. induction a as [|x a IH]; intros [|y b]; cbn [ueqb]; try done.
  rewrite andb_true_iff, N.eqb_eq, IH. split; [by intros [-> ->]|by intros [= -> ->]].
Qed.

Lemma ueqb_neq (a b : list N) : ueqb a b = false <-> a <> b.
Proof.
  rewrite <- ueqb_eq. by destruct (ueqb a b).
Qed.

Lemma find_first {A : Type} (f : A -> bool) (l : list A) :
  match List.find f l with
  | Some x => exists before after,
      l = before ++ x :: after /\ Forall (fun y => f y = false) before /\ f x = true
  | None => Forall (fun y => f y = false) l
  end.
Proof.
  induction l as [|y l IH]; cbn [List.find]; [by constructor|].
  destruct (f y) eqn:Hy.
  - exists [], l. split; [done|]. split; [by constructor|done].
  - destruct (List.find f l) as [x|].
    + destruct IH as (before & after & -> & Hb & Hx).
      exists (y :: before), after. split; [done|]. split; [by constructor|done].
    + by constructor.
Qed.

Lemma find_app_first {A : Type} (f : A -> bool) (before after : list A) (x : A) :
  Forall (fun y => f y = false) before -> f x = true ->
  List.find f (before ++ x :: after) = Some x.
Proof.
  intros Hb Hx. induction Hb as [|y before Hy _ IH]; cbn [app List.find].
  - by rewrite Hx.
  - by rewrite Hy.
Qed.

Lemma lstrip_by_split (f : N -> bool) (s : list N) :
  exists l, s = l ++ lstrip_by f s /\ Forall (fun c => f c = true) l /\
            forall c s', lstrip_by f s = c :: s' -> f c = false.
Proof.
  induction s as [|c s IH]; cbn [lstrip_by].
  - exists []. split; [done|]. split; [by constructor|done].
  - destruct (f c) eqn:Hc.
    + destruct IH as (l & Hl & Hf & Hh). exists (c :: l).
      split; [cbn; by f_equal|]. split; [by constructor|done].
    + exists []. split; [done|]. split; [by constructor|]. by intros c' s' [= <- _].
Qed.

Lemma lstrip_by_blank (f : N -> bool) (l : list N) :
  Forall (fun c => f c = true) l -> lstrip_by f l = [].
Proof. induction 1 as [|c l Hc _ IH]; [done|]. cbn. by rewrite Hc. Qed.

Lemma lstrip_by_app (f : N -> bool) (l r : list N) :
  Forall (fun c => f c = true) l ->
  (forall c r', r = c :: r' -> f c = false) ->
  lstrip_by f (l ++ r) = r.
Proof.
  intros Hl Hr. induction Hl as [|c l Hc _ IH]; cbn [app lstrip_by].
  - destruct r as [|c r']; [done|]. cbn. by rewrite (Hr c r').
  - by rewrite Hc.
Qed.

(** [strip] takes the white space around a text away and nothing else. *)
Lemma strip_trimmed (t : list N) : trimmed t (strip t).
Proof.
  unfold strip, rstrip_by.
  destruct (lstrip_by_split isspace t) as (l & Hl & Hbl & Hhead).
  set (t1 := lstrip_by isspace t) in *.
  destruct (lstrip_by_split isspace (rev t1)) as (l2 & Hl2 & Hbl2 & Hhead2).
  set (t2 := lstrip_by isspace (rev t1)) in *.
  assert (t1 = rev t2 ++ rev l2) as Ht1.
  { rewrite <- (rev_involutive t1), Hl2. apply rev_app_distr. }
  exists l, (rev l2). split; [by rewrite <- Ht1|]. split; [done|].
  split; [by apply Forall_rev|]. split.
  - intros c raw' Hraw. apply (Hhead c (raw' ++ rev l2)).
    by rewrite Ht1, Hraw.
  - intros raw' c Hraw. apply (Hhead2 c (rev raw')).
    rewrite <- (rev_involutive t2), Hraw, rev_app_distr. done.
Qed.

Lemma trimmed_strip (t raw : list N) : trimmed t raw -> strip t = raw.
Proof.
  intros (l & r & -> & Hl & Hr & Hfirst & Hlast). unfold strip, rstrip_by.
  destruct raw as [|c raw'] eqn:Hraw.
  - cbn [app]. rewrite (lstrip_by_blank isspace (l ++ r)); [done|].
    apply Forall_app. by split.
  - rewrite <- Hraw in *. rewrite lstrip_by_app.
    + rewrite rev_app_distr, lstrip_by_app, rev_involutive; [done|by apply Forall_rev|].
      intros c' r' Hrev. apply (Hlast (rev r') c').
      by rewrite <- (rev_involutive raw), Hrev.
    + done.
    + intros c' r' Heq. rewrite Hraw in Heq. cbn in Heq. injection Heq as <- _.
      by apply (Hfirst c raw').
Qed.

(** [_text] gives the candidate of a field, and nothing when the field
    has none. *)
Lemma text_candidate (root : Element) (f raw : list N) :
  _text root f = Some raw <-> field_candidate root f raw.
Proof.
  unfold _text, find. split.
  - pose proof (find_first (fun el => ueqb (tag el) f) (children root)) as Hfind.
    destruct (List.find _ _) as [el|]; [|done].
    destruct Hfind as (before & after & Hch & Hb & Hel).
    destruct (text el) as [t|] eqn:Ht; [|done].
    pose proof (strip_trimmed t) as Htrim.
    destruct (strip t) as [|c t'] eqn:Hs; [done|]. intros [= <-].
    exists before, el, after, t. split; [done|]. split.
    { eapply Forall_impl; [exact Hb|]. intros e He. by apply ueqb_neq. }
    split; [by apply ueqb_eq|]. done.
  - intros (before & el & after & t & Hch & Hb & Hel & Ht & Htrim & Hne).
    rewrite Hch, (find_app_first _ before after el).
    + rewrite Ht, (trimmed_strip t raw Htrim). by destruct raw.
    + eapply Forall_impl; [exact Hb|]. intros e He. by apply ueqb_neq.
    + by apply ueqb_eq.
Qed.

(** The first text among the given fields. *)
Fixpoint first_text (root : Element) (fields : list (list N)) : option (list N) :=
  match fields with
  | [] => None
  | f :: fields' =>
      match _text root f with
      | Some raw => Some raw
      | None => first_text root fields'
      end
  end.

Lemma first_text_split (root : Element) (fields : list (list N)) :
  match first_text root fields with
  | Some raw => exists before f after,
      fields = before ++ f :: after /\ _text root f = Some raw /\
      Forall (fun g => _text root g = None) before
  | None => Forall (fun g => _text root g = None) fields
  end.
Proof.
  induction fields as [|f fields IH]; cbn [first_text]; [by constructor|].
  destruct (_text root f) as [raw|] eqn:Hf.
  - exists [], f, fields. split; [done|]. split; [done|by constructor].
  - destruct (first_text root fields) as [raw|].
    + destruct IH as (before & g & after & -> & Hg & Hb).
      exists (f :: before), g, after. split; [done|]. split; [done|by constructor].
    + by constructor.
Qed.

Lemma first_text_nonempty (root : Element) :
  match first_text root id_fields with
  | Some raw => first_nonempty root raw
  | None => forall raw, ~ first_nonempty root raw
  end.
Proof.
  pose proof (first_text_split root id_fields) as H.
  destruct (first_text root id_fields) as [raw|].
  - destruct H as (before & f & after & Hid & Hf & Hb).
    exists before, f, after. split; [done|]. split; [by apply text_candidate|].
    eapply Forall_impl; [exact Hb|]. intros g Hg r Hr%text_candidate. congruence.
  - intros raw (before & f & after & Hid & Hf%text_candidate & _).
    rewrite Forall_forall in H. rewrite (H f) in Hf; [done|].
    rewrite Hid. apply elem_of_app. right. by left.
Qed.

(** *** The pattern *)

Section pattern.

Variable isdecimal : N -> bool.

Lemma take_digits_split (n : nat) (s : list N) :
  exists post, s = take_digits isdecimal n s ++ post /\
    length (take_digits isdecimal n s) <= n /\
    digits isdecimal (take_digits isdecimal n s) /\
    (length (take_digits isdecimal n s) = n \/
     forall c post', post = c :: post' -> isdecimal c = false).
Proof.
  revert s. induction n as [|n IH]; intros s.
  - exists s. cbn. split; [done|]. split; [lia|]. split; [constructor|by left].
  - destruct s as [|c s]; cbn [take_digits].
    { exists []. cbn. split; [done|]. split; [lia|]. split; [constructor|by right]. }
    destruct (isdecimal c) eqn:Ec.
    + destruct (IH s) as (post & Hp & Hl & Hd & Hg). exists post. cbn [app length].
      split; [by f_equal|]. split; [lia|]. split; [by constructor|].
      destruct Hg as [Hg|Hg]; [left; lia|by right].
    + exists (c :: s). cbn. split; [done|]. split; [lia|]. split; [constructor|].
      right. by intros c' post' [= <- _].
Qed.

Lemma take_digits_run (n : nat) (ds post : list N) :
  digits isdecimal ds ->
  Nat.min n (length ds) <= length (take_digits isdecimal n (ds ++ post)).
Proof.
  revert ds. induction n as [|n IH]; intros ds Hd; [cbn; lia|].
  destruct ds as [|c ds]; [cbn; lia|].
  inversion Hd as [|? ? Hc Hds]; subst. cbn [app take_digits]. rewrite Hc.
  cbn [length]. specialize (IH ds Hds). lia.
Qed.

Lemma _IMDB_RE_match_found (s m : list N) :
  _IMDB_RE_match isdecimal s = Some m ->
  exists ds post,
    s = cps "tt" ++ ds ++ post /\ m = cps "tt" ++ ds /\
    digits isdecimal ds /\ 3 <= length ds <= 10 /\
    (length ds = 10 \/ forall c post', post = c :: post' -> isdecimal c = false).
Proof.
  unfold _IMDB_RE_match. destruct s as [|a [|b rest]]; [done|done|].
  destruct ((a =? 116)%N && (b =? 116)%N) eqn:Htt; [|done].
  apply andb_true_iff in Htt as [->%N.eqb_eq ->%N.eqb_eq].
  destruct (take_digits_split 10 rest) as (post & Hp & Hl & Hd & Hg).
  destruct (3 <=? length (take_digits isdecimal 10 rest)) eqn:E; [|done].
  apply Nat.leb_le in E. intros [= <-].
  exists (take_digits isdecimal 10 rest), post.
  split; [cbn; by do 2 f_equal|]. split; [done|]. split; [done|]. split; [lia|done].
Qed.

Lemma _IMDB_RE_match_run (ds post : list N) :
  digits isdecimal ds -> 3 <= length ds ->
  is_Some (_IMDB_RE_match isdecimal (cps "tt" ++ ds ++ post)).
Proof.
  intros Hd Hl. change (cps "tt" ++ ds ++ post) with (116%N :: 116%N :: ds ++ post).
  unfold _IMDB_RE_match. cbn [N.eqb Pos.eqb andb].
  pose proof (take_digits_run 10 ds post Hd) as Hm.
  destruct (3 <=? length (take_digits isdecimal 10 (ds ++ post))) eqn:E; [by eexists|].
  apply Nat.leb_gt in E. lia.
Qed.

(** The search stops at the first place where the pattern matches. *)
Lemma _IMDB_RE_search_first (s : list N) :
  match _IMDB_RE_search isdecimal s with
  | Some m => exists pre rest,
      s = pre ++ rest /\ _IMDB_RE_match isdecimal rest = Some m /\
      forall pre1 rest1, s = pre1 ++ rest1 -> length pre1 < length pre ->
        _IMDB_RE_match isdecimal rest1 = None
  | None => forall pre rest, s = pre ++ rest -> _IMDB_RE_match isdecimal rest = None
  end.
Proof.
  induction s as [|c s IH]; cbn [_IMDB_RE_search].
  - destruct (_IMDB_RE_match isdecimal []) as [m|] eqn:E; [done|].
    intros pre rest Heq. symmetry in Heq. apply app_eq_nil in Heq as [_ ->]. done.
  - destruct (_IMDB_RE_match isdecimal (c :: s)) as [m|] eqn:E.
    + exists [], (c :: s). split; [done|]. split; [done|].
      intros pre1 rest1 _ Hlt. cbn in Hlt. lia.
    + destruct (_IMDB_RE_search isdecimal s) as [m|].
      * destruct IH as (pre & rest & -> & Hm & Hbefore).
        exists (c :: pre), rest. split; [done|]. split; [done|].
        intros [|c1 pre1] rest1 Heq Hlt.
        -- cbn in Heq. by subst rest1.
        -- cbn in Heq, Hlt. injection Heq as <- Heq. apply (Hbefore pre1); [done|lia].
      * intros [|c1 pre1] rest Heq.
        -- cbn in Heq. by subst rest.
        -- cbn in Heq. injection Heq as <- Heq. by apply (IH pre1).
Qed.

(** The search gives what the pattern finds, and nothing when the
    pattern finds nothing. *)
Lemma _IMDB_RE_search_match (raw : list N) :
  match _IMDB_RE_search isdecimal raw with
  | Some m => imdb_match isdecimal raw m
  | None => no_imdb_match isdecimal raw
  end.
Proof.
  pose proof (_IMDB_RE_search_first raw) as H.
  destruct (_IMDB_RE_search isdecimal raw) as [m|].
  - destruct H as (pre & rest & -> & Hm & Hbefore).
    apply _IMDB_RE_match_found in Hm as (ds & post & -> & -> & Hd & Hl & Hg).
    exists pre, ds, post. split; [done|]. split; [done|]. split; [done|].
    split; [done|]. split; [done|].
    intros pre' ds' post' Heq Hd' Hl'.
    destruct (decide (length pre <= length pre')) as [|Hlt]; [done|]. exfalso.
    assert (_IMDB_RE_match isdecimal (cps "tt" ++ ds' ++ post') = None) as Hnone.
    { apply (Hbefore pre'); [done|lia]. }
    destruct (_IMDB_RE_match_run ds' post' Hd' Hl') as [m' Hm']. congruence.
  - intros pre ds post Heq Hd.
    destruct (decide (length ds < 3)) as [|Hge]; [done|]. exfalso.
    destruct (_IMDB_RE_match_run ds post Hd ltac:(lia)) as [m' Hm'].
    rewrite (H pre _ Heq) in Hm'. done.
Qed.

End pattern.

(** *** The chosen root *)

Lemma likely_test (e : Element) :
  ueqb (tag e) (cps "movie") || ueqb (tag e) (cps "tvshow") ||
  ueqb (tag e) (cps "episodedetails") = true <-> likely e.
Proof.
  unfold likely. rewrite !orb_true_iff, !ueqb_eq. tauto.
Qed.

Lemma choose_root_chosen (parsed : Element) : chosen parsed (choose_root parsed).
Proof.
  unfold choose_root, chosen.
  destruct (ueqb (tag parsed) (cps "root")) eqn:Hroot.
  - right. split; [by apply ueqb_eq|].
    pose proof (find_first (fun child =>
      ueqb (tag child) (cps "movie") || ueqb (tag child) (cps "tvshow") ||
      ueqb (tag child) (cps "episodedetails")) (children parsed)) as Hfind.
    destruct (List.find _ _) as [child|].
    + left. destruct Hfind as (before & after & Hch & Hb & Hc).
      exists before, after. split; [done|]. split; [|by apply likely_test].
      eapply Forall_impl; [exact Hb|]. intros e He Hl%likely_test. congruence.
    + right. split; [|done].
      eapply Forall_impl; [exact Hfind|]. intros e He Hl%likely_test. congruence.
  - left. split; [by apply ueqb_neq|done].
Qed.

Lemma imdb_raw_first_text (root : Element) :
  or_else (_text root (cps "imdbid"))
    (or_else (_text root (cps "imdb_id"))
       (or_else (_text root (cps "imdb"))
          (or_else (_text root (cps "id")) (_text root (cps "uniqueid")))))
  = first_text root id_fields.
Proof.
  cbn [first_text id_fields]. unfold or_else.
  by repeat (match goal with |- context [_text root ?f] =>
               destruct (_text root f) end).
Qed.

(** C9: for every document, [parse_nfo] raises exactly when the text
    parses neither as it is nor inside the wrapper; otherwise the
    identifier is read from the node chosen in the parsed document,
    where the candidate is the first non-empty text, without the white
    space around it, among the fields imdbid, imdb_id, imdb, id,
    uniqueid, in that order: the identifier is what the pattern [tt] and
    three to ten digits finds in that candidate, leftmost and with as
    many digits as stand there, and it is absent exactly when no field
    holds a candidate or the pattern finds nothing in the candidate; and
    the document with the identifier in [id] and no [imdbid] yields
    tt0078748. *)
Theorem parse_nfo_imdbid (isdecimal : N -> bool)
    (fromstring : list N -> option Element) (xml_text : list N) :
  let doc := lstrip_by (fun c => existsb (N.eqb c) leading_blanks) xml_text in
  match parse_nfo isdecimal fromstring xml_text with
  | Raise _ =>
      fromstring doc = None /\
      fromstring (cps "<root>" ++ doc ++ cps "</root>") = None
  | Ok info =>
      exists parsed root,
        (fromstring doc = Some parsed \/
         (fromstring doc = None /\
          fromstring (cps "<root>" ++ doc ++ cps "</root>") = Some parsed)) /\
        chosen parsed root /\
        match imdbid info with
        | Some m => exists raw, first_nonempty root raw /\ imdb_match isdecimal raw m
        | None =>
            (forall raw, ~ first_nonempty root raw) \/
            (exists raw, first_nonempty root raw /\ no_imdb_match isdecimal raw)
        end
  end /\
  ((forall n, (48 <= n)%N -> (n <= 57)%N -> isdecimal n = true) ->
   fromstring doc = Some alien ->
   exists info, parse_nfo isdecimal fromstring xml_text = Ok info /\
                imdbid info = Some (cps "tt0078748")).
Proof.
  intros doc. split.
  - unfold parse_nfo. fold doc.
    assert (forall parsed,
      exists root, chosen parsed root /\
        match imdbid (nfo_of_root isdecimal (choose_root parsed)) with
        | Some m => exists raw, first_nonempty root raw /\ imdb_match isdecimal raw m
        | None =>
            (forall raw, ~ first_nonempty root raw) \/
            (exists raw, first_nonempty root raw /\ no_imdb_match isdecimal raw)
        end) as Hbody.
    { intros parsed. exists (choose_root parsed). split; [apply choose_root_chosen|].
      unfold nfo_of_root. cbn [imdbid]. rewrite imdb_raw_first_text.
      pose proof (first_text_nonempty (choose_root parsed)) as Hfirst.
      destruct (first_text (choose_root parsed) id_fields) as [raw|]; [|by left].
      pose proof (_IMDB_RE_search_match isdecimal raw) as Hsearch.
      destruct (_IMDB_RE_search isdecimal raw) as [m|].
      - by exists raw.
      - right. by exists raw. }
    destruct (fromstring doc) as [parsed|] eqn:Hdoc.
    + destruct (Hbody parsed) as (root & Hroot & Hid).
      exists parsed, root. split; [by left|done].
    + destruct (fromstring (cps "<root>" ++ doc ++ cps "</root>")) as [parsed|] eqn:Hw.
      * destruct (Hbody parsed) as (root & Hroot & Hid).
        exists parsed, root. split; [by right|done].
      * done.
  - intros Hascii Hdoc. unfold parse_nfo. fold doc. rewrite Hdoc.
    eexists. split; [reflexivity|].
    unfold nfo_of_root. cbn [imdbid].
    change (choose_root alien) with alien.
    change (or_else _ _) with (Some (cps "tt0078748")).
    change (cps "tt0078748") with [116; 116; 48; 48; 55; 56; 55; 52; 56]%N.
    cbn [_IMDB_RE_search _IMDB_RE_match take_digits N.eqb Pos.eqb andb].
    rewrite !Hascii by lia. reflexivity.
Qed.

Lemma parse_nfo_imdbid_witness :
  exists info,
    parse_nfo ascii_digit (fun _ => Some alien) (cps "<movie/>") = Ok info /\
    imdbid info = Some (cps "tt0078748").
Proof.
  apply (proj2 (parse_nfo_imdbid ascii_digit (fun _ => Some alien) (cps "<movie/>"))).
  - intros n H1 H2. unfold ascii_digit.
    apply andb_true_iff. split; by apply N.leb_le.
  - reflexivity.
Defined.

(** A text with full-width digits: they are decimal digits of the
    Unicode database, so with a digit class that holds them the
    identifier is made of them. *)
Lemma parse_nfo_full_width_digits :
  _IMDB_RE_search (fun n => ascii_digit n || (65296 <=? n) && (n <=? 65305))%N
    ([116; 116; 65297; 65298; 65299; 65300]%N)
  = Some [116; 116; 65297; 65298; 65299; 65300]%N.
Proof. reflexivity. Qed.

End Nfo.

(** ** [jfo/infra/index_update.py]

    The table [files] of the SQLite index is a list of rows in rowid
    order with pairwise distinct paths (the primary key).  The SQL
    statements of [apply_plan_to_index] are functions on that list; a
    violated primary key raises [IntegrityError], which leaves the
    function, so nothing is committed. *)

Module IndexUpdate.
Import PyStr Operations PlanModel.

Record row : Type := mkRow {
  r_path : string;
  r_dir : string;
  r_name : string;
  r_ext : string;
  r_root : string;
  r_scanned_at : Z
}.

Inductive IntegrityError : Type := IntegrityError_raised.

Record IndexUpdateStats : Type := mkStats {
  inserted : nat;
  deleted : nat;
  updated_prefix : nat
}.

(** [_split_remote_path]: directory, name and extension. *)
Definition _split_remote_path (path : string) : string * string * string :=
  let '(d, name) :=
    match rsplit1 "/" path with
    | None => ("/", path)
    | Some (d, name) => (if truthy d then d else "/", name)
    end in
  let ext :=
    if contains_char "." name
    then lower (match rsplit1 "." name with Some (_, e) => e | None => name end)
    else EmptyString in
  (d, name, ext).

(** [_normalize_root_marker]. *)
Definition _normalize_root_marker (root : string) : string :=
  let r := rstrip "/" (PurePosixPath.normalize root) in
  if truthy r then r else "/".

(** [_pick_root_for_path]. *)
Definition _pick_root_for_path (path : string) (roots : list string) : option string :=
  let p := PurePosixPath.normalize path in
  List.find (fun r =>
    let rr := _normalize_root_marker r in
    String.eqb p rr || startswith p (rr +:+ "/")) roots.

(** *** The SQL operators *)

(** ASCII case folding of [LIKE]. *)
Definition sql_lower (c : ascii) : ascii :=
  let n := code c in
  if ((65 <=? n) && (n <=? 90))%N then ascii_of_N (n + 32) else c.

(** [s LIKE pat] without an escape character: a percent sign matches any
    run of characters, an underscore any one character, and every other
    character itself, ASCII letters without regard to case. *)
Fixpoint sql_like (pat : string) (s : string) : bool :=
  match pat with
  | EmptyString => negb (truthy s)
  | String pc pat' =>
      if Ascii.eqb pc "%" then
        (fix any (s0 : string) : bool :=
           sql_like pat' s0 ||
           match s0 with
           | EmptyString => false
           | String _ s1 => any s1
           end) s
      else
        match s with
        | EmptyString => false
        | String c s' =>
            (Ascii.eqb pc "_" || Ascii.eqb (sql_lower pc) (sql_lower c))
            && sql_like pat' s'
        end
  end.

(** [REPLACE(x, y, z)]: every occurrence of [y], leftmost first; [x]
    itself when [y] is empty. *)
Definition sql_replace (x y z : string) : string :=
  match y with
  | EmptyString => x
  | _ => replace_go y z 0 x
  end.

(** *** The statements *)

(** [SELECT root FROM files WHERE path=?], [fetchone]. *)
Definition sel_root (db : list row) (path : string) : option string :=
  r_root <$> List.find (fun r => String.eqb (r_path r) path) db.

(** [SELECT 1 FROM files WHERE path LIKE ? LIMIT 1], [fetchone] is not
    [None]. *)
Definition sel_any_prefix (db : list row) (pat : string) : bool :=
  existsb (fun r => sql_like pat (r_path r)) db.

(** [DELETE FROM files WHERE path=?]. *)
Definition del_path (db : list row) (path : string) : list row :=
  List.filter (fun r => negb (String.eqb (r_path r) path)) db.

(** [INSERT ... ON CONFLICT(path) DO UPDATE SET ...]. *)
Fixpoint upsert (db : list row) (new : row) : list row :=
  match db with
  | [] => [new]
  | r :: db' =>
      if String.eqb (r_path r) (r_path new) then new :: db'
      else r :: upsert db' new
  end.

(** The new values of a row under [upd_prefix]. *)
Definition upd_prefix_row (src_prefix dst_prefix src_dir dst_dir : string) (ts : Z)
    (r : row) : row :=
  mkRow (sql_replace (r_path r) src_prefix dst_prefix)
        (if String.eqb (r_dir r) src_dir then dst_dir
         else sql_replace (r_dir r) src_prefix dst_prefix)
        (r_name r) (r_ext r) (r_root r) ts.

(** The [UPDATE] row by row in rowid order: [before] holds the rows
    already visited, [todo] the rows to visit, [n] the rows changed so
    far.  A new path that another row has violates the primary key. *)
Fixpoint upd_prefix_go (src_prefix dst_prefix src_dir dst_dir : string) (ts : Z)
    (pat : string) (before todo : list row) (n : nat)
  : result IntegrityError (list row * nat) :=
  match todo with
  | [] => Ok (before, n)
  | r :: todo' =>
      if sql_like pat (r_path r) then
        let r' := upd_prefix_row src_prefix dst_prefix src_dir dst_dir ts r in
        if existsb (fun o => String.eqb (r_path o) (r_path r')) (before ++ todo')
        then Raise IntegrityError_raised
        else upd_prefix_go src_prefix dst_prefix src_dir dst_dir ts pat
               (before ++ [r']) todo' (S n)
      else upd_prefix_go src_prefix dst_prefix src_dir dst_dir ts pat
             (before ++ [r]) todo' n
  end.

(** [conn.execute(upd_prefix, ...)]: the table afterwards and
    [res.rowcount]. *)
Definition upd_prefix (db : list row) (src_prefix dst_prefix src_dir dst_dir : string)
    (ts : Z) (pat : string) : result IntegrityError (list row * nat) :=
  upd_prefix_go src_prefix dst_prefix src_dir dst_dir ts pat [] db 0.

(** [distinct_roots]: [SELECT DISTINCT root FROM files ORDER BY root
    LIMIT ?]. *)
Definition distinct_roots (db : list row) (limit : nat) : list string :=
  take limit (sorted_by (fun x => x) (remove_dups (List.map r_root db))).

(** Stable sort by a numeric key, largest first, as
    [list.sort(key=..., reverse=True)]. *)
Fixpoint insert_desc {A : Type} (key : A -> nat) (x : A) (l : list A) : list A :=
  match l with
  | [] => [x]
  | y :: l' =>
      if key y <=? key x then x :: y :: l'
      else y :: insert_desc key x l'
  end.

Definition sorted_desc {A : Type} (key : A -> nat) (l : list A) : list A :=
  foldr (insert_desc key) [] l.

(** The root markers: those of the table, then the hints not yet among
    them, longest normalized marker first. *)
Definition root_markers (db : list row) (roots_hint : option (list string))
  : list string :=
  let roots := distinct_roots db 5000 in
  let roots :=
    match roots_hint with
    | Some (h :: hs) =>
        fold_left (fun rs r =>
          if truthy r && negb (existsb (String.eqb r) rs) then rs ++ [r] else rs)
          (h :: hs) roots
    | _ => roots
    end in
  sorted_desc (fun x => String.length (_normalize_root_marker x)) roots.

Definition add_inserted (s : IndexUpdateStats) : IndexUpdateStats :=
  mkStats (S (inserted s)) (deleted s) (updated_prefix s).
Definition add_deleted (s : IndexUpdateStats) : IndexUpdateStats :=
  mkStats (inserted s) (S (deleted s)) (updated_prefix s).
Definition add_updated_prefix (n : nat) (s : IndexUpdateStats) : IndexUpdateStats :=
  mkStats (inserted s) (deleted s) (updated_prefix s + n).

(** One turn of the loop over the selected operations. *)
Definition apply_op (roots : list string) (ts : Z)
    (st : list row * IndexUpdateStats) (op : Operation)
  : result IntegrityError (list row * IndexUpdateStats) :=
  let '(db, stats) := st in
  match kind op with
  | MOVE | RENAME =>
      match src op, dst op with
      | Some src, Some dst =>
          if negb (truthy src) || negb (truthy dst) then Ok st
          else
            match sel_root db src with
            | Some old_root =>
                let db := del_path db src in
                let stats := add_deleted stats in
                let root_for_dst :=
                  match _pick_root_for_path dst roots with
                  | Some r => if truthy r then r else old_root
                  | None => old_root
                  end in
                let '(d, name, ext) := _split_remote_path dst in
                let db := upsert db (mkRow dst d name ext root_for_dst ts) in
                Ok (db, add_inserted stats)
            | None =>
                let src_dir := rstrip "/" (PurePosixPath.normalize src) in
                let dst_dir := rstrip "/" (PurePosixPath.normalize dst) in
                if truthy src_dir && truthy dst_dir && negb (String.eqb src_dir dst_dir)
                then
                  let src_prefix := src_dir +:+ "/" in
                  let dst_prefix := dst_dir +:+ "/" in
                  if sel_any_prefix db (src_prefix +:+ "%") then
                    match upd_prefix db src_prefix dst_prefix src_dir dst_dir ts
                            (src_prefix +:+ "%") with
                    | Raise e => Raise e
                    | Ok (db, rowcount) => Ok (db, add_updated_prefix rowcount stats)
                    end
                  else Ok st
                else Ok st
            end
      | _, _ => Ok st
      end
  | COPY | LINK =>
      match dst op with
      | Some dst =>
          if negb (truthy dst) then Ok st
          else
            let from_src :=
              match src op with
              | Some src =>
                  if truthy src then _pick_root_for_path src roots else None
              | None => None
              end in
            let root_for_dst :=
              match _pick_root_for_path dst roots with
              | Some r => if truthy r then r else or_empty from_src
              | None => or_empty from_src
              end in
            let '(d, name, ext) := _split_remote_path dst in
            Ok (upsert db (mkRow dst d name ext root_for_dst ts), add_inserted stats)
      | None => Ok st
      end
  | MKDIR => Ok st
  end.

Fixpoint apply_ops (roots : list string) (ts : Z)
    (st : list row * IndexUpdateStats) (ops : list Operation)
  : result IntegrityError (list row * IndexUpdateStats) :=
  match ops with
  | [] => Ok st
  | op :: ops' =>
      match apply_op roots ts st op with
      | Raise e => Raise e
      | Ok st' => apply_ops roots ts st' ops'
      end
  end.

(** [apply_plan_to_index], run at time [ts] on the table [db]: the
    committed table and the statistics. *)
Definition apply_plan_to_index (h : store) (plan : Plan)
    (roots_hint : option (list string)) (ts : Z) (db : list row)
  : result IntegrityError (list row * IndexUpdateStats) :=
  let roots := root_markers db roots_hint in
  apply_ops roots ts (db, mkStats 0 0 0)
    (List.filter selected (plan_operations h plan)).


(** *** The prefix rewrite on a nested directory name *)

(** Literal prefix substitution, as the specification words the rewrite:
    a leading [old] becomes [new], the rest of the text stays. *)
Definition prefix_substitute (old new s : string) : string :=
  if startswith s old then new +:+ drop (String.length old) s else s.

(** A catalog with one file below [/data/backup/data], and the plan that
    renames the folder [/data] to [/media]. *)
Definition nested_catalog : list row :=
  [ mkRow "/data/backup/data/film.mkv" "/data/backup/data" "film.mkv" "mkv" "/data" 1 ].

Definition rename_store : store :=
  [ new_operation MOVE (Some "/data") (Some "/media") EmptyString true EmptyString ].

Definition rename_plan : Plan := mkPlan "rename" [0] [].

(** C6 fails on the code: [/data] is no file row and the catalog has a
    row below it, so the prefix rewrite runs; it reports one updated row
    and no insertion or deletion, but [REPLACE] rewrites every occurrence
    of [/data/] in the path, not only the leading one, and stores
    [/media/backup/media/film.mkv] where prefix substitution gives
    [/media/backup/data/film.mkv]. *)
Theorem apply_plan_to_index_rewrites_every_occurrence :
  sel_root nested_catalog "/data" = None /\
  sel_any_prefix nested_catalog "/data/%" = true /\
  apply_plan_to_index rename_store rename_plan None 2 nested_catalog =
    Ok ([ mkRow "/media/backup/media/film.mkv" "/media/backup/data"
            "film.mkv" "mkv" "/data" 2 ],
        mkStats 0 0 1) /\
  prefix_substitute "/data/" "/media/" "/data/backup/data/film.mkv" =
    "/media/backup/data/film.mkv".
Proof. by vm_compute. Qed.

End IndexUpdate.

(** ** Quoted tokens in script lines

    Further facts about [quoting.py] and about the way
    [history.parse_ops_from_script] reads the helper calls its docstring
    lists ([safe_mv SRC DST], [safe_ln SRC DST], [safe_cp SRC DST],
    [safe_mkdir DIR]) when their arguments are [bash_quote] literals. *)

Module ScriptLines.
Import PyStr Operations Quoting Shlex History.

(** [bash_quote] on a list, as [bash_array_literal] runs it: the literal
    of every item. *)
Lemma bash_quote_result (s : string) :
  match bash_quote s with
  | Ok q => q = single_quoted s
  | Raise _ => True
  end.
Proof.
  pose proof (assert_safe_text_spec s "path") as H.
  destruct (assert_safe_text s "path") as [[]|e] eqn:E.
  - by rewrite (bash_quote_ok s E).
  - unfold bash_quote. by rewrite E.
Qed.

(** Every literal [bash_quote] returns decodes to the quoted string,
    whatever characters the string holds. *)
Theorem bash_quote_decodes (s q : string) :
  bash_quote s = Ok q -> split q = Some [s].
Proof.
  intros H. pose proof (bash_quote_result s) as Hq. rewrite H in Hq.
  subst q. apply split_single_quoted.
Qed.

Lemma bash_quote_decodes_witness :
  split (String squote (String "009" (String squote EmptyString)))
  = Some [String "009" EmptyString].
Proof.
  apply (bash_quote_decodes (String "009" EmptyString)). reflexivity.
Defined.

(** Two strings with the same literal are the same string. *)
Theorem bash_quote_injective (s1 s2 q : string) :
  bash_quote s1 = Ok q -> bash_quote s2 = Ok q -> s1 = s2.
Proof.
  intros H1 H2.
  pose proof (bash_quote_result s1) as Hq1. rewrite H1 in Hq1.
  pose proof (bash_quote_result s2) as Hq2. rewrite H2 in Hq2.
  pose proof (split_single_quoted s1) as Hs1. rewrite <- Hq1, Hq2 in Hs1.
  rewrite split_single_quoted in Hs1. congruence.
Qed.

Lemma bash_quote_injective_witness : "a b" = "a b".
Proof.
  apply (bash_quote_injective "a b" "a b" "'a b'"); reflexivity.
Defined.

(** *** Several tokens on a line *)

Lemma lex_escape_each_then (s tok rest : string) (b : bool) :
  lex (St_quote squote) tok b (escape_each s +:+ String squote rest)
  = lex St_word (tok +:+ s) true rest.
Proof.
  revert tok b. induction s as [|c s IH]; intros tok b.
  - rewrite sapp_nil_l, sapp_nil_r. cbn [lex]. by rewrite Ascii.eqb_refl.
  - cbn [escape_each]. destruct (Ascii.eqb c squote) eqn:E.
    + apply Ascii.eqb_eq in E as ->.
      rewrite sapp_assoc, lex_squote_escape, IH.
      unfold snoc. by rewrite sapp_assoc.
    + rewrite sapp_cons. cbn [lex]. rewrite E.
      change (in_escapedquotes squote) with false.
      rewrite andb_false_r, IH. unfold snoc. by rewrite sapp_assoc.
Qed.

(** A literal at the start of a token: the reader is inside a word that
    holds the quoted string. *)
Lemma lex_single_quoted_then (s rest : string) :
  lex St_space EmptyString false (single_quoted s +:+ rest) = lex St_word s true rest.
Proof.
  unfold single_quoted. rewrite sapp_cons, sapp_assoc, sapp_cons, sapp_nil_l.
  cbn [lex].
  change (in_whitespace squote) with false.
  change (in_escape squote) with false.
  change (in_quotes squote) with true. cbv iota.
  by rewrite lex_escape_each_then.
Qed.

Lemma lex_quoted_word_space (tok rest : string) :
  lex St_word tok true (String " " rest) =
  cons tok <$> lex St_space EmptyString false rest.
Proof. cbn [lex]. change (in_whitespace " ") with true. cbv iota. by rewrite orb_true_r. Qed.

(** The literals of a list, joined by spaces, decode to the list. *)
Lemma split_join_single_quoted (items : list string) :
  split (join " " (List.map single_quoted items)) = Some items.
Proof.
  unfold split. induction items as [|x items IH]; [done|].
  destruct items as [|y items].
  - cbn [List.map join]. rewrite <- (sapp_nil_r (single_quoted x)).
    by rewrite lex_single_quoted_then.
  - cbn [List.map join] in *.
    rewrite lex_single_quoted_then, sapp_cons, sapp_nil_l, lex_quoted_word_space.
    by rewrite IH.
Qed.

Lemma bash_array_items_spec (items : list string) :
  match bash_array_items items with
  | Ok qs => qs = List.map single_quoted items
  | Raise _ => exists x, x ∈ items /\ raises (bash_quote x)
  end.
Proof.
  induction items as [|x items IH]; cbn [bash_array_items List.map]; [done|].
  pose proof (bash_quote_result x) as Hx.
  destruct (bash_quote x) as [q|e] eqn:Eq.
  - destruct (bash_array_items items) as [qs|e'].
    + by rewrite Hx, IH.
    + destruct IH as (y & Hy & Hr). exists y. split; [|done].
      apply elem_of_cons. by right.
  - exists x. split; [apply elem_of_cons; by left|]. by rewrite Eq.
Qed.

(** [bash_array_literal] either refuses an item that [bash_quote]
    refuses, or returns the items' literals between parentheses, and
    the text between the parentheses decodes to the items. *)
Theorem bash_array_literal_decodes (items : list string) :
  match bash_array_literal items with
  | Ok lit => exists body, lit = "(" +:+ body +:+ ")" /\ split body = Some items
  | Raise _ => exists x, x ∈ items /\ raises (bash_quote x)
  end.
Proof.
  unfold bash_array_literal. pose proof (bash_array_items_spec items) as H.
  destruct (bash_array_items items) as [qs|e]; [|done].
  subst qs. eexists. split; [reflexivity|]. apply split_join_single_quoted.
Qed.

(** *** Helper calls *)

(** A helper call with two quoted arguments, and with one. *)
Definition call2 (cmd a b : string) : string :=
  cmd +:+ " " +:+ single_quoted a +:+ " " +:+ single_quoted b.

Definition call1 (cmd a : string) : string :=
  cmd +:+ " " +:+ single_quoted a.

Lemma rstrip_with_last (f : ascii -> bool) (s : string) (c : ascii) :
  f c = false ->
  rstrip_with f (s +:+ String c EmptyString) = s +:+ String c EmptyString.
Proof.
  intros Hc. induction s as [|a s IH].
  - rewrite sapp_nil_l. cbn. by rewrite Hc.
  - rewrite sapp_cons. cbn [rstrip_with]. rewrite IH.
    destruct s; by rewrite ?sapp_nil_l, ?sapp_cons.
Qed.

Lemma single_quoted_last (s : string) :
  exists body, single_quoted s = body +:+ String squote EmptyString.
Proof. unfold single_quoted. exists (String squote (escape_each s)). by rewrite sapp_cons. Qed.

(** A text that starts with a letter of a helper name and ends with a
    single quote is its own [strip]. *)
Lemma strip_call (c : ascii) (mid : string) :
  is_space c = false ->
  strip (String c (mid +:+ String squote EmptyString)) =
  String c (mid +:+ String squote EmptyString).
Proof.
  intros Hc. unfold strip. cbn [lstrip_with]. rewrite Hc.
  rewrite <- sapp_cons. by apply rstrip_with_last.
Qed.

Lemma op_of_line_parts (line : string) (parts : list string) (op : Operation) :
  strip line = line -> truthy line = true ->
  startswith line "#" = false -> startswith line "safe_" = true ->
  split line = Some parts -> op_of_parts parts = Some op ->
  op_of_line line = Some op.
Proof.
  intros Hs Ht Hh Hsafe Hsplit Hop. unfold op_of_line.
  by rewrite Hs, Ht, Hh, Hsafe, Hsplit.
Qed.

Lemma call2_form (c : ascii) (cmd' a b : string) :
  exists mid, call2 (String c cmd') a b = String c (mid +:+ String squote EmptyString).
Proof.
  destruct (single_quoted_last b) as [body Hb].
  exists (cmd' +:+ " " +:+ single_quoted a +:+ " " +:+ body).
  unfold call2. rewrite Hb, sapp_cons. f_equal. by rewrite !sapp_assoc.
Qed.

Lemma call1_form (c : ascii) (cmd' a : string) :
  exists mid, call1 (String c cmd') a = String c (mid +:+ String squote EmptyString).
Proof.
  destruct (single_quoted_last a) as [body Ha].
  exists (cmd' +:+ " " +:+ body).
  unfold call1. rewrite Ha, sapp_cons. f_equal. by rewrite !sapp_assoc.
Qed.

Lemma split_call2 (cmd a b : string) :
  (forall rest, lex St_space EmptyString false (cmd +:+ String " " rest) =
                cons cmd <$> lex St_space EmptyString false rest) ->
  split (call2 cmd a b) = Some [cmd; a; b].
Proof.
  intros Hlex. unfold split, call2.
  rewrite sapp_cons, sapp_nil_l, Hlex, lex_single_quoted_then.
  rewrite sapp_cons, sapp_nil_l, lex_quoted_word_space.
  rewrite <- (sapp_nil_r (single_quoted b)), lex_single_quoted_then.
  reflexivity.
Qed.

Lemma split_call1 (cmd a : string) :
  (forall rest, lex St_space EmptyString false (cmd +:+ String " " rest) =
                cons cmd <$> lex St_space EmptyString false rest) ->
  split (call1 cmd a) = Some [cmd; a].
Proof.
  intros Hlex. unfold split, call1.
  rewrite sapp_cons, sapp_nil_l, Hlex.
  rewrite <- (sapp_nil_r (single_quoted a)), lex_single_quoted_then.
  reflexivity.
Qed.

Lemma op_of_line_safe_mv (a b : string) :
  op_of_line (call2 "safe_mv" a b) =
    Some (new_operation MOVE (Some a) (Some b) EmptyString true EmptyString).
Proof.
  destruct (call2_form "s" "afe_mv" a b) as [mid Hf].
  apply (op_of_line_parts _ ["safe_mv"; a; b]); try reflexivity.
  - rewrite Hf. by apply strip_call.
  - by apply split_call2.
Qed.

(** A line that holds one helper call with quoted arguments is read as
    the operation of that helper, whatever the arguments are. *)
Theorem op_of_line_helpers (a b : string) :
  op_of_line (call2 "safe_mv" a b) =
    Some (new_operation MOVE (Some a) (Some b) EmptyString true EmptyString) /\
  op_of_line (call2 "safe_ln" a b) =
    Some (new_operation LINK (Some a) (Some b) EmptyString true EmptyString) /\
  op_of_line (call2 "safe_cp" a b) =
    Some (new_operation COPY (Some a) (Some b) EmptyString true EmptyString) /\
  op_of_line (call1 "safe_mkdir" a) =
    Some (new_operation MKDIR None (Some a) EmptyString true EmptyString).
Proof.
  repeat split.
  - apply op_of_line_safe_mv.
  - destruct (call2_form "s" "afe_ln" a b) as [mid Hf].
    apply (op_of_line_parts _ ["safe_ln"; a; b]); try reflexivity.
    + rewrite Hf. by apply strip_call.
    + by apply split_call2.
  - destruct (call2_form "s" "afe_cp" a b) as [mid Hf].
    apply (op_of_line_parts _ ["safe_cp"; a; b]); try reflexivity.
    + rewrite Hf. by apply strip_call.
    + by apply split_call2.
  - destruct (call1_form "s" "afe_mkdir" a) as [mid Hf].
    apply (op_of_line_parts _ ["safe_mkdir"; a]); try reflexivity.
    + rewrite Hf. by apply strip_call.
    + by apply split_call1.
Qed.


(** *** Scripts of several lines *)

Definition has_linebreak (s : string) : bool := existsb is_linebreak (chars s).

Definition LF : ascii := "010"%char.

Lemma splitlines_go_line (cur s rest : string) :
  has_linebreak s = false ->
  splitlines_go false cur (s +:+ String LF rest) =
  (cur +:+ s) :: splitlines_go false EmptyString rest.
Proof.
  revert cur. induction s as [|c s IH]; intros cur Hs.
  - rewrite sapp_nil_l, sapp_nil_r. reflexivity.
  - cbn in Hs. apply orb_false_iff in Hs as [Hc Hs].
    rewrite sapp_cons. cbn [splitlines_go andb]. rewrite Hc, IH by done.
    by rewrite sapp_assoc.
Qed.

Lemma splitlines_go_last (cur s : string) :
  has_linebreak s = false ->
  splitlines_go false cur s =
  if truthy (cur +:+ s) then [cur +:+ s] else [].
Proof.
  revert cur. induction s as [|c s IH]; intros cur Hs.
  - rewrite sapp_nil_r. by destruct cur.
  - cbn in Hs. apply orb_false_iff in Hs as [Hc Hs].
    cbn [splitlines_go andb]. rewrite Hc, IH by done.
    by rewrite sapp_assoc.
Qed.

Lemma op_of_line_empty : op_of_line EmptyString = None.
Proof. reflexivity. Qed.

Lemma parse_joined_lines (lines : list string) :
  Forall (fun l => has_linebreak l = false) lines ->
  parse_ops_from_script (join (String LF EmptyString) lines) = omap op_of_line lines.
Proof.
  unfold parse_ops_from_script, splitlines.
  induction 1 as [|x lines Hx Hl IH]; [done|].
  destruct lines as [|y lines].
  - cbn [join omap list_omap]. rewrite splitlines_go_last, sapp_nil_l by done.
    destruct x as [|c x]; [done|]. reflexivity.
  - cbn [join] in *. rewrite sapp_cons, sapp_nil_l, splitlines_go_line by done.
    rewrite sapp_nil_l. cbn [omap list_omap]. by rewrite IH.
Qed.

(** [parse_ops_from_script] reads a script line by line: for lines that
    hold no line-break character, joined by LF, the result is made of the
    operations of the lines, in order. *)
Theorem parse_ops_from_script_lines (lines : list string) :
  Forall (fun l => has_linebreak l = false) lines ->
  parse_ops_from_script (join (String LF EmptyString) lines) = omap op_of_line lines.
Proof. apply parse_joined_lines. Qed.

Lemma parse_ops_from_script_lines_witness :
  parse_ops_from_script (join (String LF EmptyString) ["# moves"; "safe_mv '/a' '/b'"])
  = omap op_of_line ["# moves"; "safe_mv '/a' '/b'"].
Proof.
  apply (parse_ops_from_script_lines ["# moves"; "safe_mv '/a' '/b'"]).
  repeat constructor.
Defined.

Lemma has_linebreak_app (s t : string) :
  has_linebreak (s +:+ t) = has_linebreak s || has_linebreak t.
Proof.
  unfold has_linebreak. induction s as [|c s IH]; [done|].
  rewrite sapp_cons. cbn. by rewrite IH, orb_assoc.
Qed.

Lemma has_linebreak_escape_each (s : string) :
  has_linebreak (escape_each s) = has_linebreak s.
Proof.
  induction s as [|c s IH]; [done|]. cbn [escape_each].
  destruct (Ascii.eqb c squote) eqn:E.
  - apply Ascii.eqb_eq in E as ->. rewrite has_linebreak_app, IH. reflexivity.
  - unfold has_linebreak in *. cbn. by rewrite IH.
Qed.

Lemma has_linebreak_single_quoted (s : string) :
  has_linebreak (single_quoted s) = has_linebreak s.
Proof.
  unfold single_quoted.
  change (has_linebreak (String squote (escape_each s +:+ String squote EmptyString)))
    with (has_linebreak (escape_each s +:+ String squote EmptyString)).
  rewrite has_linebreak_app, has_linebreak_escape_each. apply orb_false_r.
Qed.

(** The script of one [safe_mv] call per pair, joined by LF. *)
Definition move_script (pairs : list (string * string)) : string :=
  join (String LF EmptyString) (List.map (fun '(a, b) => call2 "safe_mv" a b) pairs).

(** A script of [safe_mv] calls with quoted arguments decodes to the
    moves, in order, when no argument holds a line-break character. *)
Theorem parse_ops_from_move_script (pairs : list (string * string)) :
  Forall (fun '(a, b) => has_linebreak a = false /\ has_linebreak b = false) pairs ->
  parse_ops_from_script (move_script pairs) =
  List.map (fun '(a, b) =>
    new_operation MOVE (Some a) (Some b) EmptyString true EmptyString) pairs.
Proof.
  intros Hp. unfold move_script. rewrite parse_joined_lines.
  - clear Hp. induction pairs as [|[a b] pairs IH]; [done|].
    cbn [List.map omap list_omap].
    by rewrite op_of_line_safe_mv, IH.
  - induction Hp as [|[a b] pairs [Ha Hb] _ IH]; [constructor|].
    cbn [List.map]. constructor; [|done].
    unfold call2. rewrite !has_linebreak_app, !has_linebreak_single_quoted, Ha, Hb.
    reflexivity.
Qed.

Lemma parse_ops_from_move_script_witness :
  parse_ops_from_script (move_script [("/a b", "/c'd"); ("/x", "/y")]) =
  [ new_operation MOVE (Some "/a b") (Some "/c'd") EmptyString true EmptyString;
    new_operation MOVE (Some "/x") (Some "/y") EmptyString true EmptyString ].
Proof.
  apply (parse_ops_from_move_script [("/a b", "/c'd"); ("/x", "/y")]).
  repeat constructor.
Defined.

(** An argument with a line feed is accepted by [bash_quote] but its
    helper call is cut in two by [splitlines], and no operation is read. *)
Lemma parse_ops_from_script_line_feed :
  bash_quote (String "a" (String LF "b")) = Ok (single_quoted (String "a" (String LF "b"))) /\
  parse_ops_from_script (call2 "safe_mv" (String "a" (String LF "b")) "/y") = [].
Proof. split; reflexivity. Qed.

End ScriptLines.

(** ** Further facts about [plan.py] *)

Module PlanFacts.
Import PyStr Operations OrderedDict PlanModel.

(** *** What [detect_destination_collisions] reports *)

Lemma by_dst_step_keys (h : store) (d : list (string * list ref)) (r : ref) :
  NoDup (List.map fst d) -> NoDup (List.map fst (by_dst_step h d r)).
Proof.
  intros Hd. unfold by_dst_step. destruct (h !! r) as [op|]; [|done].
  destruct (dst op) as [k|]; [|done]. destruct (truthy k); [|done].
  by apply keys_setdefault_NoDup.
Qed.

Lemma by_dst_keys (h : store) (rs : list ref) (d : list (string * list ref)) :
  NoDup (List.map fst d) -> NoDup (List.map fst (fold_left (by_dst_step h) rs d)).
Proof.
  revert d. induction rs as [|r rs IH]; intros d Hd; [done|].
  cbn [fold_left]. by apply IH, by_dst_step_keys.
Qed.

Lemma filter_keys_NoDup {V : Type} (f : string * V -> bool) (d : list (string * V)) :
  NoDup (List.map fst d) -> NoDup (List.map fst (List.filter f d)).
Proof.
  induction d as [|[k v] d IH]; [done|]. cbn [List.map List.filter fst].
  intros [Hk Hd]%NoDup_cons. destruct (f (k, v)); [|by apply IH].
  cbn [List.map fst]. apply NoDup_cons. split; [|by apply IH].
  intros Hin. apply Hk. apply list_elem_of_fmap in Hin as ([k' v'] & -> & Hin).
  apply list_elem_of_In, filter_In in Hin as [Hin _].
  apply list_elem_of_fmap. exists (k', v'). split; [done|by apply list_elem_of_In].
Qed.

Lemma targets_spec (h : store) (d : string) (r : ref) :
  targets h d r = true <->
  exists op, h !! r = Some op /\ dst op = Some d /\ d <> EmptyString.
Proof.
  unfold targets. split.
  - destruct (h !! r) as [op|]; [|done]. destruct (dst op) as [k|] eqn:Hd; [|done].
    intros [Hk ->%String.eqb_eq]%andb_true_iff. exists op.
    split; [done|]. split; [done|]. by intros ->.
  - intros (op & -> & -> & Hne). rewrite String.eqb_refl, andb_true_r. by destruct d.
Qed.

Lemma collision_groups (h : store) (self : Plan) :
  NoDup (List.map fst (detect_destination_collisions h self)) /\
  forall d ops, (d, ops) ∈ detect_destination_collisions h self ->
    d <> EmptyString /\ 2 <= length ops /\
    ops = List.filter (targets h d) (selected_operations h self) /\
    forall r, r ∈ ops ->
      r ∈ operations self /\
      exists op, h !! r = Some op /\ selected op = true /\ dst op = Some d.
Proof.
  unfold detect_destination_collisions.
  set (by_dst := fold_left _ _ _).
  assert (NoDup (List.map fst by_dst)) as Hkeys.
  { apply by_dst_keys. cbn. apply NoDup_nil_2. }
  split; [by apply filter_keys_NoDup|].
  intros d ops [Hin Hlen]%list_elem_of_In%filter_In.
  apply Nat.ltb_lt in Hlen. apply list_elem_of_In in Hin.
  assert (ops = List.filter (targets h d) (selected_operations h self)) as Hops.
  { rewrite <- (group_item d ops by_dst Hkeys Hin). unfold by_dst.
    by rewrite group_by_dst. }
  assert (forall r, r ∈ ops ->
            r ∈ operations self /\
            exists op, h !! r = Some op /\ selected op = true /\ dst op = Some d /\
                       d <> EmptyString) as Hmem.
  { intros r. rewrite Hops. unfold selected_operations.
    intros [[Hr Hs]%filter_In Ht]%list_elem_of_In%filter_In.
    split; [by apply list_elem_of_In|].
    apply targets_spec in Ht as (op & Hop & Hd & Hne). exists op.
    unfold is_selected in Hs. rewrite Hop in Hs. done. }
  split; [|split; [lia|split; [done|]]].
  - destruct ops as [|r ops']; [cbn in Hlen; lia|].
    destruct (Hmem r) as (_ & op & _ & _ & _ & Hne); [|done].
    apply elem_of_cons. by left.
  - intros r Hr. destruct (Hmem r Hr) as (? & op & ? & ? & ? & _). eauto.
Qed.

(** Every reported group has a non-empty destination as its key and at
    least two members; its members are, in plan order, the selected
    operations with that destination; and no destination is reported
    twice. *)
Theorem detect_destination_collisions_sound (h : store) (self : Plan) :
  NoDup (List.map fst (detect_destination_collisions h self)) /\
  forall d ops, (d, ops) ∈ detect_destination_collisions h self ->
    d <> EmptyString /\ 2 <= length ops /\
    ops = List.filter (targets h d) (selected_operations h self) /\
    forall r, r ∈ ops ->
      r ∈ operations self /\
      exists op, h !! r = Some op /\ selected op = true /\ dst op = Some d.
Proof. apply collision_groups. Qed.

(** *** Plans without shared destinations *)

(** The non-empty destination of the operation behind [r], when it is
    selected. *)
Definition selected_dst (h : store) (r : ref) : option string :=
  match h !! r with
  | Some op =>
      if selected op then
        match dst op with
        | Some d => if truthy d then Some d else None
        | None => None
        end
      else None
  | None => None
  end.

(** The non-empty destinations of the selected operations, in plan order. *)
Definition selected_destinations (h : store) (self : Plan) : list string :=
  omap (selected_dst h) (operations self).

Lemma selected_dst_targets (h : store) (d : string) (r : ref) :
  is_selected h r && targets h d r =
  match selected_dst h r with
  | Some k => String.eqb d k
  | None => false
  end.
Proof.
  unfold is_selected, targets, selected_dst.
  destruct (h !! r) as [op|]; [|done].
  destruct (selected op); [|done]. cbn [andb].
  destruct (dst op) as [k|]; [|done].
  destruct (truthy k); [|done]. cbn [andb]. apply String.eqb_sym.
Qed.

Lemma targets_selected_count (h : store) (d : string) (rs : list ref) :
  length (List.filter (targets h d) (List.filter (is_selected h) rs)) =
  length (List.filter (String.eqb d) (omap (selected_dst h) rs)).
Proof.
  induction rs as [|r rs IH]; [done|].
  cbn [List.filter omap list_omap].
  pose proof (selected_dst_targets h d r) as H.
  destruct (is_selected h r); cbn [andb] in H.
  - cbn [List.filter]. rewrite H.
    destruct (selected_dst h r) as [k|]; [|exact IH].
    cbn [List.filter]. destruct (String.eqb d k); cbn [length]; by rewrite IH.
  - destruct (selected_dst h r) as [k|]; [|exact IH].
    cbn [List.filter]. by rewrite <- H.
Qed.

Lemma NoDup_filter_eqb (d : string) (l : list string) :
  NoDup l -> length (List.filter (String.eqb d) l) <= 1.
Proof.
  induction l as [|x l IH]; [cbn; lia|].
  intros [Hx Hl]%NoDup_cons. cbn [List.filter].
  destruct (String.eqb d x) eqn:E; [|by apply IH].
  apply String.eqb_eq in E as <-. cbn [length].
  assert (List.filter (String.eqb d) l = []) as ->; [|cbn; lia].
  destruct (List.filter (String.eqb d) l) as [|y ys] eqn:Ef; [done|].
  assert (In y (List.filter (String.eqb d) l)) as Hy by (rewrite Ef; by left).
  apply filter_In in Hy as [Hy ->%String.eqb_eq]. exfalso. apply Hx.
  by apply list_elem_of_In.
Qed.

(** When the selected operations have pairwise distinct non-empty
    destinations, no collision is reported and
    [apply_collision_warnings] changes neither the operations nor the plan. *)
Theorem apply_collision_warnings_distinct (h : store) (self : Plan) :
  NoDup (selected_destinations h self) ->
  detect_destination_collisions h self = [] /\
  apply_collision_warnings h self = (h, self).
Proof.
  intros Hnd.
  assert (detect_destination_collisions h self = []) as Hdet.
  { destruct (detect_destination_collisions h self) as [|[d ops] cs] eqn:E; [done|].
    destruct (collision_groups h self) as [_ Hs].
    destruct (Hs d ops) as (_ & Hlen & Hops & _).
    { rewrite E. apply elem_of_cons. by left. }
    rewrite Hops in Hlen. unfold selected_operations in Hlen.
    rewrite targets_selected_count in Hlen.
    pose proof (NoDup_filter_eqb d _ Hnd) as Hle.
    unfold selected_destinations in Hle. lia. }
  split; [done|]. unfold apply_collision_warnings. by rewrite Hdet.
Qed.

Lemma apply_collision_warnings_distinct_witness :
  detect_destination_collisions
    [ new_operation MOVE (Some "/a") (Some "/x") EmptyString true EmptyString;
      new_operation MOVE (Some "/b") (Some "/y") EmptyString true EmptyString ]
    (mkPlan "t" [0; 1] []) = [] /\
  apply_collision_warnings
    [ new_operation MOVE (Some "/a") (Some "/x") EmptyString true EmptyString;
      new_operation MOVE (Some "/b") (Some "/y") EmptyString true EmptyString ]
    (mkPlan "t" [0; 1] []) =
  ([ new_operation MOVE (Some "/a") (Some "/x") EmptyString true EmptyString;
     new_operation MOVE (Some "/b") (Some "/y") EmptyString true EmptyString ],
   mkPlan "t" [0; 1] []).
Proof.
  apply apply_collision_warnings_distinct.
  apply (bool_decide_unpack _). vm_compute. exact I.
Defined.

(** *** What [apply_collision_warnings] leaves alone *)

Lemma annotate_other (d : string) (h : store) (r r0 : ref) :
  r0 <> r -> annotate d h r0 !! r = h !! r.
Proof.
  intros Hne. unfold annotate. destruct (h !! r0); [|done].
  by rewrite list_lookup_insert_ne.
Qed.

Lemma annotate_fold_other (d : string) (ops : list ref) (h : store) (r : ref) :
  r ∉ ops -> fold_left (annotate d) ops h !! r = h !! r.
Proof.
  revert h. induction ops as [|r0 ops IH]; intros h Hr; [done|].
  apply not_elem_of_cons in Hr as [Hne Hr]. cbn [fold_left].
  rewrite IH by done. by apply annotate_other.
Qed.

Lemma annotate_all_other (cs : list (string * list ref)) (h : store) (r : ref) :
  (forall d ops, (d, ops) ∈ cs -> r ∉ ops) -> annotate_all h cs !! r = h !! r.
Proof.
  unfold annotate_all. revert h.
  induction cs as [|[d ops] cs IH]; intros h Hr; [done|].
  cbn [fold_left]. rewrite IH.
  - apply annotate_fold_other. apply (Hr d). apply elem_of_cons. by left.
  - intros d' ops' Hin. apply (Hr d'). apply elem_of_cons. by right.
Qed.

(** [apply_collision_warnings] writes warnings only: kind, source,
    destination, detail, selection and identifier of every stored
    operation stay, as do the title and the operations of the plan; the
    plan keeps its earlier warnings in front; and an operation outside
    every collision group is not touched at all. *)
Theorem apply_collision_warnings_frame (h : store) (self : Plan) :
  let '(h', self') := apply_collision_warnings h self in
  List.map History.core h' = List.map History.core h /\
  title self' = title self /\
  operations self' = operations self /\
  (exists more, warnings self' = warnings self ++ more) /\
  forall r, (forall d ops, (d, ops) ∈ detect_destination_collisions h self -> r ∉ ops) ->
            h' !! r = h !! r.
Proof.
  pose proof (History.apply_collision_warnings_core h self) as Hcore.
  unfold apply_collision_warnings in *. cbn [fst] in Hcore.
  split; [exact Hcore|].
  destruct (detect_destination_collisions h self) as [|c cs] eqn:E.
  - repeat split; try done.
    + exists []. by rewrite app_nil_r.
  - repeat split; try done.
    + by eexists.
    + intros r Hr. by apply (annotate_all_other (c :: cs)).
Qed.

(** *** [Plan.add_warning] *)

(** [add_warning] keeps a list of warnings free of duplicates, records
    the message, keeps the earlier warnings, and adding the same message
    again changes nothing. *)
Theorem add_warning_no_duplicates (self : Plan) (msg : string) :
  (NoDup (warnings self) -> NoDup (warnings (add_warning self msg))) /\
  msg ∈ warnings (add_warning self msg) /\
  (forall m, m ∈ warnings self -> m ∈ warnings (add_warning self msg)) /\
  add_warning (add_warning self msg) msg = add_warning self msg.
Proof.
  split; [|split; [apply History.add_warning_adds|split]].
  - intros Hnd. unfold add_warning.
    destruct (existsb (String.eqb msg) (warnings self)) eqn:E; [done|].
    cbn [warnings]. apply NoDup_app. split; [done|]. split; [|apply NoDup_singleton].
    intros x Hx ->%list_elem_of_singleton.
    apply Validators.existsb_eqb_elem in Hx. congruence.
  - intros m. apply History.add_warning_keeps.
  - pose proof (History.add_warning_adds self msg) as Hin.
    apply Validators.existsb_eqb_elem in Hin. unfold add_warning at 1. by rewrite Hin.
Qed.

End PlanFacts.

(** ** Further facts about [history.py] *)

Module HistoryFacts.
Import PyStr Operations PlanModel History.

(** *** Undoing an undo *)

Definition core_invertible
    (c : OperationKind * option string * option string * string * bool * string)
  : bool :=
  let '(k, s, d, _, _, _) := c in
  is_move_or_rename k && opt_truthy s && opt_truthy d.

Definition core_undo_endpoints
    (c : OperationKind * option string * option string * string * bool * string)
  : OperationKind * option string * option string :=
  let '(_, s, d, _, _, _) := c in (MOVE, d, s).

Lemma invertible_core (op : Operation) : invertible op = core_invertible (core op).
Proof. reflexivity. Qed.

Lemma undo_endpoints_core (op : Operation) :
  endpoints (undo_operation op) = core_undo_endpoints (core op).
Proof. reflexivity. Qed.

Lemma filter_map_core (l : list Operation) :
  List.map core (List.filter invertible l) =
  List.filter core_invertible (List.map core l).
Proof.
  induction l as [|op l IH]; [done|]. cbn [List.map List.filter].
  rewrite <- invertible_core. destruct (invertible op); cbn [List.map]; by rewrite IH.
Qed.

(** The endpoints of the undo operations depend on the executed
    operations through [core] only. *)
Lemma undo_endpoints_by_core (l : list Operation) :
  List.map endpoints (List.map undo_operation (List.filter invertible (rev l))) =
  List.map core_undo_endpoints (List.filter core_invertible (rev (List.map core l))).
Proof.
  rewrite <- map_rev, <- filter_map_core, !List.map_map.
  apply map_ext. intros op. apply undo_endpoints_core.
Qed.

Lemma plan_endpoints (executed : list Operation) (title : string) (only : bool) :
  let '(h, plan, _) := build_undo_plan executed title only in
  List.map endpoints (plan_operations h plan) =
  List.map endpoints (List.map undo_operation (List.filter invertible (rev executed))).
Proof.
  pose proof (build_undo_plan_operations executed title only) as H.
  destruct (build_undo_plan executed title only) as [[h plan] skipped].
  destruct H as (-> & Hcore & _).
  assert (forall l : list Operation,
            List.map endpoints l =
            List.map (fun c : OperationKind * option string * option string
                                * string * bool * string =>
                        let '(k, s, d, _, _, _) := c in (k, s, d)) (List.map core l)) as He.
  { intros l. rewrite List.map_map. by apply map_ext. }
  by rewrite (He h), Hcore, <- He.
Qed.

Lemma filter_invertible_all (l : list Operation) :
  Forall (fun op => invertible op = true) l -> List.filter invertible l = l.
Proof. induction 1 as [|op l Hop _ IH]; [done|]. cbn. by rewrite Hop, IH. Qed.

Lemma undo_operation_invertible (op : Operation) :
  invertible op = true -> invertible (undo_operation op) = true.
Proof.
  unfold invertible, undo_operation. cbn.
  intros [[_ Hs]%andb_true_iff Hd]%andb_true_iff. by rewrite Hs, Hd.
Qed.

(** Undoing an undo plan gives the executed moves back: when every
    executed operation is a move or rename with both endpoints, the undo
    plan of the operations of its undo plan has, in the original order,
    one move per executed operation with the original source and
    destination. *)
Theorem build_undo_plan_twice (executed : list Operation) (t1 t2 : string)
    (only1 only2 : bool) :
  Forall (fun op => invertible op = true) executed ->
  let '(h1, plan1, _) := build_undo_plan executed t1 only1 in
  let '(h2, plan2, _) := build_undo_plan (plan_operations h1 plan1) t2 only2 in
  List.map endpoints (plan_operations h2 plan2) =
  List.map (fun op => (MOVE, src op, dst op)) executed.
Proof.
  intros Hall.
  pose proof (build_undo_plan_operations executed t1 only1) as H1.
  destruct (build_undo_plan executed t1 only1) as [[h1 plan1] skipped1].
  destruct H1 as (-> & Hcore1 & _).
  pose proof (plan_endpoints h1 t2 only2) as H2.
  destruct (build_undo_plan h1 t2 only2) as [[h2 plan2] skipped2].
  rewrite H2, undo_endpoints_by_core, Hcore1, <- undo_endpoints_by_core.
  pose proof (proj1 (Forall_forall _ _) Hall) as Hall'.
  assert (Forall (fun op => invertible op = true) (rev executed)) as Hrev.
  { apply Forall_forall. intros op Hop.
    apply Hall'. exact (proj1 (elem_rev _ _) Hop). }
  rewrite (filter_invertible_all _ Hrev), <- map_rev, rev_involutive.
  rewrite filter_invertible_all.
  - rewrite !List.map_map. by apply map_ext.
  - apply Forall_forall. intros u [op [-> Hop]]%list_elem_of_fmap.
    apply undo_operation_invertible. by apply Hall'.
Qed.

Lemma build_undo_plan_twice_witness :
  let '(h1, plan1, _) := build_undo_plan swap_ops "Undo" true in
  let '(h2, plan2, _) := build_undo_plan (plan_operations h1 plan1) "Redo" true in
  List.map endpoints (plan_operations h2 plan2) =
  List.map (fun op => (MOVE, src op, dst op)) swap_ops.
Proof.
  apply (build_undo_plan_twice swap_ops "Undo" "Redo" true true).
  repeat constructor.
Defined.

(** *** What the loaders return *)

Lemma op_of_parts_shape (parts : list string) (op : Operation) :
  op_of_parts parts = Some op ->
  selected op = true /\ kind op <> RENAME /\ is_Some (dst op) /\
  detail op = EmptyString /\ warning op = EmptyString /\ op_id op = EmptyString /\
  (kind op = MKDIR <-> src op = None).
Proof.
  unfold op_of_parts. destruct parts as [|cmd args]; [done|].
  repeat (match goal with
          | |- context [if ?b then _ else _] => destruct b
          | |- context [match ?l with [] => _ | _ :: _ => _ end] => destruct l
          end; try done);
    intros [= <-]; cbn; repeat split; try done; by eexists.
Qed.

Lemma op_of_item_shape (item : journal_item) (op : Operation) :
  op_of_item item = Some op -> selected op = true /\ op_id op = EmptyString.
Proof.
  unfold op_of_item. destruct item as [fields|]; [|done].
  destruct (kind_of_item _); [|done]. by intros [= <-].
Qed.

(** Operations read from a script are selected, have a destination and
    an empty detail, warning and identifier, are never renames, and lack
    a source exactly when they create a directory; whatever the record,
    every operation [ops_from_journal] loads is selected and has an
    empty identifier, and a record with a non-empty [ops] list never
    loads more operations than the list has items. *)
Theorem loaded_operations_shape (script : string) (record : journal_record) :
  (forall op, op ∈ parse_ops_from_script script ->
     selected op = true /\ kind op <> RENAME /\ is_Some (dst op) /\
     detail op = EmptyString /\ warning op = EmptyString /\ op_id op = EmptyString /\
     (kind op = MKDIR <-> src op = None)) /\
  (forall op, op ∈ ops_from_journal record ->
     selected op = true /\ op_id op = EmptyString) /\
  (forall item raw, record_ops record = Some (item :: raw) ->
     length (ops_from_journal record) <= length (item :: raw)).
Proof.
  assert (forall s op, op ∈ parse_ops_from_script s ->
     selected op = true /\ kind op <> RENAME /\ is_Some (dst op) /\
     detail op = EmptyString /\ warning op = EmptyString /\ op_id op = EmptyString /\
     (kind op = MKDIR <-> src op = None)) as Hparse.
  { intros s op. unfold parse_ops_from_script.
    intros (line & _ & Hline)%list_elem_of_omap. unfold op_of_line in Hline.
    destruct (negb _ || _); [done|]. destruct (negb _); [done|].
    destruct (Shlex.split _) as [parts|]; [|done]. by apply op_of_parts_shape in Hline. }
  split; [apply Hparse|]. split.
  - intros op. unfold ops_from_journal.
    destruct (record_ops record) as [[|item raw]|].
    + intros Hop. destruct (Hparse _ _ Hop) as (? & _ & _ & _ & _ & ? & _). done.
    + intros (it & _ & Hit)%list_elem_of_omap. by apply op_of_item_shape in Hit.
    + intros Hop. destruct (Hparse _ _ Hop) as (? & _ & _ & _ & _ & ? & _). done.
  - intros item raw Hraw. unfold ops_from_journal. rewrite Hraw.
    generalize (item :: raw). intros l. induction l as [|x l IH]; [done|].
    cbn [omap list_omap length]. destruct (op_of_item x); cbn [length]; lia.
Qed.

End HistoryFacts.

(** ** Further facts about [validators.py] *)

Module SandboxFacts.
Import PyStr Validators.

Definition allowed (self : Sandbox) (path : string) : Prop :=
  assert_path_allowed self path = Ok tt.

(** *** [Sandbox.assert_all] *)

(** [assert_all] returns normally exactly when every path is allowed;
    otherwise it raises what [assert_path_allowed] raises for the first
    refused path. *)
Theorem assert_all_spec (self : Sandbox) (paths : list string) :
  match assert_all self paths with
  | Ok _ => Forall (allowed self) paths
  | Raise e =>
      exists pre p post, paths = pre ++ p :: post /\
        Forall (allowed self) pre /\ assert_path_allowed self p = Raise e
  end.
Proof.
  induction paths as [|p paths IH]; cbn [assert_all]; [constructor|].
  destruct (assert_path_allowed self p) as [[]|e] eqn:E.
  - destruct (assert_all self paths) as [u|e'].
    + by constructor.
    + destruct IH as (pre & q & post & -> & Hpre & Hq).
      exists (p :: pre), q, post. repeat split; [|done]. by constructor.
  - exists [], p, paths. repeat split; [constructor|done].
Qed.

(** *** Sandboxes without a usable root *)

Lemma normalize_startswith (path : string) :
  startswith (PurePosixPath.normalize path) "/" = startswith path "/".
Proof.
  unfold PurePosixPath.normalize.
  rewrite PurePosixPath.to_str_startswith by apply PurePosixPath.parse_normal.
  apply PurePosixPath.root_parse.
Qed.

(** Where the normalized roots come from: an allowed root that is
    absolute, normalized, with a closing slash added unless it has one. *)
Lemma normalized_roots_origin (self : Sandbox) (root : string) :
  root ∈ normalized_roots self ->
  exists r, r ∈ allowed_roots self /\ startswith r "/" = true /\
    root = if endswith (PurePosixPath.normalize r) "/"
           then PurePosixPath.normalize r
           else PurePosixPath.normalize r +:+ "/".
Proof.
  unfold normalized_roots. induction (allowed_roots self) as [|r rs IH]; cbn.
  { by intros ?%elem_of_nil. }
  assert (forall root, (exists r', r' ∈ rs /\ startswith r' "/" = true /\
            root = if endswith (PurePosixPath.normalize r') "/"
                   then PurePosixPath.normalize r'
                   else PurePosixPath.normalize r' +:+ "/") ->
          exists r', r' ∈ r :: rs /\ startswith r' "/" = true /\
            root = if endswith (PurePosixPath.normalize r') "/"
                   then PurePosixPath.normalize r'
                   else PurePosixPath.normalize r' +:+ "/") as Hweak.
  { intros root' (r' & Hin & H). exists r'. split; [|done].
    apply elem_of_cons. by right. }
  destruct (truthy r); cbn [negb]; [|intros H; by apply Hweak, IH].
  destruct (startswith (PurePosixPath.normalize r) "/") eqn:Hs; cbn [negb];
    [|intros H; by apply Hweak, IH].
  intros [->|Hin]%elem_of_cons; [|by apply Hweak, IH].
  exists r. split; [apply elem_of_cons; by left|].
  rewrite normalize_startswith in Hs. split; [done|].
  by destruct (endswith (PurePosixPath.normalize r) "/").
Qed.

(** A sandbox whose roots are all empty or relative has no normalized
    root and refuses every path. *)
Theorem sandbox_without_roots (self : Sandbox) (path : string) :
  Forall (fun r => startswith r "/" = false) (allowed_roots self) ->
  normalized_roots self = [] /\ raises (assert_path_allowed self path).
Proof.
  intros Hall.
  assert (normalized_roots self = []) as Hroots.
  { destruct (normalized_roots self) as [|root roots] eqn:E; [done|].
    destruct (normalized_roots_origin self root) as (r & Hr & Hs & _).
    { rewrite E. apply elem_of_cons. by left. }
    rewrite Forall_forall in Hall. specialize (Hall r Hr). congruence. }
  split; [done|]. unfold assert_path_allowed. rewrite Hroots.
  destruct (negb _); [done|]. by destruct (existsb _ _).
Qed.

Lemma sandbox_without_roots_witness :
  normalized_roots (Build_Sandbox [""; "volume1/media"]) = [] /\
  raises (assert_path_allowed (Build_Sandbox [""; "volume1/media"]) "/volume1/media/x").
Proof.
  apply (sandbox_without_roots (Build_Sandbox [""; "volume1/media"])).
  repeat constructor.
Defined.

(** *** Allowed paths lie below an allowed root *)

Fixpoint last_char (s : string) : option ascii :=
  match s with
  | EmptyString => None
  | String c s' => match last_char s' with Some d => Some d | None => Some c end
  end.

Lemma endswith_char (s : string) (c : ascii) :
  endswith s (String c EmptyString) =
  match last_char s with Some d => Ascii.eqb d c | None => false end.
Proof.
  unfold endswith. induction s as [|a s IH]; [done|].
  destruct s as [|b s].
  - cbn. by destruct (Ascii.eqb a c).
  - cbn [last_char] in *. cbn [String.length] in *.
    replace (S (S (String.length s)) - 1) with (S (S (String.length s) - 1)) by lia.
    cbn [drop]. cbn [Nat.leb andb] in IH |- *. rewrite IH.
    by destruct (last_char s).
Qed.

Lemma last_char_app (s t : string) :
  last_char (s +:+ t) = match last_char t with Some d => Some d | None => last_char s end.
Proof.
  induction s as [|a s IH].
  - rewrite sapp_nil_l. by destruct (last_char t).
  - rewrite sapp_cons. cbn [last_char]. rewrite IH. by destruct (last_char t).
Qed.

Lemma last_char_no_sep (x : string) :
  contains_char "/" x = false -> x <> EmptyString ->
  exists d, last_char x = Some d /\ d <> "/"%char.
Proof.
  induction x as [|a x IH]; [done|]. intros Hs _.
  cbn [contains_char] in Hs. apply orb_false_iff in Hs as [Ha Hx].
  destruct x as [|b x].
  - exists a. split; [reflexivity|]. intros ->. by rewrite Ascii.eqb_refl in Ha.
  - destruct IH as (d & Hd & Hne); [done|done|].
    exists d. cbn [last_char] in *. by rewrite Hd.
Qed.

Lemma last_char_component (x : string) :
  PurePosixPath.component x -> exists d, last_char x = Some d /\ d <> "/"%char.
Proof.
  intros [Hk Hs]. apply last_char_no_sep; [done|]. by intros ->.
Qed.

Lemma last_char_join (x : string) (l : list string) :
  Forall PurePosixPath.component (x :: l) ->
  exists d, last_char (join "/" (x :: l)) = Some d /\ d <> "/"%char.
Proof.
  revert x. induction l as [|y l IH]; intros x Hc.
  - inversion Hc; subst. by apply last_char_component.
  - inversion Hc as [|? ? Hx Hl]; subst. destruct (IH y Hl) as (d & Hd & Hne).
    exists d. split; [|done]. cbn [join] in *.
    by rewrite last_char_app, last_char_app, Hd.
Qed.

(** A printed path with at least one component does not end with a
    slash. *)
Lemma to_str_no_closing_slash (q : PurePosixPath.t) :
  PurePosixPath.normal q -> PurePosixPath.tail q <> [] ->
  endswith (PurePosixPath.to_str q) "/" = false.
Proof.
  destruct q as [r tl]. intros [_ Hc] Hne. cbn in Hc, Hne.
  destruct tl as [|x tl]; [done|].
  destruct (last_char_join x tl Hc) as (d & Hd & Hnd).
  assert (last_char (r +:+ join "/" (x :: tl)) = Some d) as Hlast.
  { by rewrite last_char_app, Hd. }
  unfold PurePosixPath.to_str. cbn [PurePosixPath.root PurePosixPath.tail].
  destruct (truthy (r +:+ join "/" (x :: tl))) eqn:Ht.
  - rewrite endswith_char, Hlast. by apply Ascii.eqb_neq.
  - destruct (r +:+ join "/" (x :: tl)); [done|done].
Qed.

Lemma startswith_inv (s p : string) :
  startswith s p = true -> exists rest, s = p +:+ rest.
Proof.
  unfold startswith. revert s. induction p as [|a p IH]; intros s.
  - intros _. by exists s.
  - destruct s as [|c s]; [done|]. cbn [String.prefix].
    destruct (ascii_dec a c) as [->|]; [|done].
    intros (rest & ->)%IH. exists rest. by rewrite sapp_cons.
Qed.

Lemma split_join_then (l : list string) (rest : string) :
  l <> [] -> Forall (fun x => contains_char "/" x = false) l ->
  split "/" (join "/" l +:+ String "/" rest) = l ++ split "/" rest.
Proof.
  induction l as [|x l IH]; [done|]. intros _ Hl.
  inversion Hl as [|? ? Hx Hl']; subst.
  destruct l as [|y l].
  - cbn [join]. by rewrite PurePosixPath.split_app_sep.
  - change (join "/" (x :: y :: l)) with (x +:+ "/" +:+ join "/" (y :: l)).
    rewrite !sapp_assoc, sapp_cons, sapp_nil_l, PurePosixPath.split_app_sep by done.
    cbn [app]. f_equal. by apply IH.
Qed.

Lemma filter_keep_app (l k : list string) :
  Forall PurePosixPath.component l ->
  List.filter PurePosixPath.keep_component (l ++ k) =
  l ++ List.filter PurePosixPath.keep_component k.
Proof.
  intros Hl. rewrite List.filter_app. by rewrite PurePosixPath.filter_keep_all.
Qed.

(** Parsing a text that starts with a printed path and a slash gives a
    path whose components start with those of the printed path. *)
Lemma parse_below (q : PurePosixPath.t) (rest : string) :
  PurePosixPath.normal q -> PurePosixPath.tail q <> [] ->
  truthy (PurePosixPath.root q) = true ->
  exists more,
    PurePosixPath.tail (PurePosixPath.parse (PurePosixPath.to_str q +:+ String "/" rest))
    = PurePosixPath.tail q ++ more.
Proof.
  destruct q as [r tl]. intros [Hr Hc] Hne Hroot. cbn in Hr, Hc, Hne, Hroot.
  destruct tl as [|x tl]; [done|].
  inversion Hc as [|? ? Hx Htl]; subst.
  destruct (PurePosixPath.join_head x tl Hx) as (c & jrest & Hj & Hcne).
  assert (split "/" (String c jrest +:+ String "/" rest) = (x :: tl) ++ split "/" rest)
    as Hsplit.
  { rewrite <- Hj. apply split_join_then; [done|].
    by apply PurePosixPath.components_no_sep. }
  rewrite sapp_cons in Hsplit.
  unfold PurePosixPath.to_str, PurePosixPath.parse.
  cbn [PurePosixPath.root PurePosixPath.tail]. rewrite Hj.
  exists (List.filter PurePosixPath.keep_component (split "/" rest)).
  destruct Hr as [->|[->| ->]]; [done|..].
  - rewrite sapp_cons, sapp_nil_l. cbn [truthy]. rewrite !sapp_cons.
    rewrite PurePosixPath.splitroot_one by done. cbn [PurePosixPath.tail].
    by rewrite Hsplit, filter_keep_app.
  - rewrite !sapp_cons, sapp_nil_l. cbn [truthy]. rewrite !sapp_cons.
    rewrite PurePosixPath.splitroot_two by done. cbn [PurePosixPath.tail].
    by rewrite Hsplit, filter_keep_app.
Qed.

(** An allowed path lies below an allowed root: the components of some
    absolute allowed root are the first components of the path, and no
    component of the path is [..]. *)
Theorem allowed_path_below_root (self : Sandbox) (path : string) :
  assert_path_allowed self path = Ok tt ->
  (".." ∉ PurePosixPath.tail (PurePosixPath.parse path)) /\
  exists r more, r ∈ allowed_roots self /\ startswith r "/" = true /\
    PurePosixPath.tail (PurePosixPath.parse path) =
    PurePosixPath.tail (PurePosixPath.parse r) ++ more.
Proof.
  intros Hok.
  apply (proj1 (assert_path_allowed_spec self path)) in Hok
    as (Habs & Hdd & root & Hroot & Hstarts).
  split; [by rewrite PurePosixPath.dotdot_tail|].
  destruct (normalized_roots_origin self root Hroot) as (r & Hr & Hrabs & Heq).
  exists r. pose proof (PurePosixPath.parse_normal r) as Hn.
  destruct (PurePosixPath.tail (PurePosixPath.parse r)) as [|x tl] eqn:Htl.
  { exists (PurePosixPath.tail (PurePosixPath.parse path)). done. }
  assert (PurePosixPath.tail (PurePosixPath.parse r) <> []) as Hne by (by rewrite Htl).
  unfold PurePosixPath.normalize in *.
  rewrite (to_str_no_closing_slash _ Hn Hne) in Heq. subst root.
  apply startswith_inv in Hstarts as (rest & Hrest).
  rewrite sapp_assoc, sapp_cons, sapp_nil_l in Hrest.
  destruct (parse_below (PurePosixPath.parse r) rest Hn Hne) as (more & Hmore).
  { by rewrite PurePosixPath.root_parse. }
  exists more. split; [done|]. split; [done|].
  rewrite <- Hrest in Hmore.
  rewrite PurePosixPath.parse_to_str in Hmore by apply PurePosixPath.parse_normal.
  by rewrite Hmore, Htl.
Qed.

Lemma allowed_path_below_root_witness :
  (".." ∉ PurePosixPath.tail (PurePosixPath.parse "/volume1/media/Movies/X.mkv")) /\
  exists r more, r ∈ ["/volume1/media/"] /\ startswith r "/" = true /\
    PurePosixPath.tail (PurePosixPath.parse "/volume1/media/Movies/X.mkv") =
    PurePosixPath.tail (PurePosixPath.parse r) ++ more.
Proof.
  apply (allowed_path_below_root (Build_Sandbox ["/volume1/media/"])
           "/volume1/media/Movies/X.mkv").
  reflexivity.
Defined.

(** A path whose name merely starts like a root is refused: below the
    single root [/volume1/media], [/volume1/media2/x] is not allowed, and
    neither is the root directory itself. *)
Lemma sibling_and_root_refused :
  raises (assert_path_allowed (Build_Sandbox ["/volume1/media"]) "/volume1/media2/x") /\
  raises (assert_path_allowed (Build_Sandbox ["/volume1/media"]) "/volume1/media").
Proof. split; by vm_compute. Qed.

End SandboxFacts.

(** ** Further facts about [media_grouping.py] *)

Module GroupingFacts.
Import PyStr OrderedDict MediaGrouping.

(** [MediaGroup.display_name]. *)
Definition display_name (g : MediaGroup) : string :=
  match video g with
  | Some v => name v
  | None => base_stem g
  end.

(** [uniq[f.path] = f] on the insertion-ordered dictionary [uniq], kept
    as the list of its values. *)
Fixpoint uniq_put (f : MediaFile) (uniq : list MediaFile) : list MediaFile :=
  match uniq with
  | [] => [f]
  | g :: uniq' => if same_file g f then f :: uniq' else g :: uniq_put f uniq'
  end.

(** [MediaGroup.all_files]. *)
Definition all_files (g : MediaGroup) : list MediaFile :=
  let files := match video g with Some v => [v] | None => [] end ++ sidecars g in
  fold_left (fun uniq f => uniq_put f uniq) files [].

Lemma same_file_eq (f g : MediaFile) : same_file f g = true <-> f = g.
Proof.
  unfold same_file. rewrite String.eqb_eq. destruct f as [pf], g as [pg]. cbn.
  split; [by intros ->|by intros [= ->]].
Qed.

Lemma existsb_same_file (f : MediaFile) (l : list MediaFile) :
  existsb (same_file f) l = true <-> f ∈ l.
Proof.
  rewrite existsb_exists. split.
  - intros (x & Hx & ->%same_file_eq). by apply list_elem_of_In.
  - intros Hf. exists f. split; [by apply list_elem_of_In|by apply same_file_eq].
Qed.

(** *** The files of a directory *)

Definition files_in (paths : list string) (d : string) : list MediaFile :=
  List.filter (fun f => String.eqb (dir f) d) (List.map mkMediaFile paths).

Definition is_video (ve : gset string) (f : MediaFile) : bool := mem (suffix f) ve.

Lemma files_in_elem (paths : list string) (d : string) (f : MediaFile) :
  f ∈ files_in paths d <-> path f ∈ paths /\ dir f = d.
Proof.
  unfold files_in. rewrite list_elem_of_In, filter_In, String.eqb_eq, in_map_iff.
  split.
  - intros [(pth & <- & Hp) Hd]. split; [by apply list_elem_of_In|done].
  - intros [Hp Hd]. split; [|done]. exists (path f).
    split; [by destruct f|by apply list_elem_of_In].
Qed.

(** Each group is the group built for one video entry of its directory. *)
Lemma group_media_files_video (paths : list string) (ve se : gset string)
    (g : MediaGroup) :
  g ∈ group_media_files paths ve se ->
  exists v, v ∈ files_in paths (directory g) /\ is_video ve v = true /\
    g = make_group se (directory g) (files_in paths (directory g))
          (length (videos_in paths ve (directory g))) v.
Proof.
  unfold group_media_files. intros Hg.
  apply list_elem_of_In, in_concat in Hg as (gs & Hgs & Hg).
  apply in_map_iff in Hgs as ([d files] & <- & Hitem).
  apply list_elem_of_In, by_dir_item in Hitem. unfold groups_of_dir in Hg.
  apply in_map_iff in Hg as (v & <- & Hv).
  apply list_elem_of_In, sorted_by_elem, list_elem_of_In, filter_In in Hv as [Hv Hvid].
  exists v. cbn [directory make_group]. unfold files_in, videos_in.
  rewrite <- Hitem. split; [by apply list_elem_of_In|]. split; [done|reflexivity].
Qed.

(** *** The stem loop in closed form *)

(** The files the stem loop attaches to the group of [v]. *)
Definition stem_attached (se : gset string) (v f : MediaFile) : bool :=
  negb (String.eqb (path f) (path v)) && mem (suffix f) se && stem_rule v f.

Lemma stem_step_sidecars (se : gset string) (v f : MediaFile)
    (acc : option MediaFile * list MediaFile) :
  (stem_step se v acc f).2 = acc.2 ++ (if stem_attached se v f then [f] else []).
Proof.
  destruct acc as [n s]. unfold stem_step, stem_attached, stem_rule. cbn [snd].
  destruct (String.eqb (path f) (path v)); cbn [negb andb]; [by rewrite app_nil_r|].
  destruct (mem (suffix f) se); cbn [negb andb]; [|by rewrite app_nil_r].
  destruct (is_stem_nfo v f); cbn [orb]; [done|].
  destruct (has_stem_prefix v f); [done|by rewrite app_nil_r].
Qed.

Lemma stem_loop_sidecars (se : gset string) (v : MediaFile) (files : list MediaFile)
    (acc : option MediaFile * list MediaFile) :
  (fold_left (stem_step se v) files acc).2 =
  acc.2 ++ List.filter (stem_attached se v) files.
Proof.
  revert acc. induction files as [|f files IH]; intros acc; cbn [fold_left List.filter].
  - by rewrite app_nil_r.
  - rewrite IH, stem_step_sidecars, <- app_assoc. by destruct (stem_attached se v f).
Qed.

(** *** Invariants of the two loops *)

(** Sidecars come from the files of the loop, are not the video, and
    have a sidecar extension. *)
Definition sidecar_of (se : gset string) (v : MediaFile) (files : list MediaFile)
    (f : MediaFile) : Prop :=
  f ∈ files /\ path f <> path v /\ mem (suffix f) se = true.

Lemma folder_step_sidecar_of (se : gset string) (v f : MediaFile)
    (files : list MediaFile) (acc : option MediaFile * list MediaFile) :
  f ∈ files ->
  Forall (sidecar_of se v files) acc.2 ->
  Forall (sidecar_of se v files) (folder_step se v acc f).2.
Proof.
  destruct acc as [n s]. cbn [snd]. intros Hf Hs. unfold folder_step.
  destruct (String.eqb (path f) (path v)) eqn:Ep; [done|].
  destruct (mem (suffix f) se) eqn:Em; cbn [negb]; [|done].
  assert (sidecar_of se v files f) as Hsf.
  { split; [done|]. split; [|done]. intros Heq. rewrite Heq, String.eqb_refl in Ep. done. }
  destruct (_ && _); [|destruct (mem _ FOLDER_LEVEL_SIDECAR_NAMES); [|done]];
    cbn [snd]; destruct (existsb _ s); try done;
    apply Forall_app; (split; [done|by apply Forall_singleton]).
Qed.

Lemma folder_loop_sidecar_of (se : gset string) (v : MediaFile)
    (files l : list MediaFile) (acc : option MediaFile * list MediaFile) :
  (forall f, f ∈ l -> f ∈ files) ->
  Forall (sidecar_of se v files) acc.2 ->
  Forall (sidecar_of se v files) (fold_left (folder_step se v) l acc).2.
Proof.
  revert acc. induction l as [|f l IH]; intros acc Hl Hacc; [done|].
  cbn [fold_left]. apply IH.
  - intros f' Hf'. apply Hl, elem_of_cons. by right.
  - apply folder_step_sidecar_of; [|done]. apply Hl, elem_of_cons. by left.
Qed.

Lemma stem_filter_sidecar_of (se : gset string) (v : MediaFile) (files : list MediaFile) :
  Forall (sidecar_of se v files) (List.filter (stem_attached se v) files).
Proof.
  apply Forall_forall. intros f [Hf Ha]%list_elem_of_In%filter_In.
  unfold stem_attached in Ha.
  apply andb_true_iff in Ha as [[Hp Hm]%andb_true_iff _].
  split; [by apply list_elem_of_In|]. split; [|done].
  intros Heq. rewrite Heq, String.eqb_refl in Hp. done.
Qed.

Lemma make_group_sidecar_of (se : gset string) (d : string) (files : list MediaFile)
    (n : nat) (v : MediaFile) :
  Forall (sidecar_of se v files) (sidecars (make_group se d files n v)).
Proof.
  unfold make_group. cbn [sidecars].
  assert (Forall (sidecar_of se v files)
            (fold_left (stem_step se v) files (None, [])).2) as H1.
  { rewrite stem_loop_sidecars. cbn [snd app]. apply stem_filter_sidecar_of. }
  destruct (n =? 1); [|done]. by apply folder_loop_sidecar_of.
Qed.

(** Every group has a video, which is a video entry of the input lying
    in the group's directory and giving the group its stem; every
    sidecar is an entry of the input in that same directory, is not the
    video, and has a sidecar extension. *)
Theorem group_members (paths : list string) (ve se : gset string) (g : MediaGroup) :
  g ∈ group_media_files paths ve se ->
  exists v, video g = Some v /\ path v ∈ paths /\ is_video ve v = true /\
    dir v = directory g /\ base_stem g = stem v /\
    forall f, f ∈ sidecars g ->
      path f ∈ paths /\ dir f = directory g /\ path f <> path v /\
      mem (suffix f) se = true.
Proof.
  intros (v & Hv & Hvid & Heq)%group_media_files_video.
  apply files_in_elem in Hv as [Hvp Hvd]. exists v.
  split; [by rewrite Heq|]. split; [done|]. split; [done|]. split; [done|].
  split; [by rewrite Heq|]. intros f Hf. rewrite Heq in Hf.
  pose proof (make_group_sidecar_of se (directory g) (files_in paths (directory g))
                (length (videos_in paths ve (directory g))) v) as Hall.
  rewrite Forall_forall in Hall. destruct (Hall f Hf) as ([Hfp Hfd]%files_in_elem & ? & ?).
  done.
Qed.

Lemma group_members_witness :
  exists v, Some (mkMediaFile "/m/Movie.mkv") = Some v /\
    path v ∈ ["/m/Movie.mkv"; "/m/Movie.en.srt"] /\
    is_video DEFAULT_VIDEO_EXTS v = true /\ dir v = "/m" /\ "Movie" = stem v /\
    forall f, f ∈ [mkMediaFile "/m/Movie.en.srt"] ->
      path f ∈ ["/m/Movie.mkv"; "/m/Movie.en.srt"] /\ dir f = "/m" /\
      path f <> path v /\ mem (suffix f) DEFAULT_SIDECAR_EXTS = true.
Proof.
  apply (group_members ["/m/Movie.mkv"; "/m/Movie.en.srt"]
           DEFAULT_VIDEO_EXTS DEFAULT_SIDECAR_EXTS
           (mkMediaGroup "/m" "Movie" (Some (mkMediaFile "/m/Movie.mkv"))
              [mkMediaFile "/m/Movie.en.srt"] None)).
  apply list_elem_of_In. vm_compute. left. reflexivity.
Defined.

(** *** The metadata file is a sidecar *)

Definition nfo_listed (acc : option MediaFile * list MediaFile) : Prop :=
  forall f, acc.1 = Some f -> f ∈ acc.2.

Lemma stem_step_nfo (se : gset string) (v f : MediaFile)
    (acc : option MediaFile * list MediaFile) :
  nfo_listed acc -> nfo_listed (stem_step se v acc f).
Proof.
  destruct acc as [n s]. unfold nfo_listed, stem_step. cbn [fst snd]. intros Hacc.
  destruct (String.eqb (path f) (path v)); [done|].
  destruct (negb (mem (suffix f) se)); [done|].
  destruct (is_stem_nfo v f).
  { cbn [fst snd]. intros f' [= <-]. apply elem_of_app. right. apply elem_of_cons. by left. }
  destruct (has_stem_prefix v f); [|done].
  cbn [fst snd]. intros f' Hf'. apply elem_of_app. left. by apply Hacc.
Qed.

Lemma folder_step_nfo (se : gset string) (v f : MediaFile)
    (acc : option MediaFile * list MediaFile) :
  nfo_listed acc -> nfo_listed (folder_step se v acc f).
Proof.
  destruct acc as [n s]. unfold nfo_listed, folder_step. cbn [fst snd]. intros Hacc.
  destruct (String.eqb (path f) (path v)); [done|].
  destruct (negb (mem (suffix f) se)); [done|].
  assert (forall f', f' ∈ s ->
            f' ∈ (if existsb (same_file f) s then s else s ++ [f])) as Hkeep.
  { intros f' Hf'. destruct (existsb _ s); [done|]. apply elem_of_app. by left. }
  assert (f ∈ (if existsb (same_file f) s then s else s ++ [f])) as Hnew.
  { destruct (existsb (same_file f) s) eqn:E.
    - by apply existsb_same_file.
    - apply elem_of_app. right. apply elem_of_cons. by left. }
  destruct (_ && _).
  { cbn [fst snd]. intros f' Hf'. destruct n as [n0|].
    - apply Hkeep, Hacc. done.
    - by injection Hf' as <-. }
  destruct (mem _ FOLDER_LEVEL_SIDECAR_NAMES); [|done].
  cbn [fst snd]. intros f' Hf'. by apply Hkeep, Hacc.
Qed.

Lemma nfo_listed_fold (step : option MediaFile * list MediaFile -> MediaFile ->
                              option MediaFile * list MediaFile)
    (l : list MediaFile) (acc : option MediaFile * list MediaFile) :
  (forall a f, nfo_listed a -> nfo_listed (step a f)) ->
  nfo_listed acc -> nfo_listed (fold_left step l acc).
Proof.
  intros Hstep. revert acc. induction l as [|f l IH]; intros acc Hacc; [done|].
  cbn [fold_left]. by apply IH, Hstep.
Qed.

(** The metadata file of a group, when it has one, is one of its
    sidecars. *)
Theorem group_nfo_is_sidecar (paths : list string) (ve se : gset string)
    (g : MediaGroup) (f : MediaFile) :
  g ∈ group_media_files paths ve se -> nfo g = Some f -> f ∈ sidecars g.
Proof.
  intros (v & _ & _ & ->)%group_media_files_video. unfold make_group. cbn [nfo sidecars].
  assert (nfo_listed (fold_left (stem_step se v)
            (files_in paths (directory g)) (None, []))) as H1.
  { apply nfo_listed_fold; [intros a x; apply stem_step_nfo|]. by intros x. }
  destruct (_ =? 1); [|apply H1].
  apply (nfo_listed_fold (folder_step se v)); [intros a x; apply folder_step_nfo|done].
Qed.

Lemma group_nfo_is_sidecar_witness :
  mkMediaFile "/m/Movie.nfo" ∈ [mkMediaFile "/m/Movie.nfo"].
Proof.
  apply (group_nfo_is_sidecar ["/m/Movie.mkv"; "/m/Movie.nfo"]
           DEFAULT_VIDEO_EXTS DEFAULT_SIDECAR_EXTS
           (mkMediaGroup "/m" "Movie" (Some (mkMediaFile "/m/Movie.mkv"))
              [mkMediaFile "/m/Movie.nfo"] (Some (mkMediaFile "/m/Movie.nfo")))).
  - apply list_elem_of_In. vm_compute. left. reflexivity.
  - reflexivity.
Defined.


(** *** One group per video entry *)

Lemma insert_by_perm {A : Type} (key : A -> string) (x : A) (l : list A) :
  insert_by key x l ≡ₚ x :: l.
Proof.
  induction l as [|y l IH]; [done|]. cbn [insert_by].
  destruct (String.leb (key x) (key y)); [done|].
  rewrite IH. apply perm_swap.
Qed.

Lemma sorted_by_perm {A : Type} (key : A -> string) (l : list A) :
  sorted_by key l ≡ₚ l.
Proof.
  unfold sorted_by. induction l as [|x l IH]; [done|].
  cbn [foldr]. rewrite insert_by_perm. by constructor.
Qed.

Lemma list_filter_perm {A : Type} (f : A -> bool) (l l' : list A) :
  l ≡ₚ l' -> List.filter f l ≡ₚ List.filter f l'.
Proof.
  induction 1 as [|x l l' _ IH|x y l|l1 l2 l3 _ IH1 _ IH2]; cbn [List.filter].
  - done.
  - destruct (f x); [by constructor|done].
  - destruct (f x), (f y); try done. apply perm_swap.
  - by etrans.
Qed.

(** The entries held by the buckets of a dictionary. *)
Definition entries (d : list (string * list MediaFile)) : list MediaFile :=
  concat (List.map snd d).

Lemma entries_setdefault (k : string) (f : MediaFile)
    (d : list (string * list MediaFile)) :
  entries (setdefault_append k f d) ≡ₚ f :: entries d.
Proof.
  unfold entries. induction d as [|[k' vs] d IH]; cbn [setdefault_append].
  - done.
  - destruct (String.eqb k' k); cbn [List.map concat snd].
    + rewrite <- app_assoc. cbn [app]. symmetry. apply Permutation_middle.
    + rewrite IH. symmetry. apply Permutation_middle.
Qed.

Lemma entries_by_dir (paths : list string) (d : list (string * list MediaFile)) :
  entries (fold_left by_dir_step paths d) ≡ₚ entries d ++ List.map mkMediaFile paths.
Proof.
  revert d. induction paths as [|pth paths IH]; intros d; cbn [fold_left List.map].
  - by rewrite app_nil_r.
  - rewrite IH. unfold by_dir_step. rewrite entries_setdefault.
    apply Permutation_middle.
Qed.

Lemma videos_of_groups (ve se : gset string) (d : list (string * list MediaFile)) :
  List.map video (concat (List.map (groups_of_dir ve se) d)) ≡ₚ
  List.map Some (List.filter (is_video ve) (entries d)).
Proof.
  unfold entries. induction d as [|[k files] d IH]; [done|].
  cbn [List.map concat snd]. rewrite List.filter_app, !List.map_app.
  apply Permutation_app; [|exact IH].
  unfold groups_of_dir. rewrite List.map_map.
  change (List.map (fun v => video (make_group se k files _ v)) ?l)
    with (List.map Some l).
  apply Permutation_map, sorted_by_perm.
Qed.

(** There is exactly one group per video entry of the input: the videos
    of the groups are, up to the order, the entries of the input with a
    video extension, each as often as the input lists it; so videos are
    neither merged nor dropped, entries that are no videos open no
    group, and there are as many groups as video entries. *)
Theorem one_group_per_video (paths : list string) (ve se : gset string) :
  List.map video (group_media_files paths ve se) ≡ₚ
    List.map Some (List.filter (is_video ve) (List.map mkMediaFile paths)) /\
  length (group_media_files paths ve se) =
    length (List.filter (is_video ve) (List.map mkMediaFile paths)).
Proof.
  assert (List.map video (group_media_files paths ve se) ≡ₚ
          List.map Some (List.filter (is_video ve) (List.map mkMediaFile paths))) as Hperm.
  { unfold group_media_files. rewrite videos_of_groups.
    apply Permutation_map, list_filter_perm.
    change (by_dir paths) with (fold_left by_dir_step paths []).
    by rewrite entries_by_dir. }
  split; [exact Hperm|].
  apply Permutation_length in Hperm. by rewrite !length_map in Hperm.
Qed.

(** *** Sidecars without duplicates *)

Lemma folder_step_NoDup (se : gset string) (v f : MediaFile)
    (acc : option MediaFile * list MediaFile) :
  NoDup acc.2 -> NoDup (folder_step se v acc f).2.
Proof.
  destruct acc as [n s]. cbn [snd]. intros Hs. unfold folder_step.
  destruct (String.eqb (path f) (path v)); [done|].
  destruct (negb (mem (suffix f) se)); [done|].
  assert (NoDup (if existsb (same_file f) s then s else s ++ [f])) as Hnew.
  { destruct (existsb (same_file f) s) eqn:E; [done|].
    apply NoDup_app. split; [done|]. split; [|apply NoDup_singleton].
    intros x Hx ->%list_elem_of_singleton.
    apply existsb_same_file in Hx. congruence. }
  destruct (_ && _); [done|].
  by destruct (mem _ FOLDER_LEVEL_SIDECAR_NAMES).
Qed.

Lemma folder_loop_NoDup (se : gset string) (v : MediaFile) (l : list MediaFile)
    (acc : option MediaFile * list MediaFile) :
  NoDup acc.2 -> NoDup (fold_left (folder_step se v) l acc).2.
Proof.
  revert acc. induction l as [|f l IH]; intros acc Hacc; [done|].
  cbn [fold_left]. by apply IH, folder_step_NoDup.
Qed.

Lemma NoDup_list_filter {A : Type} (f : A -> bool) (l : list A) :
  NoDup l -> NoDup (List.filter f l).
Proof.
  induction l as [|x l IH]; [done|]. intros [Hx Hl]%NoDup_cons. cbn [List.filter].
  destruct (f x); [|by apply IH]. apply NoDup_cons. split; [|by apply IH].
  intros [Hin _]%list_elem_of_In%filter_In. by apply Hx, list_elem_of_In.
Qed.

Lemma files_in_NoDup (paths : list string) (d : string) :
  NoDup paths -> NoDup (files_in paths d).
Proof.
  intros Hp. unfold files_in. apply NoDup_list_filter.
  apply NoDup_fmap_2; [|done]. by intros x y [= ->].
Qed.

(** When the input lists every path once, no group lists a sidecar
    twice. *)
Theorem sidecars_without_duplicates (paths : list string) (ve se : gset string)
    (g : MediaGroup) :
  NoDup paths -> g ∈ group_media_files paths ve se -> NoDup (sidecars g).
Proof.
  intros Hp (v & _ & _ & ->)%group_media_files_video. unfold make_group. cbn [sidecars].
  assert (NoDup (fold_left (stem_step se v)
            (files_in paths (directory g)) (None, [])).2) as H1.
  { rewrite stem_loop_sidecars. cbn [snd app].
    apply NoDup_list_filter. by apply files_in_NoDup. }
  destruct (_ =? 1); [|done]. by apply folder_loop_NoDup.
Qed.

Lemma sidecars_without_duplicates_witness :
  NoDup [mkMediaFile "/m/Movie.en.srt"].
Proof.
  apply (sidecars_without_duplicates ["/m/Movie.mkv"; "/m/Movie.en.srt"]
           DEFAULT_VIDEO_EXTS DEFAULT_SIDECAR_EXTS
           (mkMediaGroup "/m" "Movie" (Some (mkMediaFile "/m/Movie.mkv"))
              [mkMediaFile "/m/Movie.en.srt"] None)).
  - apply (bool_decide_unpack _). vm_compute. exact I.
  - apply list_elem_of_In. vm_compute. left. reflexivity.
Defined.

(** A path listed twice is attached twice by the stem loop. *)
Lemma sidecar_listed_twice :
  List.map (fun g => List.map path (sidecars g))
    (group_media_files ["/m/A.mkv"; "/m/A.srt"; "/m/A.srt"]
       DEFAULT_VIDEO_EXTS DEFAULT_SIDECAR_EXTS)
  = [["/m/A.srt"; "/m/A.srt"]].
Proof. by vm_compute. Qed.

(** *** [MediaGroup.all_files] *)

Lemma uniq_put_elem (f x : MediaFile) (uniq : list MediaFile) :
  x ∈ uniq_put f uniq <-> x = f \/ x ∈ uniq.
Proof.
  induction uniq as [|g uniq IH]; cbn [uniq_put].
  - rewrite list_elem_of_singleton, elem_of_nil. tauto.
  - destruct (same_file g f) eqn:E.
    + apply same_file_eq in E as ->. rewrite !elem_of_cons. tauto.
    + rewrite !elem_of_cons, IH. tauto.
Qed.

Lemma uniq_put_NoDup (f : MediaFile) (uniq : list MediaFile) :
  NoDup uniq -> NoDup (uniq_put f uniq).
Proof.
  induction uniq as [|g uniq IH]; cbn [uniq_put].
  - intros _. apply NoDup_singleton.
  - intros [Hg Hu]%NoDup_cons. destruct (same_file g f) eqn:E.
    + apply same_file_eq in E as ->. by apply NoDup_cons.
    + apply NoDup_cons. split; [|by apply IH].
      intros [->|Hin]%uniq_put_elem; [|done].
      assert (same_file f f = true) by (by apply same_file_eq). congruence.
Qed.

Lemma uniq_fold (files uniq : list MediaFile) :
  NoDup uniq ->
  NoDup (fold_left (fun u f => uniq_put f u) files uniq) /\
  forall x, x ∈ fold_left (fun u f => uniq_put f u) files uniq <-> x ∈ uniq \/ x ∈ files.
Proof.
  revert uniq. induction files as [|f files IH]; intros uniq Hu; cbn [fold_left].
  - split; [done|]. intros x. rewrite elem_of_nil. tauto.
  - destruct (IH (uniq_put f uniq) (uniq_put_NoDup f uniq Hu)) as [Hnd Hel].
    split; [done|]. intros x. rewrite Hel, uniq_put_elem, elem_of_cons. tauto.
Qed.

(** [all_files] lists the video and the sidecars of a group, each file
    once. *)
Theorem all_files_spec (g : MediaGroup) :
  NoDup (all_files g) /\
  forall x, x ∈ all_files g <-> video g = Some x \/ x ∈ sidecars g.
Proof.
  unfold all_files.
  destruct (uniq_fold (match video g with Some v => [v] | None => [] end ++ sidecars g) [])
    as [Hnd Hel]; [apply NoDup_nil_2|].
  split; [done|]. intros x. rewrite Hel, elem_of_nil, elem_of_app.
  destruct (video g) as [v|].
  - rewrite list_elem_of_singleton. split.
    + intros [[]|[->|?]]; [by left|by right].
    + intros [[= ->]|?]; right; [by left|by right].
  - rewrite elem_of_nil. split.
    + intros [[]|[[]|?]]. by right.
    + intros [?|?]; [done|]. right. by right.
Qed.

End GroupingFacts.

(** ** Further facts about the index

    [upsert_paths] of [sqlite_index.py] fills the table that
    [apply_plan_to_index] keeps up to date. *)

Module IndexFacts.
Import PyStr Operations PlanModel IndexUpdate.

(** The tuple [upsert_paths] appends to [rows] for the path [p]. *)
Definition scan_row (root : string) (ts : Z) (p : string) : row :=
  let '(d, name) :=
    match rsplit1 "/" p with
    | None => ("/", p)
    | Some (d, name) => (if String.eqb d EmptyString then "/" else d, name)
    end in
  let ext :=
    if contains_char "." name
    then lower (match rsplit1 "." name with Some (_, e) => e | None => name end)
    else EmptyString in
  mkRow p d name ext root ts.

(** [upsert_paths], run at time [ts] on the table [db]: the committed
    table and the returned count; [executemany] runs the statement once
    per tuple, in order. *)
Definition upsert_paths (paths : list string) (root : string) (ts : Z) (db : list row)
  : list row * nat :=
  let rows := List.map (scan_row root ts) paths in
  (fold_left upsert rows db, length rows).

(** The primary-key column. *)
Definition paths (db : list row) : list string := List.map r_path db.

(** The row stored under a path, if any. *)
Definition row_at (db : list row) (path : string) : option row :=
  List.find (fun r => String.eqb (r_path r) path) db.

(** The test of [_pick_root_for_path]: the marker [r] contains [path]. *)
Definition covers (r path : string) : bool :=
  let p := PurePosixPath.normalize path in
  let rr := _normalize_root_marker r in
  String.eqb p rr || startswith p (rr +:+ "/").

(** The effect of the prefix [UPDATE] on one row. *)
Definition upd_row (src_prefix dst_prefix src_dir dst_dir : string) (ts : Z)
    (pat : string) (r : row) : row :=
  if sql_like pat (r_path r)
  then upd_prefix_row src_prefix dst_prefix src_dir dst_dir ts r
  else r.

(** An operation the loop of [apply_plan_to_index] passes over. *)
Definition passed_over (op : Operation) : bool :=
  negb (selected op) ||
  match kind op with
  | MKDIR => true
  | MOVE | RENAME => negb (opt_truthy (src op)) || negb (opt_truthy (dst op))
  | LINK | COPY => negb (opt_truthy (dst op))
  end.

(** The sum of the counters. *)
Definition total (s : IndexUpdateStats) : nat :=
  inserted s + deleted s + updated_prefix s.

(** Keys in descending order. *)
Fixpoint descending {A : Type} (key : A -> nat) (l : list A) : Prop :=
  match l with
  | [] => True
  | x :: l' => Forall (fun y => key y <= key x) l' /\ descending key l'
  end.

(** A catalog with two films in one folder, a plan that renames the
    folder, a plan that moves one film, and a plan that only creates a
    directory. *)
Definition films : list row :=
  [ mkRow "/data/films/a.mkv" "/data/films" "a.mkv" "mkv" "/data" 1;
    mkRow "/data/films/b.mkv" "/data/films" "b.mkv" "mkv" "/data" 1 ].

Definition folder_move : Operation :=
  new_operation MOVE (Some "/data/films") (Some "/data/movies") EmptyString true EmptyString.

Definition file_move : Operation :=
  new_operation RENAME (Some "/data/films/a.mkv") (Some "/data/films/A (2001).mkv")
    EmptyString true EmptyString.

Definition make_dir : Operation :=
  new_operation MKDIR None (Some "/data/new") EmptyString true EmptyString.

(** *** Rows by path *)

Lemma row_at_del_path (db : list row) (s p : string) :
  row_at (del_path db s) p = if String.eqb p s then None else row_at db p.
Proof.
  unfold row_at, del_path. induction db as [|r db IH]; cbn [List.filter List.find].
  - by destruct (String.eqb p s).
  - destruct (String.eqb (r_path r) s) eqn:Hs; cbn [negb List.find].
    + rewrite IH. destruct (String.eqb p s) eqn:Hp; [done|].
      destruct (String.eqb (r_path r) p) eqn:Hrp; [|done].
      apply String.eqb_eq in Hs. apply String.eqb_eq in Hrp. subst.
      by rewrite String.eqb_refl in Hp.
    + destruct (String.eqb (r_path r) p) eqn:Hrp; [|apply IH].
      apply String.eqb_eq in Hrp. subst p. by rewrite Hs.
Qed.

Lemma row_at_upsert (db : list row) (new : row) (p : string) :
  row_at (upsert db new) p =
  if String.eqb p (r_path new) then Some new else row_at db p.
Proof.
  unfold row_at. induction db as [|r db IH]; cbn [upsert List.find].
  - rewrite (String.eqb_sym p). by destruct (String.eqb (r_path new) p).
  - destruct (String.eqb (r_path r) (r_path new)) eqn:Hr; cbn [List.find].
    + apply String.eqb_eq in Hr. rewrite Hr, (String.eqb_sym p).
      by destruct (String.eqb (r_path new) p).
    + rewrite IH. destruct (String.eqb (r_path r) p) eqn:Hrp; [|done].
      apply String.eqb_eq in Hrp. subst p. by rewrite Hr.
Qed.

Lemma row_at_path (db : list row) (p : string) (r : row) :
  row_at db p = Some r -> r ∈ db /\ r_path r = p.
Proof.
  unfold row_at. intros [Hin Hp]%find_some.
  split; [by apply list_elem_of_In|by apply String.eqb_eq].
Qed.

Lemma paths_upsert_elem (db : list row) (new : row) (x : string) :
  x ∈ paths (upsert db new) <-> x = r_path new \/ x ∈ paths db.
Proof.
  unfold paths. induction db as [|r db IH]; cbn [upsert List.map].
  - rewrite list_elem_of_singleton, elem_of_nil. tauto.
  - destruct (String.eqb (r_path r) (r_path new)) eqn:Hr; cbn [List.map].
    + apply String.eqb_eq in Hr. rewrite !elem_of_cons, Hr. tauto.
    + rewrite !elem_of_cons, IH. tauto.
Qed.

Lemma paths_upsert_NoDup (db : list row) (new : row) :
  NoDup (paths db) -> NoDup (paths (upsert db new)).
Proof.
  induction db as [|r db IH]; cbn [upsert].
  - intros _. apply NoDup_singleton.
  - intros [Hr Hdb]%NoDup_cons.
    destruct (String.eqb (r_path r) (r_path new)) eqn:E.
    + apply String.eqb_eq in E. unfold paths. cbn [List.map]. rewrite <- E.
      by apply NoDup_cons.
    + change (NoDup (r_path r :: paths (upsert db new))).
      apply NoDup_cons. split; [|by apply IH].
      intros [Heq|Hin]%paths_upsert_elem; [|done].
      rewrite Heq, String.eqb_refl in E. done.
Qed.

Lemma paths_del_path_NoDup (db : list row) (s : string) :
  NoDup (paths db) -> NoDup (paths (del_path db s)).
Proof.
  unfold paths, del_path. induction db as [|r db IH]; [done|].
  cbn [List.map List.filter]. intros [Hr Hdb]%NoDup_cons.
  destruct (negb _); cbn [List.map]; [|by apply IH].
  apply NoDup_cons. split; [|by apply IH].
  intros (r' & Heq & [Hin _]%list_elem_of_In%filter_In)%list_elem_of_fmap.
  apply Hr. rewrite Heq. apply list_elem_of_fmap. exists r'.
  split; [done|]. by apply list_elem_of_In.
Qed.

(** *** The prefix [UPDATE] *)

Lemma upd_prefix_go_spec (sp dp sd dd : string) (ts : Z) (pat : string)
    (before todo : list row) (n : nat) (db' : list row) (n' : nat) :
  upd_prefix_go sp dp sd dd ts pat before todo n = Ok (db', n') ->
  db' = before ++ List.map (upd_row sp dp sd dd ts pat) todo /\
  n' = n + length (List.filter (fun r => sql_like pat (r_path r)) todo) /\
  (NoDup (paths (before ++ todo)) -> NoDup (paths db')).
Proof.
  revert before n. induction todo as [|r todo IH]; intros before n;
    cbn [upd_prefix_go List.map List.filter].
  - intros [= <- <-]. rewrite app_nil_r. cbn. split; [done|]. split; [lia|done].
  - unfold upd_row at 1. destruct (sql_like pat (r_path r)) eqn:Hl.
    + destruct (existsb _ _) eqn:Hex; [done|].
      intros H. apply IH in H as (-> & -> & Hnd).
      split; [by rewrite <- app_assoc|]. split; [cbn [length]; lia|].
      intros Hd. apply Hnd. unfold paths in *.
      rewrite !map_app in *. cbn [List.map] in *.
      rewrite <- app_assoc. cbn [app].
      rewrite <- Permutation_middle in Hd. apply NoDup_cons in Hd as [_ Hd].
      rewrite <- Permutation_middle. apply NoDup_cons. split; [|done].
      rewrite <- map_app. intros (o & Ho & Hin)%list_elem_of_fmap.
      assert (existsb (fun o => String.eqb (r_path o)
                (r_path (upd_prefix_row sp dp sd dd ts r))) (before ++ todo) = true) as Hc.
      { apply existsb_exists. exists o. split; [by apply list_elem_of_In|].
        rewrite Ho. apply String.eqb_refl. }
      congruence.
    + intros H. apply IH in H as (-> & -> & Hnd).
      split; [by rewrite <- app_assoc|]. split; [done|].
      intros Hd. apply Hnd. by rewrite <- app_assoc.
Qed.

(** *** One turn of the loop *)

Lemma apply_op_cases (roots : list string) (ts : Z) (db : list row)
    (stats : IndexUpdateStats) (op : Operation) (db' : list row)
    (stats' : IndexUpdateStats) :
  apply_op roots ts (db, stats) op = Ok (db', stats') ->
  (db' = db /\ stats' = stats) \/
  (exists s new, db' = upsert (del_path db s) new /\
                 stats' = add_inserted (add_deleted stats)) \/
  (exists new, db' = upsert db new /\ stats' = add_inserted stats) \/
  (exists sp dp sd dd pat n,
     upd_prefix db sp dp sd dd ts pat = Ok (db', n) /\
     sel_any_prefix db pat = true /\ stats' = add_updated_prefix n stats).
Proof.
  unfold apply_op.
  assert (forall s d,
    match sel_root db s with
    | Some old_root =>
        let db0 := del_path db s in
        let stats0 := add_deleted stats in
        let root_for_dst :=
          match _pick_root_for_path d roots with
          | Some r => if truthy r then r else old_root
          | None => old_root
          end in
        let '(d0, name, ext) := _split_remote_path d in
        let db1 := upsert db0 (mkRow d d0 name ext root_for_dst ts) in
        Ok (db1, add_inserted stats0)
    | None =>
        let src_dir := rstrip "/" (PurePosixPath.normalize s) in
        let dst_dir := rstrip "/" (PurePosixPath.normalize d) in
        if truthy src_dir && truthy dst_dir && negb (String.eqb src_dir dst_dir)
        then
          let src_prefix := src_dir +:+ "/" in
          let dst_prefix := dst_dir +:+ "/" in
          if sel_any_prefix db (src_prefix +:+ "%") then
            match upd_prefix db src_prefix dst_prefix src_dir dst_dir ts
                    (src_prefix +:+ "%") with
            | Raise e => Raise e
            | Ok (db1, rowcount) => Ok (db1, add_updated_prefix rowcount stats)
            end
          else Ok (db, stats)
        else Ok (db, stats)
    end = Ok (db', stats') ->
    (db' = db /\ stats' = stats) \/
    (exists s new, db' = upsert (del_path db s) new /\
                   stats' = add_inserted (add_deleted stats)) \/
    (exists new, db' = upsert db new /\ stats' = add_inserted stats) \/
    (exists sp dp sd dd pat n,
       upd_prefix db sp dp sd dd ts pat = Ok (db', n) /\
       sel_any_prefix db pat = true /\ stats' = add_updated_prefix n stats)) as Hmove.
  { intros s d. destruct (sel_root db s) as [old|].
    - cbv zeta. destruct (_split_remote_path d) as [[d0 name] ext].
      intros [= <- <-]. right. left. by eexists _, _.
    - cbv zeta. destruct (_ && _); [|intros [= <- <-]; by left].
      destruct (sel_any_prefix _ _) eqn:Hany; [|intros [= <- <-]; by left].
      destruct (upd_prefix _ _ _ _ _ _ _) as [[db1 n]|e] eqn:Hupd; [|done].
      intros [= <- <-]. do 3 right. by eexists _, _, _, _, _, _. }
  assert (forall d from_src,
    (let root_for_dst :=
       match _pick_root_for_path d roots with
       | Some r => if truthy r then r else or_empty from_src
       | None => or_empty from_src
       end in
     let '(d0, name, ext) := _split_remote_path d in
     Ok (upsert db (mkRow d d0 name ext root_for_dst ts), add_inserted stats))
    = (Ok (db', stats') : result IntegrityError _) ->
    exists new, db' = upsert db new /\ stats' = add_inserted stats) as Hcopy.
  { intros d from_src. cbv zeta. destruct (_split_remote_path d) as [[d0 name] ext].
    intros [= <- <-]. by eexists. }
  destruct (kind op).
  - intros [= <- <-]. by left.
  - destruct (src op) as [s|]; [|intros [= <- <-]; by left].
    destruct (dst op) as [d|]; [|intros [= <- <-]; by left].
    destruct (_ || _); [intros [= <- <-]; by left|]. apply Hmove.
  - destruct (src op) as [s|]; [|intros [= <- <-]; by left].
    destruct (dst op) as [d|]; [|intros [= <- <-]; by left].
    destruct (_ || _); [intros [= <- <-]; by left|]. apply Hmove.
  - destruct (dst op) as [d|]; [|intros [= <- <-]; by left].
    destruct (negb _); [intros [= <- <-]; by left|].
    intros H%Hcopy. right. right. by left.
  - destruct (dst op) as [d|]; [|intros [= <- <-]; by left].
    destruct (negb _); [intros [= <- <-]; by left|].
    intros H%Hcopy. right. right. by left.
Qed.

(** *** The primary key *)

Lemma apply_op_NoDup (roots : list string) (ts : Z) (db : list row)
    (stats : IndexUpdateStats) (op : Operation) (db' : list row)
    (stats' : IndexUpdateStats) :
  NoDup (paths db) ->
  apply_op roots ts (db, stats) op = Ok (db', stats') ->
  NoDup (paths db').
Proof.
  intros Hnd [[-> _]|[(s & new & -> & _)|[(new & -> & _)|
    (sp & dp & sd & dd & pat & n & Hupd & _)]]]%apply_op_cases.
  - done.
  - by apply paths_upsert_NoDup, paths_del_path_NoDup.
  - by apply paths_upsert_NoDup.
  - apply upd_prefix_go_spec in Hupd as (_ & _ & H). by apply H.
Qed.

Lemma apply_ops_NoDup (roots : list string) (ts : Z) (ops : list Operation)
    (st st' : list row * IndexUpdateStats) :
  NoDup (paths st.1) -> apply_ops roots ts st ops = Ok st' -> NoDup (paths st'.1).
Proof.
  revert st. induction ops as [|op ops IH]; intros st Hnd; cbn [apply_ops].
  - by intros [= <-].
  - destruct (apply_op roots ts st op) as [[db1 stats1]|e] eqn:Hop; [|done].
    apply IH. destruct st as [db stats]. by eapply apply_op_NoDup.
Qed.

(** A committed update keeps the primary key: when no two rows of the
    index share a path before [apply_plan_to_index], none do
    afterwards. *)
Theorem apply_plan_to_index_keeps_key (h : store) (plan : Plan)
    (roots_hint : option (list string)) (ts : Z) (db db' : list row)
    (stats : IndexUpdateStats) :
  NoDup (paths db) ->
  apply_plan_to_index h plan roots_hint ts db = Ok (db', stats) ->
  NoDup (paths db').
Proof.
  intros Hnd Hrun. unfold apply_plan_to_index in Hrun.
  by apply (apply_ops_NoDup _ _ _ (db, mkStats 0 0 0) (db', stats)) in Hrun.
Qed.

Lemma apply_plan_to_index_keeps_key_witness :
  exists db' stats,
    apply_plan_to_index [folder_move; file_move] (mkPlan "tidy" [0; 1] []) None 2 films
      = Ok (db', stats) /\
    NoDup (paths db').
Proof.
  eexists _, _. split; [vm_compute; reflexivity|].
  apply (apply_plan_to_index_keeps_key [folder_move; file_move]
           (mkPlan "tidy" [0; 1] []) None 2 films _ (mkStats 0 0 2)).
  - apply (bool_decide_unpack _). vm_compute. exact I.
  - vm_compute. reflexivity.
Defined.

(** *** The counters *)

Lemma existsb_filter_length {A : Type} (f : A -> bool) (l : list A) :
  existsb f l = true -> 0 < length (List.filter f l).
Proof.
  induction l as [|x l IH]; [done|]. cbn [existsb List.filter].
  destruct (f x); cbn [length orb]; [lia|done].
Qed.

Lemma apply_op_total (roots : list string) (ts : Z)
    (st st' : list row * IndexUpdateStats) (op : Operation) :
  apply_op roots ts st op = Ok st' -> st' = st \/ total st.2 < total st'.2.
Proof.
  destruct st as [db stats], st' as [db' stats'].
  intros [[-> ->]|[(s & new & -> & ->)|[(new & -> & ->)|
    (sp & dp & sd & dd & pat & n & Hupd & Hany & ->)]]]%apply_op_cases.
  - by left.
  - right. unfold total. cbn. lia.
  - right. unfold total. cbn. lia.
  - right. apply upd_prefix_go_spec in Hupd as (_ & -> & _).
    apply existsb_filter_length in Hany. unfold total. cbn in *. lia.
Qed.

Lemma apply_ops_total (roots : list string) (ts : Z) (ops : list Operation)
    (st st' : list row * IndexUpdateStats) :
  apply_ops roots ts st ops = Ok st' ->
  total st.2 <= total st'.2 /\ (total st'.2 = total st.2 -> st' = st).
Proof.
  revert st. induction ops as [|op ops IH]; intros st; cbn [apply_ops].
  - intros [= <-]. done.
  - destruct (apply_op roots ts st op) as [st1|e] eqn:Hop; [|done].
    intros [Hle Heq]%IH. apply apply_op_total in Hop as [->|Hlt]; [done|].
    split; [lia|]. intros Hz. lia.
Qed.

(** The counters account for every change: an update that reports no
    insertion, no deletion and no rewritten row has left the index as it
    was. *)
Theorem apply_plan_to_index_zero_stats (h : store) (plan : Plan)
    (roots_hint : option (list string)) (ts : Z) (db db' : list row) :
  apply_plan_to_index h plan roots_hint ts db = Ok (db', mkStats 0 0 0) ->
  db' = db.
Proof.
  unfold apply_plan_to_index. intros [_ Heq]%apply_ops_total.
  specialize (Heq eq_refl). by injection Heq.
Qed.

Lemma apply_plan_to_index_zero_stats_witness : films = films.
Proof.
  apply (apply_plan_to_index_zero_stats [make_dir; folder_move]
           (mkPlan "dirs" [0] []) None 2 films films).
  vm_compute. reflexivity.
Defined.

Lemma apply_ops_passed_over (roots : list string) (ts : Z) (ops : list Operation)
    (st : list row * IndexUpdateStats) :
  Forall (fun op => passed_over op = true) ops ->
  apply_ops roots ts st (List.filter selected ops) = Ok st.
Proof.
  induction 1 as [|op ops Hop _ IH]; [done|]. cbn [List.filter].
  unfold passed_over in Hop. destruct (selected op); [|done].
  cbn [negb orb] in Hop. cbn [apply_ops].
  assert (apply_op roots ts st op = Ok st) as ->; [|done].
  unfold apply_op. destruct st as [db stats].
  destruct (kind op); [done|..].
  - destruct (src op) as [s|], (dst op) as [d|]; try done.
    cbn [opt_truthy] in Hop. by rewrite Hop.
  - destruct (src op) as [s|], (dst op) as [d|]; try done.
    cbn [opt_truthy] in Hop. by rewrite Hop.
  - destruct (dst op) as [d|]; [|done]. cbn [opt_truthy] in Hop. by rewrite Hop.
  - destruct (dst op) as [d|]; [|done]. cbn [opt_truthy] in Hop. by rewrite Hop.
Qed.

(** Operations that are not selected, that create a directory, or that
    lack a source (for a move or rename) or a destination never touch
    the index: a plan of such operations leaves every row as it was and
    counts nothing. *)
Theorem apply_plan_to_index_passes_over (h : store) (plan : Plan)
    (roots_hint : option (list string)) (ts : Z) (db : list row) :
  Forall (fun op => passed_over op = true) (plan_operations h plan) ->
  apply_plan_to_index h plan roots_hint ts db = Ok (db, mkStats 0 0 0).
Proof. intros Hall. unfold apply_plan_to_index. by apply apply_ops_passed_over. Qed.

Lemma apply_plan_to_index_passes_over_witness :
  apply_plan_to_index
    [make_dir; new_operation MOVE (Some "/data/films") None EmptyString true EmptyString;
     mkOperation RENAME (Some "/data/films/a.mkv") (Some "/data/films/z.mkv") EmptyString false EmptyString EmptyString]
    (mkPlan "dirs" [0; 1; 2] []) None 2 films
  = Ok (films, mkStats 0 0 0).
Proof.
  apply (apply_plan_to_index_passes_over
           [make_dir; new_operation MOVE (Some "/data/films") None EmptyString true EmptyString;
            mkOperation RENAME (Some "/data/films/a.mkv") (Some "/data/films/z.mkv") EmptyString false EmptyString EmptyString]
           (mkPlan "dirs" [0; 1; 2] []) None 2 films).
  repeat constructor.
Defined.


(** *** Moving an indexed file *)

(** A move or rename whose source is a row of the index removes that row
    and stores the destination: afterwards the destination has a row
    with the directory, name and extension of [_split_remote_path], the
    time of the update and either the old root or a marker that
    contains the destination; the source has no row unless it is the
    destination; every other path keeps its row; one deletion and one
    insertion are counted. *)
Theorem file_move_index (roots : list string) (ts : Z) (db : list row)
    (stats : IndexUpdateStats) (op : Operation) (s d old_root : string) :
  is_move_or_rename (kind op) = true ->
  src op = Some s -> dst op = Some d ->
  truthy s = true -> truthy d = true ->
  sel_root db s = Some old_root ->
  exists db' new,
    apply_op roots ts (db, stats) op = Ok (db', add_inserted (add_deleted stats)) /\
    r_path new = d /\
    (r_dir new, r_name new, r_ext new) = _split_remote_path d /\
    r_scanned_at new = ts /\
    (r_root new = old_root \/ (r_root new ∈ roots /\ covers (r_root new) d = true)) /\
    forall p, row_at db' p =
              if String.eqb p d then Some new
              else if String.eqb p s then None else row_at db p.
Proof.
  intros Hk Hs Hd Hts Htd Hsel.
  assert (apply_op roots ts (db, stats) op =
          let root_for_dst :=
            match _pick_root_for_path d roots with
            | Some r => if truthy r then r else old_root
            | None => old_root
            end in
          let '(d0, name, ext) := _split_remote_path d in
          Ok (upsert (del_path db s) (mkRow d d0 name ext root_for_dst ts),
              add_inserted (add_deleted stats))) as ->.
  { unfold apply_op. rewrite Hs, Hd, Hts, Htd, Hsel.
    by destruct (kind op). }
  cbv zeta. destruct (_split_remote_path d) as [[d0 name] ext].
  eexists _, (mkRow d d0 name ext
                match _pick_root_for_path d roots with
                | Some r => if truthy r then r else old_root
                | None => old_root
                end ts).
  split; [reflexivity|].
  cbn [r_path r_dir r_name r_ext r_root r_scanned_at].
  do 3 (split; [done|]). split.
  - destruct (_pick_root_for_path d roots) as [r|] eqn:Hpick; [|by left].
    destruct (truthy r); [|by left]. right.
    apply find_some in Hpick as [Hin Hc]. split; [by apply list_elem_of_In|done].
  - intros p. by rewrite row_at_upsert, row_at_del_path.
Qed.

Lemma file_move_index_witness :
  exists db' new,
    apply_op ["/data"] 2 (films, mkStats 0 0 0) file_move
      = Ok (db', add_inserted (add_deleted (mkStats 0 0 0))) /\
    r_path new = "/data/films/A (2001).mkv" /\
    (r_dir new, r_name new, r_ext new) = _split_remote_path "/data/films/A (2001).mkv" /\
    r_scanned_at new = 2%Z /\
    (r_root new = "/data" \/
     (r_root new ∈ ["/data"] /\ covers (r_root new) "/data/films/A (2001).mkv" = true)) /\
    forall p, row_at db' p =
              if String.eqb p "/data/films/A (2001).mkv" then Some new
              else if String.eqb p "/data/films/a.mkv" then None else row_at films p.
Proof.
  apply (file_move_index ["/data"] 2 films (mkStats 0 0 0) file_move
           "/data/films/a.mkv" "/data/films/A (2001).mkv" "/data"); reflexivity.
Defined.

(** *** Renaming a folder *)

Lemma like_any (pat s : string) :
  sql_like pat s = true -> sql_like (String "%" pat) s = true.
Proof.
  intros H. cbn [sql_like]. rewrite Ascii.eqb_refl. destruct s; by rewrite H.
Qed.

Lemma like_any_cons (pat : string) (c : ascii) (s : string) :
  sql_like (String "%" pat) s = true -> sql_like (String "%" pat) (String c s) = true.
Proof.
  cbn [sql_like]. rewrite Ascii.eqb_refl. intros ->. apply orb_true_r.
Qed.

Lemma like_percent (s : string) : sql_like "%" s = true.
Proof.
  induction s as [|c s IH]; [done|]. by apply like_any_cons.
Qed.

(** No path below a folder escapes the pattern of its prefix. *)
Lemma like_prefix (p rest : string) : sql_like (p +:+ "%") (p +:+ rest) = true.
Proof.
  induction p as [|pc p IH]; [apply like_percent|].
  rewrite !sapp_cons. destruct (Ascii.eqb pc "%") eqn:E.
  - apply Ascii.eqb_eq in E. subst pc. by apply like_any_cons, like_any.
  - cbn [sql_like]. by rewrite E, Ascii.eqb_refl, orb_true_r, IH.
Qed.

Lemma replace_go_skip (old new a rest : string) :
  replace_go old new (String.length a) (a +:+ rest) = replace_go old new 0 rest.
Proof.
  induction a as [|c a IH]; [done|]. rewrite sapp_cons. cbn [String.length replace_go].
  apply IH.
Qed.

Lemma replace_go_absent (old new s : string) :
  contains old s = false -> replace_go old new 0 s = s.
Proof.
  induction s as [|c s IH]; [done|]. cbn [contains replace_go].
  intros [Hp Hc]%orb_false_iff. by rewrite Hp, IH.
Qed.

Lemma prefix_app (p rest : string) : String.prefix p (p +:+ rest) = true.
Proof.
  induction p as [|c p IH]; [apply prefix_nil|]. rewrite sapp_cons. cbn [String.prefix].
  by destruct (ascii_dec c c).
Qed.

(** [REPLACE] rewrites just the leading prefix when the prefix does not
    come back in the rest of the text. *)
Lemma sql_replace_prefix (p z rest : string) :
  truthy p = true -> contains p rest = false ->
  sql_replace (p +:+ rest) p z = z +:+ rest.
Proof.
  intros Hp Hrest. destruct p as [|c p]; [done|]. unfold sql_replace.
  pose proof (prefix_app (String c p) rest) as Hpre. rewrite sapp_cons in *.
  cbn [replace_go]. rewrite Hpre.
  replace (String.length (String c p) - 1) with (String.length p)
    by (cbn [String.length]; lia).
  by rewrite replace_go_skip, replace_go_absent.
Qed.

(** A move or rename of a folder that is no row of the index carries the
    rows below it along: a row whose path is the folder, a slash and a
    rest in which the folder prefix does not come back is stored, after
    a committed update, under the new folder with the same rest; its
    name, extension and root stay, its time is that of the update, and
    when its directory was the folder itself it is now the new
    folder. *)
Theorem directory_rename_index (roots : list string) (ts : Z) (db db' : list row)
    (stats stats' : IndexUpdateStats) (op : Operation) (s d rest : string) (r : row) :
  is_move_or_rename (kind op) = true ->
  src op = Some s -> dst op = Some d ->
  truthy s = true -> truthy d = true ->
  sel_root db s = None ->
  truthy (rstrip "/" (PurePosixPath.normalize s)) = true ->
  truthy (rstrip "/" (PurePosixPath.normalize d)) = true ->
  rstrip "/" (PurePosixPath.normalize s) <> rstrip "/" (PurePosixPath.normalize d) ->
  apply_op roots ts (db, stats) op = Ok (db', stats') ->
  r ∈ db ->
  r_path r = rstrip "/" (PurePosixPath.normalize s) +:+ "/" +:+ rest ->
  contains (rstrip "/" (PurePosixPath.normalize s) +:+ "/") rest = false ->
  exists r',
    r' ∈ db' /\
    r_path r' = rstrip "/" (PurePosixPath.normalize d) +:+ "/" +:+ rest /\
    r_name r' = r_name r /\ r_ext r' = r_ext r /\ r_root r' = r_root r /\
    r_scanned_at r' = ts /\
    (r_dir r = rstrip "/" (PurePosixPath.normalize s) ->
     r_dir r' = rstrip "/" (PurePosixPath.normalize d)).
Proof.
  intros Hk Hs Hd Hts Htd Hsel.
  set (sd := rstrip "/" (PurePosixPath.normalize s)).
  set (dd := rstrip "/" (PurePosixPath.normalize d)).
  intros Hsd Hdd Hne Hrun Hr Hpath Hrest.
  assert (sql_like ((sd +:+ "/") +:+ "%") (r_path r) = true) as Hlike.
  { rewrite Hpath, <- sapp_assoc. apply like_prefix. }
  assert (sel_any_prefix db ((sd +:+ "/") +:+ "%") = true) as Hany.
  { apply existsb_exists. exists r. split; [by apply list_elem_of_In|done]. }
  assert (apply_op roots ts (db, stats) op =
          match upd_prefix db (sd +:+ "/") (dd +:+ "/") sd dd ts ((sd +:+ "/") +:+ "%") with
          | Raise e => Raise e
          | Ok (db1, rowcount) => Ok (db1, add_updated_prefix rowcount stats)
          end) as Hop.
  { unfold apply_op. rewrite Hs, Hd, Hts, Htd, Hsel. fold sd dd.
    apply String.eqb_neq in Hne. rewrite Hsd, Hdd, Hne, Hany.
    by destruct (kind op). }
  rewrite Hop in Hrun.
  destruct (upd_prefix _ _ _ _ _ _ _) as [[db1 n]|e] eqn:Hupd; [|done].
  injection Hrun as <- <-.
  apply upd_prefix_go_spec in Hupd as (-> & _ & _). cbn [app].
  exists (upd_row (sd +:+ "/") (dd +:+ "/") sd dd ts ((sd +:+ "/") +:+ "%") r).
  split. { apply list_elem_of_fmap. by exists r. }
  unfold upd_row. rewrite Hlike. unfold upd_prefix_row.
  cbn [r_path r_dir r_name r_ext r_root r_scanned_at].
  repeat split.
  - rewrite Hpath, <- sapp_assoc, sql_replace_prefix, sapp_assoc; try done.
    by destruct sd.
  - intros ->. by rewrite String.eqb_refl.
Qed.

Lemma directory_rename_index_witness :
  exists r',
    r' ∈ [ mkRow "/data/movies/a.mkv" "/data/movies" "a.mkv" "mkv" "/data" 2;
           mkRow "/data/movies/b.mkv" "/data/movies" "b.mkv" "mkv" "/data" 2 ] /\
    r_path r' = rstrip "/" (PurePosixPath.normalize "/data/movies") +:+ "/" +:+ "a.mkv" /\
    r_name r' = "a.mkv" /\ r_ext r' = "mkv" /\ r_root r' = "/data" /\
    r_scanned_at r' = 2%Z /\
    ("/data/films" = rstrip "/" (PurePosixPath.normalize "/data/films") ->
     r_dir r' = rstrip "/" (PurePosixPath.normalize "/data/movies")).
Proof.
  apply (directory_rename_index ["/data"] 2 films _ (mkStats 0 0 0) (mkStats 0 0 2)
           folder_move "/data/films" "/data/movies" "a.mkv"
           (mkRow "/data/films/a.mkv" "/data/films" "a.mkv" "mkv" "/data" 1));
    try reflexivity.
  - vm_compute. discriminate.
  - left.
Defined.

(** *** The root of a path *)

Lemma insert_desc_elem {A : Type} (key : A -> nat) (x y : A) (l : list A) :
  y ∈ insert_desc key x l <-> y = x \/ y ∈ l.
Proof.
  induction l as [|z l IH]; cbn [insert_desc].
  - rewrite list_elem_of_singleton, elem_of_nil. tauto.
  - destruct (key z <=? key x).
    + by rewrite elem_of_cons.
    + rewrite !elem_of_cons, IH. tauto.
Qed.

Lemma insert_desc_descending {A : Type} (key : A -> nat) (x : A) (l : list A) :
  descending key l -> descending key (insert_desc key x l).
Proof.
  induction l as [|z l IH]; cbn [insert_desc descending].
  - intros _. split; [by constructor|done].
  - intros [Hz Hl]. destruct (key z <=? key x) eqn:E.
    + apply Nat.leb_le in E. cbn [descending]. split; [|done].
      constructor; [done|]. eapply Forall_impl; [exact Hz|]. cbn. intros. lia.
    + apply Nat.leb_gt in E. cbn [descending]. split; [|by apply IH].
      apply Forall_forall. intros y [->|Hy]%insert_desc_elem; [lia|].
      rewrite Forall_forall in Hz. by apply Hz.
Qed.

Lemma sorted_desc_descending {A : Type} (key : A -> nat) (l : list A) :
  descending key (sorted_desc key l).
Proof.
  unfold sorted_desc. induction l as [|x l IH]; [done|].
  cbn [foldr]. by apply insert_desc_descending.
Qed.

Lemma find_descending {A : Type} (key : A -> nat) (f : A -> bool) (l : list A) (r : A) :
  descending key l -> List.find f l = Some r ->
  r ∈ l /\ f r = true /\ forall r', r' ∈ l -> f r' = true -> key r' <= key r.
Proof.
  induction l as [|x l IH]; [done|]. cbn [descending List.find]. intros [Hx Hl].
  destruct (f x) eqn:Hfx.
  - intros [= <-]. split; [by left|]. split; [done|].
    intros r' [->|Hr']%elem_of_cons _; [lia|].
    rewrite Forall_forall in Hx. by apply Hx.
  - intros (Hin & Hf & Hmax)%IH; [|done]. split; [by right|]. split; [done|].
    intros r' [->|Hr']%elem_of_cons Hf'; [congruence|]. by apply Hmax.
Qed.

(** With the markers [apply_plan_to_index] puts together,
    [_pick_root_for_path] returns a marker that contains the path and
    whose normal form is at least as long as that of any other marker
    that contains it. *)
Theorem pick_root_longest (db : list row) (roots_hint : option (list string))
    (path r : string) :
  _pick_root_for_path path (root_markers db roots_hint) = Some r ->
  r ∈ root_markers db roots_hint /\ covers r path = true /\
  forall r', r' ∈ root_markers db roots_hint -> covers r' path = true ->
    String.length (_normalize_root_marker r') <= String.length (_normalize_root_marker r).
Proof.
  intros Hpick.
  apply (find_descending (fun x => String.length (_normalize_root_marker x))
           (fun r => covers r path)); [|exact Hpick].
  apply sorted_desc_descending.
Qed.

Lemma pick_root_longest_witness :
  "/data/films" ∈ root_markers films (Some ["/data/films"; "/"]) /\
  covers "/data/films" "/data/films/a.mkv" = true /\
  forall r', r' ∈ root_markers films (Some ["/data/films"; "/"]) ->
    covers r' "/data/films/a.mkv" = true ->
    String.length (_normalize_root_marker r') <=
    String.length (_normalize_root_marker "/data/films").
Proof.
  apply (pick_root_longest films (Some ["/data/films"; "/"]) "/data/films/a.mkv"
           "/data/films").
  reflexivity.
Defined.

(** *** Directory, name and extension *)

Lemma rsplit1_None (sep : ascii) (s : string) :
  rsplit1 sep s = None <-> contains_char sep s = false.
Proof.
  induction s as [|c s IH]; [done|]. cbn [rsplit1 contains_char].
  rewrite (Ascii.eqb_sym sep c).
  destruct (rsplit1 sep s) as [[a b]|].
  - split; [done|]. intros [_ H]%orb_false_iff. apply IH in H. done.
  - destruct (Ascii.eqb c sep); [done|]. cbn [orb]. split; [|done].
    intros _. by apply IH.
Qed.

Lemma rsplit1_Some (sep : ascii) (s a b : string) :
  rsplit1 sep s = Some (a, b) ->
  s = a +:+ String sep b /\ contains_char sep b = false.
Proof.
  revert a. induction s as [|c s IH]; intros a; [done|]. cbn [rsplit1].
  destruct (rsplit1 sep s) as [[a' b']|] eqn:E.
  - intros [= <- <-]. destruct (IH a' eq_refl) as [-> Hb]. by rewrite sapp_cons.
  - destruct (Ascii.eqb c sep) eqn:Hc; [|done]. intros [= <- <-].
    apply Ascii.eqb_eq in Hc. subst c. split; [done|]. by apply rsplit1_None.
Qed.

(** [_split_remote_path] cuts the path at its last slash and the name at
    its last dot: the name has no slash; a path without a slash is a name
    in the directory [/]; otherwise the text before the last slash, that
    slash and the name give the path back, and the directory is that
    text, or [/] when it is empty; the extension is empty for a name
    without a dot, and otherwise the text after the last dot of the name
    in lower case. *)
Theorem split_remote_path_spec (path : string) :
  let '(d, name, ext) := _split_remote_path path in
  contains_char "/" name = false /\
  (contains_char "/" path = false -> d = "/" /\ name = path) /\
  (contains_char "/" path = true ->
     exists d0, path = d0 +:+ "/" +:+ name /\ d = if truthy d0 then d0 else "/") /\
  (contains_char "." name = false -> ext = EmptyString) /\
  (contains_char "." name = true ->
     exists base e, name = base +:+ "." +:+ e /\ contains_char "." e = false /\
                    ext = lower e).
Proof.
  unfold _split_remote_path.
  assert (forall name : string,
    (contains_char "." name = false ->
       (if contains_char "." name
        then lower (match rsplit1 "." name with Some (_, e) => e | None => name end)
        else EmptyString) = EmptyString) /\
    (contains_char "." name = true ->
       exists base e, name = base +:+ "." +:+ e /\ contains_char "." e = false /\
         (if contains_char "." name
          then lower (match rsplit1 "." name with Some (_, e) => e | None => name end)
          else EmptyString) = lower e)) as Hext.
  { intros name. split; [by intros ->|]. intros Hdot. rewrite Hdot.
    destruct (rsplit1 "." name) as [[base e]|] eqn:E.
    - apply rsplit1_Some in E as [-> He]. by exists base, e.
    - apply rsplit1_None in E. congruence. }
  destruct (rsplit1 "/" path) as [[d0 name]|] eqn:E.
  - apply rsplit1_Some in E as [-> Hname].
    split; [done|]. split.
    + intros Hno. exfalso. clear -Hno. induction d0 as [|c d0 IH].
      * cbn in Hno. done.
      * rewrite sapp_cons in Hno. cbn [contains_char] in Hno.
        apply orb_false_iff in Hno as [_ Hno]. by apply IH.
    + split; [intros _; by exists d0|]. apply Hext.
  - apply rsplit1_None in E. split; [done|]. split; [done|].
    split; [congruence|]. apply Hext.
Qed.

(** *** Scanning *)

Lemma scan_row_split (root : string) (ts : Z) (p : string) :
  scan_row root ts p =
  let '(d, name, ext) := _split_remote_path p in mkRow p d name ext root ts.
Proof.
  unfold scan_row, _split_remote_path.
  destruct (rsplit1 "/" p) as [[d name]|]; [|done]. by destruct d.
Qed.

Lemma row_at_scan_other (rows : list row) (db : list row) (p : string) :
  p ∉ paths rows -> row_at (fold_left upsert rows db) p = row_at db p.
Proof.
  revert db. induction rows as [|r rows IH]; intros db Hp; [done|].
  cbn [fold_left]. unfold paths in Hp. cbn [List.map] in Hp.
  apply not_elem_of_cons in Hp as [Hne Hp]. rewrite IH, row_at_upsert; [|done].
  destruct (String.eqb p (r_path r)) eqn:E; [|done]. by apply String.eqb_eq in E.
Qed.

Lemma row_at_scan (root : string) (ts : Z) (pths : list string) (db : list row)
    (p : string) :
  p ∈ pths ->
  row_at (fold_left upsert (List.map (scan_row root ts) pths) db) p =
  Some (scan_row root ts p).
Proof.
  assert (forall q, r_path (scan_row root ts q) = q) as Hpath.
  { intros q. rewrite scan_row_split. by destruct (_split_remote_path q) as [[? ?] ?]. }
  assert (forall l, paths (List.map (scan_row root ts) l) = l) as Hpaths.
  { intros l. unfold paths. rewrite List.map_map. rewrite <- (map_id l) at 2.
    by apply map_ext. }
  revert db. induction pths as [|q pths IH]; intros db; [by intros ?%elem_of_nil|].
  intros Hin. cbn [List.map fold_left].
  destruct (decide (p ∈ pths)) as [Hp|Hp]; [by apply IH|].
  apply elem_of_cons in Hin as [->|Hin]; [|done].
  rewrite row_at_scan_other, row_at_upsert; [|by rewrite Hpaths].
  by rewrite Hpath, String.eqb_refl.
Qed.

Lemma fold_upsert_NoDup (rows db : list row) :
  NoDup (paths db) -> NoDup (paths (fold_left upsert rows db)).
Proof.
  revert db. induction rows as [|r rows IH]; intros db Hnd; [done|].
  cbn [fold_left]. by apply IH, paths_upsert_NoDup.
Qed.

(** After [upsert_paths] every given path has a row with the given
    root, the time of the scan and the directory, name and extension
    [_split_remote_path] gives, so a scan and a plan update describe a
    path alike; the rows of the other paths are as before; the primary
    key is kept; and the count returned is the number of paths given,
    repeated ones included. *)
Theorem upsert_paths_spec (pths : list string) (root : string) (ts : Z) (db : list row) :
  let '(db', n) := upsert_paths pths root ts db in
  n = length pths /\
  (forall p, p ∈ pths ->
     row_at db' p =
     Some (let '(d, name, ext) := _split_remote_path p in mkRow p d name ext root ts)) /\
  (forall p, p ∉ pths -> row_at db' p = row_at db p) /\
  (NoDup (paths db) -> NoDup (paths db')).
Proof.
  unfold upsert_paths. split; [apply length_map|]. split; [|split].
  - intros p Hp. rewrite <- scan_row_split. by apply row_at_scan.
  - intros p Hp. apply row_at_scan_other. unfold paths. rewrite List.map_map.
    intros (q & Hq & Hin)%list_elem_of_fmap. apply Hp.
    rewrite scan_row_split in Hq. destruct (_split_remote_path q) as [[? ?] ?].
    by subst p.
  - apply fold_upsert_NoDup.
Qed.

End IndexFacts.

(** ** [ps_here_string] of [jfo/core/quoting.py] *)

Module HereString.
Import PyStr.

Definition LF : ascii := "010"%char.

(** The text that closes a PowerShell here-string: a line feed, a quote
    and an at sign. *)
Definition terminator : string := String LF "'@".

(** What [ps_here_string] puts in its place. *)
Definition defused : string := String LF "' @".

(** [ps_here_string]. *)
Definition ps_here_string (text : string) : string :=
  let text :=
    if contains terminator text then replace terminator defused text else text in
  ("@'" +:+ String LF text) +:+ terminator.

(** *** Occurrences of the terminator *)

Lemma prefix_terminator (c : ascii) (s : string) :
  String.prefix terminator (String c s) =
  if ascii_dec LF c then String.prefix "'@" s else false.
Proof. reflexivity. Qed.

Lemma prefix_quote_at (c : ascii) (s : string) :
  String.prefix "'@" (String c s) =
  if ascii_dec "'" c then String.prefix "@" s else false.
Proof. reflexivity. Qed.

Lemma prefix_one (a c : ascii) (s : string) :
  String.prefix (String a EmptyString) (String c s) =
  if ascii_dec a c then true else false.
Proof. cbn [String.prefix]. by rewrite prefix_nil. Qed.

Lemma prefix_split (p s : string) :
  String.prefix p s = true -> exists rest, s = p +:+ rest.
Proof.
  revert s. induction p as [|a p IH]; intros s; [by exists s|].
  destruct s as [|c s]; [done|]. cbn [String.prefix].
  destruct (ascii_dec a c) as [->|]; [|done].
  intros [rest ->]%IH. by exists rest.
Qed.

Lemma replace_match (rest : string) :
  replace_go terminator defused 0 (terminator +:+ rest) =
  defused +:+ replace_go terminator defused 0 rest.
Proof.
  change (terminator +:+ rest) with (String LF (String "'" (String "@" rest))).
  cbn [replace_go]. rewrite prefix_terminator, prefix_quote_at, prefix_one. reflexivity.
Qed.

Lemma replace_other (c : ascii) (s : string) :
  String.prefix terminator (String c s) = false ->
  replace_go terminator defused 0 (String c s) =
  String c (replace_go terminator defused 0 s).
Proof. intros H. cbn [replace_go]. by rewrite H. Qed.

Lemma contains_defused (s : string) :
  contains terminator (defused +:+ s) = contains terminator s.
Proof. reflexivity. Qed.

(** The rewritten text holds no terminator, and begins as the text did. *)
Lemma replace_defuses (s : string) :
  (forall a, String.prefix (String a EmptyString) (replace_go terminator defused 0 s) =
             String.prefix (String a EmptyString) s) /\
  String.prefix "'@" (replace_go terminator defused 0 s) = String.prefix "'@" s /\
  contains terminator (replace_go terminator defused 0 s) = false.
Proof.
  remember (String.length s) as n eqn:Hn. revert s Hn.
  induction n as [n IH] using lt_wf_ind. intros s Hn.
  destruct s as [|c s]; [done|].
  destruct (String.prefix terminator (String c s)) eqn:Hp.
  - apply prefix_split in Hp as [rest Hrest]. rewrite Hrest, replace_match.
    destruct (IH (String.length rest)) with (s := rest) as (_ & _ & Hc); [|done|].
    { rewrite Hn, Hrest.
      change (terminator +:+ rest) with (String LF (String "'" (String "@" rest))).
      cbn [String.length]. lia. }
    split; [|split].
    + intros a. reflexivity.
    + reflexivity.
    + by rewrite contains_defused.
  - rewrite (replace_other _ _ Hp).
    destruct (IH (String.length s)) with (s := s) as (H1 & H2 & H3); [|done|].
    { rewrite Hn. cbn [String.length]. lia. }
    split; [|split].
    + intros a. by rewrite !prefix_one.
    + by rewrite !prefix_quote_at, H1.
    + cbn [contains]. rewrite H3, orb_false_r.
      rewrite prefix_terminator in *. by rewrite H2.
Qed.

Lemma prefix_quote_at_app (t : string) :
  String.prefix "'@" (t +:+ String LF "'") = String.prefix "'@" t.
Proof.
  destruct t as [|c1 [|c2 t]].
  - reflexivity.
  - rewrite sapp_cons, sapp_nil_l, !prefix_quote_at. by destruct (ascii_dec "'" c1).
  - rewrite !sapp_cons, !prefix_quote_at, !prefix_one. done.
Qed.

Lemma contains_app_tail (t : string) :
  contains terminator t = false -> contains terminator (t +:+ String LF "'") = false.
Proof.
  induction t as [|c t IH]; [done|]. rewrite sapp_cons. cbn [contains].
  intros [Hp Hc]%orb_false_iff. rewrite IH, orb_false_r by done.
  rewrite prefix_terminator in *. by rewrite prefix_quote_at_app.
Qed.

Lemma contains_occurrence (pre post : string) :
  contains terminator (pre +:+ terminator +:+ post) = true.
Proof.
  induction pre as [|c pre IH].
  - change (EmptyString +:+ terminator +:+ post)
      with (String LF (String "'" (String "@" post))).
    cbn [contains]. by rewrite prefix_terminator, prefix_quote_at, prefix_one.
  - rewrite sapp_cons. cbn [contains]. rewrite IH. apply orb_true_r.
Qed.

Lemma snoc_split (s : string) :
  s <> EmptyString -> exists q c, s = q +:+ String c EmptyString.
Proof.
  induction s as [|a s IH]; [done|]. intros _. destruct s as [|b s].
  - by exists EmptyString, a.
  - destruct IH as (q & c & Hq); [done|]. exists (String a q), c.
    by rewrite sapp_cons, <- Hq.
Qed.

Lemma snoc_inj (s t : string) (a b : ascii) :
  s +:+ String a EmptyString = t +:+ String b EmptyString -> s = t.
Proof.
  revert t. induction s as [|c s IH]; intros [|d t]; try done.
  - rewrite sapp_cons, sapp_nil_l. intros [= _ H]. by destruct t.
  - rewrite sapp_cons, sapp_nil_l. intros [= _ H]. by destruct s.
  - rewrite !sapp_cons. intros [= -> H]. by rewrite (IH t H).
Qed.

(** Unless the text itself begins with a quote and an at sign, the
    here-string [ps_here_string] returns is closed only by its last
    three characters: wherever the terminator occurs in it, nothing
    follows. *)
Theorem ps_here_string_closed_at_end (text pre post : string) :
  startswith text "'@" = false ->
  ps_here_string text = pre +:+ terminator +:+ post ->
  post = EmptyString.
Proof.
  unfold startswith, ps_here_string. intros Hstart Hocc.
  set (body := if contains terminator text
               then replace terminator defused text else text) in Hocc.
  assert (String.prefix "'@" body = false /\ contains terminator body = false)
    as [Hb1 Hb2].
  { unfold body. destruct (contains terminator text) eqn:Hc; [|done].
    change (replace terminator defused text)
      with (replace_go terminator defused 0 text).
    destruct (replace_defuses text) as (_ & H2 & H3). by rewrite H2. }
  destruct (decide (post = EmptyString)) as [|Hpost]; [done|]. exfalso.
  destruct (snoc_split post Hpost) as (q & c & ->).
  assert (("@'" +:+ String LF (body +:+ String LF "'")) +:+ "@" =
          (pre +:+ terminator +:+ q) +:+ String c EmptyString) as Heq.
  { rewrite !sapp_assoc. rewrite !sapp_assoc in Hocc. rewrite <- Hocc.
    cbn [terminator]. by rewrite !sapp_cons, !sapp_nil_l, !sapp_assoc. }
  apply snoc_inj in Heq.
  pose proof (contains_occurrence pre q) as Hin. rewrite <- Heq in Hin.
  assert (contains terminator ("@'" +:+ String LF (body +:+ String LF "'")) = false)
    as Hout; [|congruence].
  change (contains terminator ("@'" +:+ String LF (body +:+ String LF "'")))
    with (String.prefix terminator (String LF (body +:+ String LF "'"))
          || contains terminator (body +:+ String LF "'")).
  rewrite prefix_terminator, contains_app_tail by done.
  cbn. by rewrite prefix_quote_at_app, Hb1.
Qed.

Lemma ps_here_string_closed_at_end_witness : EmptyString = EmptyString :> string.
Proof.
  apply (ps_here_string_closed_at_end
           (String "a" (terminator +:+ "b"))
           ("@'" +:+ String LF (String "a" (defused +:+ "b")))
           EmptyString); reflexivity.
Defined.

(** A text that begins with a quote and an at sign closes the
    here-string at once. *)
Lemma ps_here_string_closed_early :
  ps_here_string "'@ x" = ("@'" +:+ terminator) +:+ (" x" +:+ terminator).
Proof. reflexivity. Qed.

End HereString.

(** ** [jfo/infra/remote_fs.py]: paths typed by the user *)

Module RemoteFs.
Import PyStr.

(** [normalize_posix_path]. *)
Definition normalize_posix_path (raw : string) : string :=
  if negb (truthy raw) then "/"
  else
    let p := PurePosixPath.normalize (strip raw) in
    if negb (startswith p "/") then p else p.

(** [parent_dir]. *)
Definition parent_dir (path : string) : string :=
  let parent :=
    PurePosixPath.to_str (PurePosixPath.parent (PurePosixPath.parse path)) in
  if truthy parent then parent else "/".

Lemma to_str_truthy (p : PurePosixPath.t) : truthy (PurePosixPath.to_str p) = true.
Proof.
  unfold PurePosixPath.to_str.
  by destruct (truthy (PurePosixPath.root p +:+ join "/" (PurePosixPath.tail p))) eqn:E.
Qed.

Lemma normalize_to_str (p : PurePosixPath.t) :
  PurePosixPath.normal p ->
  PurePosixPath.normalize (PurePosixPath.to_str p) = PurePosixPath.to_str p.
Proof. intros Hp. unfold PurePosixPath.normalize. by rewrite PurePosixPath.parse_to_str. Qed.

(** [normalize_posix_path] returns a path in the normal form of
    [PurePosixPath], never the empty string: printing its parse gives it
    back.  [parent_dir] never takes its fallback, and on the normal form
    of a path with a last component it returns the normal form of the
    path without that component. *)
Theorem remote_paths_normal_form :
  (forall raw,
     truthy (normalize_posix_path raw) = true /\
     PurePosixPath.normalize (normalize_posix_path raw) = normalize_posix_path raw) /\
  (forall path,
     parent_dir path =
     PurePosixPath.to_str (PurePosixPath.parent (PurePosixPath.parse path))) /\
  (forall r tl x,
     PurePosixPath.normal (PurePosixPath.mk r (tl ++ [x])) ->
     parent_dir (PurePosixPath.to_str (PurePosixPath.mk r (tl ++ [x]))) =
     PurePosixPath.to_str (PurePosixPath.mk r tl)).
Proof.
  split; [|split].
  - intros raw. unfold normalize_posix_path. destruct (truthy raw); cbn [negb].
    + assert (forall p, (if negb (startswith p "/") then p else p) = p) as ->
        by (intros p; by destruct (negb _)).
      unfold PurePosixPath.normalize at 1 3. split; [apply to_str_truthy|].
      apply normalize_to_str, PurePosixPath.parse_normal.
    + split; reflexivity.
  - intros path. unfold parent_dir. by rewrite to_str_truthy.
  - intros r tl x Hn. unfold parent_dir. rewrite to_str_truthy.
    rewrite PurePosixPath.parse_to_str by done.
    unfold PurePosixPath.parent. cbn [PurePosixPath.tail PurePosixPath.root].
    rewrite removelast_last. by destruct tl.
Qed.

(** A path typed with a blank after [./] is normalized to a name with a
    leading blank, which a second pass strips: the function is not
    idempotent. *)
Lemma normalize_posix_path_twice :
  normalize_posix_path "./ a" = " a" /\
  normalize_posix_path (normalize_posix_path "./ a") = "a".
Proof. split; reflexivity. Qed.

End RemoteFs.
